(** * Session memory capture and sync: the hook scripts of nex-level-code

    A shallow embedding of the three hook scripts that make up the memory
    engine, and the properties of their cursor, merge and sync logic:

    - [development-logger.js] (second script embedded in
      [src/services/install.ts]): transcript cursor, exchange extraction,
      classifier call, daily log append;
    - [context-keeper.js] (first script embedded in
      [src/services/install.ts]): same pipeline, section replace in the
      handoff document;
    - [templates/hooks/memory-sync.js]: copy-on-difference mirroring of the
      memory directory against a git working copy.

    Around them, as far as the scripts' documents and directories go:

    - [templates/hooks/session-start.js] and
      [templates/hooks/memory-check.js]: what is read back at session start,
      and where the handoff document is looked for;
    - the memory directory look-ups of all scripts and of the MCP server;
    - [InstallService] in [src/services/install.ts], the tool registry and
      the uninstall command: tool resolution, hook registration,
      permissions and rules.

    JavaScript strings are sequences of UTF-16 code units; they are modelled
    as [list N], one number per code unit, so that [length], [slice],
    [substring] and [indexOf] count what the scripts count. *)

From Stdlib Require Import String Ascii NArith Lia.
From stdpp Require Import base option list gmap.

Set Default Proof Using "Type".

(* ===================================================================== *)
(** * Part I: definitions *)
(* ===================================================================== *)

(** ** JavaScript strings *)

Abbreviation jsstring := (list N).

(** An ASCII literal as a JavaScript string. *)
Definition lit (s : string) : jsstring :=
  map N_of_ascii (list_ascii_of_string s).

Definition NL : N := 10%N.
(** U+2014 EM DASH, one code unit. *)
Definition EM_DASH : N := 8212%N.
(** U+0022 QUOTATION MARK. *)
Definition DQUOTE : N := 34%N.
(** U+003C LESS-THAN SIGN and U+003E GREATER-THAN SIGN. *)
Definition LT : N := 60%N.
Definition GT : N := 62%N.

(** WhiteSpace and LineTerminator code points, as [String.prototype.trim]
    strips them. *)
Definition is_space (c : N) : bool :=
  existsb (N.eqb c)
    [9; 10; 11; 12; 13; 32; 160; 5760; 8232; 8233; 8239; 8287; 12288; 65279]%N
  || ((8192 <=? c) && (c <=? 8202))%N.

Fixpoint trimStart (s : jsstring) : jsstring :=
  match s with
  | c :: s' => if is_space c then trimStart s' else s
  | [] => []
  end.

Definition trimEnd (s : jsstring) : jsstring := rev (trimStart (rev s)).

(** [s.trim()] *)
Definition trim (s : jsstring) : jsstring := trimEnd (trimStart s).

(** [s.split(sep)] for a one-character separator: always at least one
    piece, the empty string splits into one empty piece. *)
Fixpoint split (sep : N) (s : jsstring) : list jsstring :=
  match s with
  | [] => [[]]
  | c :: s' =>
      if N.eqb c sep then [] :: split sep s'
      else match split sep s' with
           | piece :: pieces => (c :: piece) :: pieces
           | [] => [[c]]
           end
  end.

(** [pieces.join(sep)] on strings. *)
Fixpoint join (sep : jsstring) (pieces : list jsstring) : jsstring :=
  match pieces with
  | [] => []
  | [p] => p
  | p :: rest => p ++ sep ++ join sep rest
  end.

(** [s.startsWith(p)] *)
Fixpoint startsWith (p s : jsstring) : bool :=
  match p, s with
  | [], _ => true
  | _ :: _, [] => false
  | a :: p', b :: s' => N.eqb a b && startsWith p' s'
  end.

(** [s.indexOf(needle)]: the first position at which [needle] occurs;
    [None] stands for the script's [-1]. *)
Fixpoint indexOf_from (i : nat) (needle s : jsstring) : option nat :=
  if startsWith needle s then Some i
  else match s with
       | [] => None
       | _ :: s' => indexOf_from (S i) needle s'
       end.

Definition indexOf (needle s : jsstring) : option nat :=
  indexOf_from 0 needle s.

(** [s.substring(0, j)] is [take j s], [s.substring(j)] is [drop j s] and
    [s.slice(0, n)] is [take n s], for the non-negative indices the scripts
    pass. *)

(** Number of positions of [s] at which [needle] occurs. *)
Fixpoint occurrences (needle s : jsstring) : nat :=
  match s with
  | [] => 0
  | _ :: s' => (if startsWith needle s then 1 else 0) + occurrences needle s'
  end.

(** ** JavaScript values reachable from [JSON.parse]

    A number is carried by the two things the scripts can observe of it: its
    [ToString] rendering and whether it is non-zero. An object is its list of
    own properties, each key once. *)

#[warning="-register-all"]
Inductive Value : Type :=
| VUndefined
| VNull
| VBool (b : bool)
| VNum (shown : jsstring) (nonzero : bool)
| VStr (s : jsstring)
| VArr (items : list Value)
| VObj (fields : list (jsstring * Value)).

Definition truthy (v : Value) : bool :=
  match v with
  | VUndefined | VNull => false
  | VBool b => b
  | VNum _ nz => nz
  | VStr s => negb (bool_decide (s = []))
  | VArr _ | VObj _ => true
  end.

Definition nullish (v : Value) : bool :=
  match v with VUndefined | VNull => true | _ => false end.

(** [ToString], as template literals apply it; an array element that is
    [null] or [undefined] renders empty inside [Array.prototype.join]. *)
Fixpoint ToString (v : Value) : jsstring :=
  match v with
  | VUndefined => lit "undefined"
  | VNull => lit "null"
  | VBool true => lit "true"
  | VBool false => lit "false"
  | VNum shown _ => shown
  | VStr s => s
  | VArr items =>
      join (lit ",")
        (map (fun x => match x with
                       | VUndefined | VNull => []
                       | _ => ToString x
                       end) items)
  | VObj _ => lit "[object Object]"
  end.

Definition join_item (v : Value) : jsstring :=
  if nullish v then [] else ToString v.

(** [arr.join(sep)] *)
Definition array_join (sep : jsstring) (items : list Value) : jsstring :=
  join sep (map join_item items).

Fixpoint lookup_field (k : jsstring) (fields : list (jsstring * Value)) : Value :=
  match fields with
  | [] => VUndefined
  | (k', v) :: rest => if bool_decide (k' = k) then v else lookup_field k rest
  end.

(** [v.k] for the property names the scripts read ([type], [message],
    [content], [text], [name], [input], [file_path], [command], [pattern],
    [apiKey], [session_id], ...): [None] is the [TypeError] of reading a
    property of [null] or [undefined]; strings, numbers, booleans and arrays
    have none of these properties. *)
Definition prop (v : Value) (k : jsstring) : option Value :=
  match v with
  | VUndefined | VNull => None
  | VObj fields => Some (lookup_field k fields)
  | _ => Some VUndefined
  end.

(** [v?.k] *)
Definition opt_prop (v : Value) (k : jsstring) : Value :=
  match prop v k with Some x => x | None => VUndefined end.

(** [a || b] *)
Definition js_or (a b : Value) : Value := if truthy a then a else b.

(** [v === 'text']: strict equality with a string literal. *)
Definition is_str (v : Value) (s : jsstring) : bool :=
  match v with VStr s' => bool_decide (s' = s) | _ => false end.

(** ** Control flow of the scripts

    A statement runs on a mutable state and completes normally, by an early
    [return] of the enclosing function, or by a thrown exception. What it
    wrote to the state before a [return] or a [throw] stays written. *)

Inductive Completion (A : Type) : Type :=
| Normal (a : A)
| Returned
| Thrown.
Arguments Normal {A} a.
Arguments Returned {A}.
Arguments Thrown {A}.

Definition Eff (S A : Type) : Type := S -> S * Completion A.

Definition ret {S A} (a : A) : Eff S A := fun s => (s, Normal a).

Definition bind {S A B} (m : Eff S A) (k : A -> Eff S B) : Eff S B :=
  fun s =>
    match m s with
    | (s', Normal a) => k a s'
    | (s', Returned) => (s', Returned)
    | (s', Thrown) => (s', Thrown)
    end.

Notation "'let*' x ':=' m 'in' k" := (bind m (fun x => k))
  (at level 10, x name, m at level 100, k at level 200).
Notation "m ;; k" := (bind m (fun _ => k))
  (at level 100, k at level 200, right associativity).

(** [return;] *)
Definition return_ {S A} : Eff S A := fun s => (s, Returned).
(** [throw] *)
Definition throw {S A} : Eff S A := fun s => (s, Thrown).
Definition get {S} : Eff S S := fun s => (s, Normal s).
Definition modify {S} (f : S -> S) : Eff S unit := fun s => (f s, Normal tt).

(** A call that does not touch the state. *)
Definition await {S A} (c : Completion A) : Eff S A := fun s => (s, c).

(** An operation that throws when it has no result. *)
Definition lift {S A} (o : option A) : Eff S A :=
  match o with Some a => ret a | None => throw end.

(** [for (const x of xs) body] *)
Fixpoint for_each {S A} (xs : list A) (body : A -> Eff S unit) : Eff S unit :=
  match xs with
  | [] => ret tt
  | x :: xs' => body x ;; for_each xs' body
  end.

(** [try { m } catch {}] around a whole function body: the state reached is
    kept, however the body completed. *)
Definition run {S A} (m : Eff S A) (s : S) : S := fst (m s).

(** ** Exchange extractor: [getLatestExchange]

    The two hook scripts carry one copy each; the copies differ in the last
    branch of the tool descriptor only. *)

Inductive Script : Type := DevLogger | ContextKeeper.

Record Acc : Type := { parts : list Value; hasToolUse : bool }.

Definition push (v : Value) : Eff Acc unit :=
  modify (fun a => {| parts := parts a ++ [v]; hasToolUse := hasToolUse a |}).

Definition mark_tool_use : Eff Acc unit :=
  modify (fun a => {| parts := parts a; hasToolUse := true |}).

(** [v.slice(0, n)]: defined on strings and arrays, a [TypeError] on
    anything else. *)
Definition slice_to (n : nat) (v : Value) : option Value :=
  match v with
  | VStr s => Some (VStr (take n s))
  | VArr items => Some (VArr (take n items))
  | _ => None
  end.

(** The body of [else if (block.type === 'tool_use')]. *)
Definition describe_tool (script : Script) (block : Value) : Eff Acc unit :=
  mark_tool_use ;;
  let* block_name := lift (prop block (lit "name")) in
  let name := js_or block_name (VStr (lit "unknown")) in
  let* block_input := lift (prop block (lit "input")) in
  let input := js_or block_input (VObj []) in
  if is_str name (lit "Write") || is_str name (lit "Edit") then
    let* file_path := lift (prop input (lit "file_path")) in
    push (VStr (lit "[" ++ ToString name ++ lit ": "
                ++ ToString (js_or file_path (VStr (lit "unknown file")))
                ++ lit "]"))
  else if is_str name (lit "Bash") then
    let* command := lift (prop input (lit "command")) in
    let* shown := lift (slice_to 300 (js_or command (VStr []))) in
    push (VStr (lit "[Bash: " ++ ToString shown ++ lit "]"))
  else
    let with_target :=
      let* file_path := lift (prop input (lit "file_path")) in
      let* pattern := lift (prop input (lit "pattern")) in
      push (VStr (lit "[" ++ ToString name ++ lit ": "
                  ++ ToString (js_or (js_or file_path pattern) (VStr []))
                  ++ lit "]")) in
    match script with
    | DevLogger => with_target
    | ContextKeeper =>
        if is_str name (lit "Read") || is_str name (lit "Glob")
           || is_str name (lit "Grep")
        then with_target
        else push (VStr (lit "[" ++ ToString name ++ lit "]"))
    end.

(** The body of [for (const block of msgContent)]. Once [block.type] was
    read, reading [block.text] cannot throw, so reading it ahead of the
    [&&] changes nothing. *)
Definition visit_block (script : Script) (block : Value) : Eff Acc unit :=
  let* type := lift (prop block (lit "type")) in
  let* text := lift (prop block (lit "text")) in
  if is_str type (lit "text") && truthy text then push text
  else if is_str type (lit "tool_use") then describe_tool script block
  else ret tt.

(** [blocks.filter(b => b.type === 'text')] *)
Fixpoint filter_text_blocks (blocks : list Value) : option (list Value) :=
  match blocks with
  | [] => Some []
  | b :: rest =>
      match prop b (lit "type"), filter_text_blocks rest with
      | Some type, Some kept =>
          Some (if is_str type (lit "text") then b :: kept else kept)
      | _, _ => None
      end
  end.

(** [blocks.map(b => b.text)] *)
Fixpoint map_text (blocks : list Value) : option (list Value) :=
  match blocks with
  | [] => Some []
  | b :: rest =>
      match prop b (lit "text"), map_text rest with
      | Some text, Some texts => Some (text :: texts)
      | _, _ => None
      end
  end.

(** The text of a user entry's content. *)
Definition user_text (msgContent : Value) : option jsstring :=
  match msgContent with
  | VStr s => Some s
  | VArr blocks =>
      match filter_text_blocks blocks with
      | Some kept =>
          match map_text kept with
          | Some texts => Some (array_join (lit " ") texts)
          | None => None
          end
      | None => None
      end
  | _ => Some []
  end.

(** What the [try] block does with a parsed entry. *)
Definition visit_entry (script : Script) (entry : Value) : Eff Acc unit :=
  let* type := lift (prop entry (lit "type")) in
  if is_str type (lit "assistant") then
    let* message := lift (prop entry (lit "message")) in
    let msgContent := opt_prop message (lit "content") in
    match msgContent with
    | VStr _ => push msgContent
    | VArr blocks => for_each blocks (visit_block script)
    | _ => ret tt
    end
  else if is_str type (lit "user") then
    let* message := lift (prop entry (lit "message")) in
    let msgContent := opt_prop message (lit "content") in
    let* text := lift (user_text msgContent) in
    if truthy (VStr text)
    then push (VStr (lit "USER: " ++ take 500 text))
    else ret tt
  else ret tt.

(** The object [getLatestExchange] returns; [sawToolUse] is its
    [hasToolUse] property. *)
Record Exchange : Type :=
  { text : jsstring; sawToolUse : bool; totalLines : nat }.

(** [content.split('\n').filter(l => l.trim())] *)
Definition nonblank_lines (content : jsstring) : list jsstring :=
  filter (fun l => trim l <> []) (split NL content).

Section Extractor.

(** [JSON.parse] is the platform's; [None] is its [SyntaxError]. *)
Variable JSON_parse : jsstring -> option Value.

(** One iteration of [for (const line of newLines) { try {...} catch {} }]. *)
Definition visit_line (script : Script) (acc : Acc) (line : jsstring) : Acc :=
  run (let* entry := lift (JSON_parse line) in visit_entry script entry) acc.

Definition scan_lines (script : Script) (newLines : list jsstring) : Acc :=
  foldl (visit_line script) {| parts := []; hasToolUse := false |} newLines.

(** [file] is the transcript's content, [None] when no file exists at
    [transcriptPath]. *)
Definition getLatestExchange (script : Script) (file : option jsstring)
    (cursorLine : nat) : option Exchange :=
  match file with
  | None => None
  | Some content =>
      let lines := nonblank_lines content in
      let newLines := drop cursorLine lines in
      if bool_decide (length newLines = 0) then
        Some {| text := []; sawToolUse := false; totalLines := length lines |}
      else
        let acc := scan_lines script newLines in
        Some {| text := array_join [NL] (parts acc);
                sawToolUse := hasToolUse acc;
                totalLines := length lines |}
  end.

End Extractor.

(** ** Transcript cursor store: [getCursor], [setCursor]

    The cursor document of a project ([.memory/dev-cursor.json] for the
    development logger, [.memory/context-cursor.json] for the context
    keeper) either fails to parse or holds the object [setCursor] writes:
    session identifiers mapped to line counts. Session identifiers are the
    runtime's: plain property names, none of them a name that
    [Object.prototype] gives a meaning to. *)

Inductive CursorDoc : Type :=
| CursorCorrupt
| CursorData (data : gmap jsstring nat).

(** [doc] is [None] when the document does not exist. [data[sessionId] || 0] *)
Definition getCursor (doc : option CursorDoc) (sessionId : jsstring) : nat :=
  match doc with
  | None => 0
  | Some CursorCorrupt => 0
  | Some (CursorData data) => default 0 (data !! sessionId)
  end.

Definition setCursor (doc : option CursorDoc) (sessionId : jsstring)
    (line : nat) : CursorDoc :=
  let data := match doc with
              | Some (CursorData data) => data
              | _ => ∅
              end in
  CursorData (<[sessionId := line]> data).

(** ** Classifier client: [resolveApiKey], [callSmallModel] / [callHaiku] *)

Inductive FetchResult : Type :=
| NetworkError
(** A response arrived: its [ok] flag and what [response.json()] yields,
    [None] when the body does not parse. *)
| Responded (ok : bool) (body : option Value).

Record ApiEnv : Type := {
  ANTHROPIC_API_KEY : option jsstring;
  (** content of [~/.memory-mcp/config.json], when the file exists *)
  memory_mcp_config : option jsstring;
  (** content of [~/.nlc/config.json] *)
  nlc_config : option jsstring;
  (** content of [~/.config/anthropic/api_key] *)
  config_api_key : option jsstring;
  (** content of [~/.anthropic/api_key] *)
  home_api_key : option jsstring;
  (** the service's answer to the request the script builds from a key and
      a prompt *)
  fetch : Value -> jsstring -> FetchResult
}.

(** [arr.[0]] on a non-nullish value. *)
Definition first_element (v : Value) : Value :=
  match v with
  | VArr (x :: _) => x
  | VStr (c :: _) => VStr [c]
  | VObj fields => lookup_field (lit "0") fields
  | _ => VUndefined
  end.

(** ** Rendering of the two documents *)

Definition NONE : jsstring := lit "NONE".

(** [response.trim().split('\n').map(l => l.trim()).filter(l => l && l !== 'NONE')] *)
Definition response_lines (response : jsstring) : list jsstring :=
  filter (fun l => l <> [] /\ l <> NONE) (map trim (split NL (trim response))).

(** [`# Developments — ${dateStr}\n\n`] *)
Definition log_header (dateStr : jsstring) : jsstring :=
  lit "# Developments " ++ [EM_DASH] ++ lit " " ++ dateStr ++ [NL; NL].

(** [devLines.map(line => `- **${timeStr}** — ${line}`).join('\n')] *)
Definition render_entries (timeStr : jsstring) (devLines : list jsstring) : jsstring :=
  join [NL]
    (map (fun line => lit "- **" ++ timeStr ++ lit "** " ++ [EM_DASH]
                      ++ lit " " ++ line) devLines).

Definition AUTO_START : jsstring := lit "<!-- AUTO-CAPTURED".
Definition AUTO_END : jsstring := lit "<!-- END AUTO-CAPTURED -->".

(** [if (line.startsWith('- ')) return line; return `- ${line}`;] *)
Definition bullet (line : jsstring) : jsstring :=
  if startsWith (lit "- ") line then line else lit "- " ++ line.

(** [`${autoStart}\n${bulletLines}\n${autoEnd}`] *)
Definition render_section (dateTimeStr : jsstring) (bullets : list jsstring) : jsstring :=
  let autoStart := AUTO_START ++ lit ": " ++ dateTimeStr ++ lit " -->" in
  let bulletLines := join [NL] (map bullet bullets) in
  autoStart ++ [NL] ++ bulletLines ++ [NL] ++ AUTO_END.

(** Replace the existing auto-captured section or prepend the new one. *)
Definition merge_section (autoSection content : jsstring) : jsstring :=
  match indexOf AUTO_START content, indexOf AUTO_END content with
  | Some existingStart, Some existingEnd =>
      let before := take existingStart content in
      let after := drop (existingEnd + length AUTO_END) content in
      before ++ autoSection ++ after
  | _, _ =>
      if bool_decide (0 < length content)
      then autoSection ++ [NL; NL] ++ content
      else autoSection ++ [NL]
  end.

(** ** Prompts *)

(** [exchange.slice(0, 6000)] *)
Definition EXCHANGE_BUDGET : nat := 60 * 100.

Definition buildDevPrompt (exchange : jsstring) : jsstring :=
  join [NL] [
    lit "You are a development logger. Analyze the following exchange between a user and an AI coding assistant. Determine if a meaningful task was COMPLETED (not just started or discussed).";
    [];
    lit "A " ++ [DQUOTE] ++ lit "development" ++ [DQUOTE] ++ lit " is: a feature implemented, bug fixed, config changed, infrastructure deployed, file created/modified with purpose, tool/dependency installed, test written, document created, or script/automation built.";
    [];
    lit "NOT a development: reading files, asking questions, explaining without acting, work in progress, minor acknowledgments, or planning without implementing.";
    [];
    lit "If a development was completed, respond with ONLY 1-2 concise lines summarizing what was accomplished. Consolidate related steps. Start each line with an action verb. Be specific " ++ [EM_DASH] ++ lit " include names, paths, or URLs where relevant.";
    [];
    lit "If no development was completed, respond with exactly: NONE";
    [];
    lit "--- EXCHANGE ---";
    take EXCHANGE_BUDGET exchange ].

Definition buildContextPrompt (exchange : jsstring) : jsstring :=
  join [NL] [
    lit "You are a session context extractor for an AI coding assistant. Analyze the following exchange and extract ALL meaningful items into these categories:";
    [];
    lit "DECISION: Any decision the user made " ++ [EM_DASH] ++ lit " approved an approach, rejected an idea, chose between options, confirmed a direction";
    lit "DONE: Work that was completed " ++ [EM_DASH] ++ lit " features built, bugs fixed, files created, configs changed";
    lit "TESTED: Work that was tested and the result (pass/fail)";
    lit "OPEN: Things still in progress, blocked, or queued for later";
    [];
    lit "Rules:";
    lit "- Be specific " ++ [EM_DASH] ++ lit " include file names, feature names, concrete details";
    lit "- One bullet per item, prefix with category in brackets: [DECISION], [DONE], [TESTED], [OPEN]";
    lit "- If NOTHING meaningful happened (just chatting, reading, exploring), respond with: NONE";
    lit "- Keep concise " ++ [EM_DASH] ++ lit " max 1 line per bullet";
    lit "- Focus on what CHANGED, not what was discussed";
    [];
    lit "--- EXCHANGE ---";
    take EXCHANGE_BUDGET exchange ].

Definition buildPrompt (script : Script) : jsstring -> jsstring :=
  match script with
  | DevLogger => buildDevPrompt
  | ContextKeeper => buildContextPrompt
  end.

(** ** The world a hook invocation runs in

    Files are keyed by what the scripts derive their path from: a transcript
    by its path, a cursor document by the project directory, the handoff
    document and the daily logs by the project directory (whose memory
    directory [getMemoryDir] / [getAutoMemoryDir] resolves) and, for a log,
    its date. A key without a value is a file that does not exist; a
    value is the text [readFileSync(_, 'utf-8')] reads and [writeFileSync]
    writes. *)

Record World : Type := {
  transcripts : gmap jsstring jsstring;
  dev_cursors : gmap jsstring CursorDoc;
  context_cursors : gmap jsstring CursorDoc;
  daily_logs : gmap (jsstring * jsstring) jsstring;
  handoffs : gmap jsstring jsstring
}.

Definition cursors (script : Script) (w : World) : gmap jsstring CursorDoc :=
  match script with
  | DevLogger => dev_cursors w
  | ContextKeeper => context_cursors w
  end.

Definition with_cursor (script : Script) (cwd : jsstring) (doc : CursorDoc)
    (w : World) : World :=
  match script with
  | DevLogger =>
      {| transcripts := transcripts w;
         dev_cursors := <[cwd := doc]> (dev_cursors w);
         context_cursors := context_cursors w;
         daily_logs := daily_logs w;
         handoffs := handoffs w |}
  | ContextKeeper =>
      {| transcripts := transcripts w;
         dev_cursors := dev_cursors w;
         context_cursors := <[cwd := doc]> (context_cursors w);
         daily_logs := daily_logs w;
         handoffs := handoffs w |}
  end.

Definition with_daily_log (cwd dateStr content : jsstring) (w : World) : World :=
  {| transcripts := transcripts w;
     dev_cursors := dev_cursors w;
     context_cursors := context_cursors w;
     daily_logs := <[(cwd, dateStr) := content]> (daily_logs w);
     handoffs := handoffs w |}.

Definition with_handoff (cwd content : jsstring) (w : World) : World :=
  {| transcripts := transcripts w;
     dev_cursors := dev_cursors w;
     context_cursors := context_cursors w;
     daily_logs := daily_logs w;
     handoffs := <[cwd := content]> (handoffs w) |}.

(** What one invocation receives from outside the file system. *)
Record Invocation : Type := {
  (** everything read from standard input *)
  stdin : jsstring;
  (** [new Date().toISOString().split('T')[0]] *)
  dateStr : jsstring;
  (** [new Date().toTimeString().slice(0, 5)] *)
  timeStr : jsstring;
  api : ApiEnv
}.

Definition as_string (v : Value) : option jsstring :=
  match v with VStr s => Some s | _ => None end.

(** [fs.existsSync(p) ? fs.readFileSync(p, 'utf-8') : absent]; a path that
    is not a string names no file. *)
Definition read_transcript (transcript_path : Value) (w : World) : option jsstring :=
  match transcript_path with
  | VStr p => transcripts w !! p
  | _ => None
  end.

Section Hooks.

Variable JSON_parse : jsstring -> option Value.

(** [cfg.apiKey] of a configuration file, when the file exists, parses
    and carries a truthy key. *)
Definition config_key (file : option jsstring) : option Value :=
  match file with
  | None => None
  | Some content =>
      match JSON_parse content with
      | None => None
      | Some cfg =>
          match prop cfg (lit "apiKey") with
          | Some key => if truthy key then Some key else None
          | None => None
          end
      end
  end.

Fixpoint first_config_key (files : list (option jsstring)) : option Value :=
  match files with
  | [] => None
  | file :: rest =>
      match config_key file with
      | Some key => Some key
      | None => first_config_key rest
      end
  end.

(** [for (const p of keyFiles) if (fs.existsSync(p)) return read(p).trim()] *)
Fixpoint first_key_file (files : list (option jsstring)) : Value :=
  match files with
  | [] => VNull
  | Some content :: _ => VStr (trim content)
  | None :: rest => first_key_file rest
  end.

Definition config_files (script : Script) (env : ApiEnv) : list (option jsstring) :=
  match script with
  | DevLogger => [memory_mcp_config env; nlc_config env]
  | ContextKeeper => [memory_mcp_config env]
  end.

Definition resolveApiKey (script : Script) (env : ApiEnv) : Value :=
  let from_files :=
    match first_config_key (config_files script env) with
    | Some key => key
    | None => first_key_file [config_api_key env; home_api_key env]
    end in
  match ANTHROPIC_API_KEY env with
  | Some key => if truthy (VStr key) then VStr key else from_files
  | None => from_files
  end.

(** [callSmallModel] of the development logger, [callHaiku] of the context
    keeper: how the call completes. *)
Definition callSmallModel (script : Script) (env : ApiEnv)
    (prompt : jsstring) : Completion Value :=
  let key := resolveApiKey script env in
  if negb (truthy key) then Normal VNull else
  match fetch env key prompt with
  | NetworkError => Thrown
  | Responded ok body =>
      if negb ok then Normal VNull else
      match body with
      | None => Thrown
      | Some data =>
          match prop data (lit "content") with
          | None => Thrown
          | Some content =>
              let first := if nullish content then VUndefined
                           else first_element content in
              let text := opt_prop first (lit "text") in
              Normal (js_or text VNull)
          end
      end
  end.

(** Lines 1035-1056 of the development logger: append to the daily log. *)
Definition append_daily_log (cwd dateStr timeStr response : jsstring) :
    Eff World unit :=
  let* w := get in
  let existing := match daily_logs w !! (cwd, dateStr) with
                  | Some content => content
                  | None => log_header dateStr
                  end in
  let devLines := response_lines response in
  if bool_decide (length devLines = 0) then return_ else
  let entries := render_entries timeStr devLines in
  modify (with_daily_log cwd dateStr (existing ++ entries ++ [NL])).

(** Lines 757-803 of the context keeper: rewrite the handoff document. *)
Definition write_handoff (cwd dateTimeStr response : jsstring) : Eff World unit :=
  let bullets := response_lines response in
  if bool_decide (length bullets = 0) then return_ else
  let autoSection := render_section dateTimeStr bullets in
  let* w := get in
  let content := default [] (handoffs w !! cwd) in
  modify (with_handoff cwd (merge_section autoSection content)).

Definition record (script : Script) (cwd : jsstring) (inv : Invocation)
    (response : jsstring) : Eff World unit :=
  match script with
  | DevLogger => append_daily_log cwd (dateStr inv) (timeStr inv) response
  | ContextKeeper =>
      (* getDateTimeStr *)
      write_handoff cwd (dateStr inv ++ lit " " ++ timeStr inv) response
  end.

(** [main] from the pre-filter on, the same in both scripts up to the
    classifier's answer. *)
Definition classify_and_record (script : Script) (inv : Invocation)
    (cwd : jsstring) (result : Exchange) : Eff World unit :=
  if negb (sawToolUse result) && bool_decide (length (text result) < 100)
  then return_ else
  let prompt := buildPrompt script (text result) in
  let* response := await (callSmallModel script (api inv) prompt) in
  if negb (truthy response) then return_ else
  (* response.trim() is a TypeError on anything but a string *)
  let* response_text := lift (as_string response) in
  if bool_decide (trim response_text = NONE)
     || startsWith NONE (trim response_text)
  then return_ else
  record script cwd inv response_text.

(** The body of [main]'s [try] block. *)
Definition main_body (script : Script) (inv : Invocation) : Eff World unit :=
  if bool_decide (trim (stdin inv) = []) then return_ else
  let* hookData := lift (JSON_parse (stdin inv)) in
  let* session_id := lift (prop hookData (lit "session_id")) in
  let* transcript_path := lift (prop hookData (lit "transcript_path")) in
  let* cwd_value := lift (prop hookData (lit "cwd")) in
  if negb (truthy transcript_path) || negb (truthy cwd_value)
     || negb (truthy session_id)
  then return_ else
  (* path.join(cwd, '.memory', ...) rejects a cwd that is not a string *)
  let* cwd := lift (as_string cwd_value) in
  let sessionId := ToString session_id in
  let* w := get in
  let cursor := getCursor (cursors script w !! cwd) sessionId in
  match getLatestExchange JSON_parse script (read_transcript transcript_path w) cursor with
  | None => return_
  | Some result =>
      let* w := get in
      modify (with_cursor script cwd
                (setCursor (cursors script w !! cwd) sessionId (totalLines result))) ;;
      classify_and_record script inv cwd result
  end.

(** [main]: whatever happens inside, the failure is silent. *)
Definition main (script : Script) (inv : Invocation) (w : World) : World :=
  run (main_body script inv) w.

End Hooks.

(** ** Sync engine: [templates/hooks/memory-sync.js]

    File contents are byte sequences here; the script compares what
    [readFileSync(_, 'utf-8')] decodes them to. *)

Abbreviation bytes := (list N).
Abbreviation directory := (gmap jsstring bytes).

Definition SYNC_FILES : list jsstring := [lit "MEMORY.md"; lit "session-handoff.md"].

Definition is_digit (c : N) : bool := ((48 <=? c) && (c <=? 57))%N.

(** [/^\d{4}-\d{2}-\d{2}\.md$/.test(f)] *)
Definition DEV_LOG_PATTERN (f : jsstring) : bool :=
  match f with
  | [y1; y2; y3; y4; d1; m1; m2; d2; a1; a2; dot; m; d] =>
      is_digit y1 && is_digit y2 && is_digit y3 && is_digit y4
      && N.eqb d1 45 && is_digit m1 && is_digit m2 && N.eqb d2 45
      && is_digit a1 && is_digit a2
      && N.eqb dot 46 && N.eqb m 109 && N.eqb d 100
  | _ => false
  end.

Definition is_tracked (f : jsstring) : bool :=
  bool_decide (f ∈ SYNC_FILES) || DEV_LOG_PATTERN f.

(** The shared repository's working copy, as far as the script's git
    commands see it. *)
Record Repo : Type := {
  (** the files of the repository directory *)
  worktree : directory;
  (** what [git add] staged *)
  index : directory;
  (** the tree of the last commit *)
  head : directory;
  (** messages of the commits created here, newest first *)
  commits : list jsstring;
  (** number of [git push] that went through *)
  pushed : nat
}.

Inductive Side : Type := Local | Repository.

Inductive Event : Type :=
| Compared (f : jsstring)
| Copied (src dst : Side) (f : jsstring)
| Pulled
| Staged
(** [git diff --cached --quiet] ran; [clean] tells whether the index
    equalled the last commit. *)
| DiffChecked (clean : bool)
| Committed (message : jsstring)
| Pushed.

Record SyncState : Type := {
  (** the local memory directory, [None] when it does not exist *)
  memory : option directory;
  repo : Repo;
  (** what the invocation did so far, oldest first *)
  trace : list Event
}.

(** What lies outside the working copy. *)
Record GitEnv : Type := {
  (** [git pull --rebase]: the working copy after it, [None] when the
      command fails *)
  pull_rebase : Repo -> option Repo;
  add_fails : bool;
  (** [git diff --cached --quiet] failing for another reason than a diff *)
  diff_fails : bool;
  commit_fails : bool;
  push_fails : bool;
  (** what the shell that [execSync] starts hands to [git commit] as the
      argument of [-m], for a command line *)
  shell_subject : jsstring -> jsstring;
  hostname : jsstring;
  (** [new Date().toISOString().replace('T', ' ').slice(0, 19)] *)
  timestamp : jsstring
}.

Definition log_event (e : Event) (st : SyncState) : SyncState :=
  {| memory := memory st; repo := repo st; trace := trace st ++ [e] |}.

Definition emit (e : Event) : Eff SyncState unit := modify (log_event e).

Definition set_repo (r : Repo) : Eff SyncState unit :=
  modify (fun st => {| memory := memory st; repo := r; trace := trace st |}).

Definition set_memory (m : option directory) : Eff SyncState unit :=
  modify (fun st => {| memory := m; repo := repo st; trace := trace st |}).

Definition set_worktree (d : directory) (r : Repo) : Repo :=
  {| worktree := d; index := index r; head := head r;
     commits := commits r; pushed := pushed r |}.

(** [fs.readdirSync(dir).filter(f => SYNC_FILES.includes(f) || DEV_LOG_PATTERN.test(f))] *)
Definition getFilesToSync (dir : option directory) : list jsstring :=
  match dir with
  | None => []
  | Some d => List.filter is_tracked (map fst (map_to_list d))
  end.

Definition files_of (side : Side) (st : SyncState) : option directory :=
  match side with
  | Local => memory st
  | Repository => Some (worktree (repo st))
  end.

Definition write_file (dst : Side) (f : jsstring) (content : bytes)
    (st : SyncState) : SyncState :=
  match dst with
  | Local =>
      {| memory := (fun d => <[f := content]> d) <$> memory st;
         repo := repo st; trace := trace st |}
  | Repository =>
      {| memory := memory st;
         repo := set_worktree (<[f := content]> (worktree (repo st))) (repo st);
         trace := trace st |}
  end.

(** [fs.copyFileSync(src, dst)]: fails when the destination directory does
    not exist. *)
Definition copyFileSync (src dst : Side) (f : jsstring) (content : bytes) :
    Eff SyncState unit :=
  let* st := get in
  match files_of dst st with
  | None => throw
  | Some _ => modify (write_file dst f content) ;; emit (Copied src dst f)
  end.

(** [`git commit -m "sync: ${hostname} @ ${timestamp}"`] *)
Definition commit_command (hostname timestamp : jsstring) : jsstring :=
  lit "git commit -m " ++ [DQUOTE] ++ lit "sync: " ++ hostname ++ lit " @ "
  ++ timestamp ++ [DQUOTE].

Section Sync.

(** [fs.readFileSync(_, 'utf-8')] *)
Variable utf8_decode : bytes -> jsstring.
Variable git : GitEnv.

Definition gitPull : Eff SyncState bool :=
  emit Pulled ;;
  let* st := get in
  match pull_rebase git (repo st) with
  | Some r => set_repo r ;; ret true
  | None => ret false
  end.

(** [execSync('git add -A')] *)
Definition git_add : Eff SyncState unit :=
  emit Staged ;;
  if add_fails git then throw else
  let* st := get in
  let r := repo st in
  set_repo {| worktree := worktree r; index := worktree r; head := head r;
              commits := commits r; pushed := pushed r |}.

(** [execSync('git diff --cached --quiet')]: completes when nothing is
    staged, throws when the index differs from the last commit. *)
Definition git_diff_cached_quiet : Eff SyncState unit :=
  let* st := get in
  emit (DiffChecked (bool_decide (index (repo st) = head (repo st)))) ;;
  if diff_fails git then throw else
  if bool_decide (index (repo st) = head (repo st)) then ret tt else throw.

(** [execSync(commandLine)] for a [git commit -m] command line: the
    command line goes through a shell, the commit gets the subject the shell
    hands on; git refuses a commit with nothing staged. *)
Definition git_commit (commandLine : jsstring) : Eff SyncState unit :=
  let* st := get in
  let r := repo st in
  if commit_fails git || bool_decide (index r = head r) then throw else
  let message := shell_subject git commandLine in
  set_repo {| worktree := worktree r; index := index r; head := index r;
              commits := message :: commits r; pushed := pushed r |} ;;
  emit (Committed message).

Definition git_push : Eff SyncState unit :=
  if push_fails git then throw else
  let* st := get in
  let r := repo st in
  set_repo {| worktree := worktree r; index := index r; head := head r;
              commits := commits r; pushed := S (pushed r) |} ;;
  emit Pushed.

(** [try { m; return true } catch { }]: whether [m] completed. *)
Definition completes {S A} (m : Eff S A) : Eff S bool :=
  fun s => match m s with
           | (s', Normal _) => (s', Normal true)
           | (s', _) => (s', Normal false)
           end.

Definition gitPush : Eff SyncState bool :=
  completes (
    gitPull ;;
    git_add ;;
    let* clean := completes git_diff_cached_quiet in
    if clean then ret tt (* No changes *) else
    git_commit (commit_command (hostname git) (timestamp git)) ;;
    git_push).

Definition copyIfDifferent (src dst : Side) (f : jsstring) : Eff SyncState bool :=
  let* st := get in
  match files_of src st ≫= (fun d => d !! f) with
  | None => ret false
  | Some srcBytes =>
      match files_of dst st ≫= (fun d => d !! f) with
      | None => copyFileSync src dst f srcBytes ;; ret true
      | Some dstBytes =>
          emit (Compared f) ;;
          if bool_decide (utf8_decode srcBytes <> utf8_decode dstBytes)
          then copyFileSync src dst f srcBytes ;; ret true
          else ret false
      end
  end.

(** [for (const f of files) if (copy(f)) copied++], from [copied]. *)
Fixpoint copy_each (files : list jsstring) (copy : jsstring -> Eff SyncState bool)
    (copied : nat) : Eff SyncState nat :=
  match files with
  | [] => ret copied
  | f :: rest =>
      let* done := copy f in
      copy_each rest copy (if done then S copied else copied)
  end.

Definition syncPull : Eff SyncState nat :=
  gitPull ;;
  let* st := get in
  (if bool_decide (memory st = None) then set_memory (Some ∅) else ret tt) ;;
  let* st := get in
  let files := getFilesToSync (Some (worktree (repo st))) in
  copy_each files (copyIfDifferent Repository Local) 0.

Definition syncPush : Eff SyncState nat :=
  let* st := get in
  if bool_decide (memory st = None) then ret 0 else
  let files := getFilesToSync (memory st) in
  let* copied := copy_each files (copyIfDifferent Local Repository) 0 in
  (* Also pull files that only exist in repo (from other machine) *)
  let* st := get in
  let repoFiles := getFilesToSync (Some (worktree (repo st))) in
  let* copied := copy_each (List.filter (fun f => negb (bool_decide (f ∈ files))) repoFiles)
                   (copyIfDifferent Repository Local) copied in
  gitPush ;;
  ret copied.

End Sync.

(** ** Statements about an invocation *)

(** The payload on standard input names a session, a transcript and a
    project directory. *)
Definition payload_is (JSON_parse : jsstring -> option Value) (inv : Invocation)
    (session_id transcript_path cwd : jsstring) : Prop :=
  trim (stdin inv) <> [] /\
  exists hookData,
    JSON_parse (stdin inv) = Some hookData /\
    prop hookData (lit "session_id") = Some (VStr session_id) /\
    prop hookData (lit "transcript_path") = Some (VStr transcript_path) /\
    prop hookData (lit "cwd") = Some (VStr cwd) /\
    session_id <> [] /\ transcript_path <> [] /\ cwd <> [].

(** What [main] reads off standard input before it looks at the files: the
    session, the transcript path and the project directory, when the run
    gets that far. *)
Definition payload (JSON_parse : jsstring -> option Value) (input : jsstring) :
    option (Value * Value * jsstring) :=
  if bool_decide (trim input = []) then None else
  hookData ← JSON_parse input;
  session_id ← prop hookData (lit "session_id");
  transcript_path ← prop hookData (lit "transcript_path");
  cwd_value ← prop hookData (lit "cwd");
  if negb (truthy transcript_path) || negb (truthy cwd_value)
     || negb (truthy session_id)
  then None else
  cwd ← as_string cwd_value;
  Some (session_id, transcript_path, cwd).

(** The classifier's answers that mean nothing to record. *)
Definition sentinel (response : Value) : Prop :=
  response = VNull \/
  exists s, response = VStr s /\
    (trim s = NONE \/ startsWith NONE (trim s) = true).

(** Between two runs no transcript gained or lost a non-blank line, and
    nothing else changed. *)
Definition no_new_lines (w w' : World) : Prop :=
  (length ∘ nonblank_lines) <$> transcripts w'
  = (length ∘ nonblank_lines) <$> transcripts w
  /\ dev_cursors w' = dev_cursors w
  /\ context_cursors w' = context_cursors w
  /\ daily_logs w' = daily_logs w
  /\ handoffs w' = handoffs w.



(** The ways the classifier call can fail. *)
Inductive FailureMode : Type :=
| MissingCredentials
| NetworkFailure
| NonSuccessResponse
| UnparseableResponse.

Definition fails_with (JSON_parse : jsstring -> option Value) (script : Script)
    (env : ApiEnv) (prompt : jsstring) (mode : FailureMode) : Prop :=
  let key := resolveApiKey JSON_parse script env in
  match mode with
  | MissingCredentials => truthy key = false
  | NetworkFailure => truthy key = true /\ fetch env key prompt = NetworkError
  | NonSuccessResponse =>
      truthy key = true /\ exists body, fetch env key prompt = Responded false body
  | UnparseableResponse =>
      truthy key = true /\ fetch env key prompt = Responded true None
  end.

(** How the call completes in each failure mode. *)
Definition failure_outcome (mode : FailureMode) : Completion Value :=
  match mode with
  | MissingCredentials | NonSuccessResponse => Normal VNull
  | NetworkFailure | UnparseableResponse => Thrown
  end.

(** Credential resolution as the specification words it: candidates in a
    fixed order, the first one present wins. *)
Definition credential_candidates (JSON_parse : jsstring -> option Value)
    (script : Script) (env : ApiEnv) : list (option Value) :=
  [ANTHROPIC_API_KEY env ≫= (fun key => if truthy (VStr key) then Some (VStr key) else None)]
  ++ map (config_key JSON_parse) (config_files script env)
  ++ map (fmap (fun content => VStr (trim content)))
       [config_api_key env; home_api_key env].

Fixpoint first_present (candidates : list (option Value)) : Value :=
  match candidates with
  | [] => VNull
  | Some v :: _ => v
  | None :: rest => first_present rest
  end.

(** ** Statements about a sync invocation *)

(** The local and the repository copy of [f] are the same bytes (or both
    absent). *)
Definition same_copy (f : jsstring) (st : SyncState) : Prop :=
  memory st ≫= (fun d => d !! f) = worktree (repo st) !! f.

(** Events of the copy loops, and of what [gitPush] does after its pull. *)
Definition file_event (e : Event) : Prop :=
  match e with Compared _ | Copied _ _ _ => True | _ => False end.

Definition git_step (e : Event) : Prop :=
  match e with Staged | DiffChecked _ | Committed _ | Pushed => True | _ => False end.

(** The order the specification words: no document is compared or copied
    before a pull took place. *)
Definition pull_comes_first (events : list Event) : Prop :=
  forall i e, events !! i = Some e -> file_event e ->
    exists j, j < i /\ events !! j = Some Pulled.

(** The order the script has: comparisons and copies, then the one pull,
    then staging, diff, commit and push. *)
Definition pull_follows_copies (events : list Event) : Prop :=
  exists copies rest,
    events = copies ++ Pulled :: rest
    /\ Forall file_event copies /\ Forall git_step rest.


(** What a run of [copyIfDifferent] from [src] to [dst] over [files] leaves
    behind. *)
Definition copies_done (src dst : Side) (files : list jsstring)
    (st st' : SyncState) : Prop :=
  is_Some (memory st')
  /\ index (repo st') = index (repo st)
  /\ head (repo st') = head (repo st)
  /\ exists evs,
       trace st' = trace st ++ evs
       /\ Forall (fun e => exists f, f ∈ files /\ (e = Compared f \/ e = Copied src dst f)) evs
       /\ (forall f, same_copy f st ->
             same_copy f st' /\ forall s d, Copied s d f ∉ evs)
       /\ (worktree (repo st') = worktree (repo st)
           \/ exists f, f ∈ files /\ dst = Repository /\ Copied src dst f ∈ evs).

(** ** Sample data

    The text [JSON.stringify] writes for a value whose strings need no
    escape, and a [JSON.parse] that knows the values of a given list. *)

Fixpoint json_text (v : Value) : jsstring :=
  match v with
  | VUndefined => []
  | VNull => lit "null"
  | VBool true => lit "true"
  | VBool false => lit "false"
  | VNum shown _ => shown
  | VStr s => [DQUOTE] ++ s ++ [DQUOTE]
  | VArr items => lit "[" ++ join (lit ",") (map json_text items) ++ lit "]"
  | VObj fields =>
      lit "{"
      ++ join (lit ",")
           (map (fun kv => match kv with
                           | (k, x) => [DQUOTE] ++ k ++ [DQUOTE] ++ lit ":" ++ json_text x
                           end) fields)
      ++ lit "}"
  end.

Fixpoint parse_known (known : list Value) (s : jsstring) : option Value :=
  match known with
  | [] => None
  | v :: rest => if bool_decide (json_text v = s) then Some v else parse_known rest s
  end.

Definition sample_user_entry : Value :=
  VObj [(lit "type", VStr (lit "user"));
        (lit "message",
         VObj [(lit "content", VStr (lit "please add a login endpoint"))])].

Definition sample_assistant_entry : Value :=
  VObj [(lit "type", VStr (lit "assistant"));
        (lit "message",
         VObj [(lit "content",
                VArr [VObj [(lit "type", VStr (lit "text"));
                            (lit "text", VStr (lit "Implemented the endpoint."))];
                      VObj [(lit "type", VStr (lit "tool_use"));
                            (lit "name", VStr (lit "Edit"));
                            (lit "input",
                             VObj [(lit "file_path", VStr (lit "src/login.ts"))])]])])].

Definition sample_payload : Value :=
  VObj [(lit "session_id", VStr (lit "s1"));
        (lit "transcript_path", VStr (lit "/tmp/t.jsonl"));
        (lit "cwd", VStr (lit "/proj"))].

Definition sample_parse : jsstring -> option Value :=
  parse_known [sample_payload; sample_user_entry; sample_assistant_entry].

(** Three non-blank lines, the second one cut short, and a blank line. *)
Definition sample_transcript : jsstring :=
  json_text sample_user_entry ++ [NL] ++ lit "{truncated" ++ [NL] ++ [NL]
  ++ json_text sample_assistant_entry ++ [NL].

(** A classifier that answers [answer] to every request. *)
Definition answering (answer : Value) : ApiEnv :=
  {| ANTHROPIC_API_KEY := Some (lit "key");
     memory_mcp_config := None;
     nlc_config := None;
     config_api_key := None;
     home_api_key := None;
     fetch := fun _ _ =>
       Responded true
         (Some (VObj [(lit "content",
                       VArr [VObj [(lit "type", VStr (lit "text"));
                                   (lit "text", answer)]])])) |}.

Definition sample_invocation (env : ApiEnv) : Invocation :=
  {| stdin := json_text sample_payload;
     dateStr := lit "2026-01-15";
     timeStr := lit "09:30";
     api := env |}.

(** An invocation the classifier answers with the sentinel, and one it
    answers with a completed development. *)
Definition nothing_to_record : Invocation :=
  sample_invocation (answering (VStr (lit " NONE" ++ [NL]))).

Definition development_done : Invocation :=
  sample_invocation (answering (VStr (lit "Added login endpoint"))).

(** A project whose development logger consumed [k] lines of session [s1]. *)
Definition sample_world (k : nat) : World :=
  {| transcripts := {[ lit "/tmp/t.jsonl" := sample_transcript ]};
     dev_cursors := {[ lit "/proj" := CursorData {[ lit "s1" := k ]} ]};
     context_cursors := ∅;
     daily_logs := ∅;
     handoffs := ∅ |}.


(** What the extractor reads off the sample transcript from its start. *)
Definition sample_exchange : Exchange :=
  {| text := lit "USER: please add a login endpoint" ++ [NL]
             ++ lit "Implemented the endpoint." ++ [NL]
             ++ lit "[Edit: src/login.ts]";
     sawToolUse := true;
     totalLines := 3 |}.

(** The sample project after a run of [script], its transcript grown by
    blank lines only. *)
Definition sample_world_later (script : Script) (inv : Invocation) (k : nat) : World :=
  let w := main sample_parse script inv (sample_world k) in
  {| transcripts := {[ lit "/tmp/t.jsonl" := sample_transcript ++ [NL; 32%N; NL] ]};
     dev_cursors := dev_cursors w;
     context_cursors := context_cursors w;
     daily_logs := daily_logs w;
     handoffs := handoffs w |}.

(** A handoff document with prose around one auto-captured section. *)
Definition sample_handoff : jsstring :=
  lit "# Handoff" ++ [NL]
  ++ lit "<!-- AUTO-CAPTURED: 2026-01-14 10:00 -->" ++ [NL]
  ++ lit "- [DONE] set up the project" ++ [NL]
  ++ AUTO_END ++ [NL]
  ++ lit "Notes written by hand." ++ [NL].

(** The same section after its end marker was edited away. *)
Definition handoff_without_end : jsstring :=
  lit "<!-- AUTO-CAPTURED: 2026-01-14 10:00 -->" ++ [NL]
  ++ lit "- [DONE] set up the project" ++ [NL].

(** A context classification of two lines. *)
Definition sample_answer : jsstring :=
  lit "[DONE] Added login endpoint" ++ [NL] ++ lit "- [OPEN] tests".


(** A machine with a key in the environment and no network. *)
Definition offline : ApiEnv :=
  {| ANTHROPIC_API_KEY := Some (lit "key");
     memory_mcp_config := None;
     nlc_config := None;
     config_api_key := None;
     home_api_key := None;
     fetch := fun _ _ => NetworkError |}.

(** A shell on a command line without a character it expands: the argument
    is the text between the first and the last double quote. *)
Fixpoint after_quote (s : jsstring) : jsstring :=
  match s with
  | [] => []
  | c :: rest => if N.eqb c DQUOTE then rest else after_quote rest
  end.

Definition double_quoted (commandLine : jsstring) : jsstring :=
  rev (after_quote (rev (after_quote commandLine))).

(** A remote with nothing new: the pull goes through on a clean working
    tree and is refused on a dirty one; either way it changes nothing. *)
Definition quiet_remote : GitEnv :=
  {| pull_rebase := fun r => if bool_decide (worktree r = head r) then Some r else None;
     add_fails := false;
     diff_fails := false;
     commit_fails := false;
     push_fails := false;
     shell_subject := double_quoted;
     hostname := lit "desk";
     timestamp := lit "2026-01-15 09:31:00" |}.

Definition committed_repo (files : directory) : Repo :=
  {| worktree := files; index := files; head := files; commits := []; pushed := 0 |}.

(** [MEMORY.md] was edited on this machine since the last sync. *)
Definition edited_locally : SyncState :=
  {| memory := Some {[ lit "MEMORY.md" := lit "new notes";
                       lit "session-handoff.md" := lit "handoff" ]};
     repo := committed_repo {[ lit "MEMORY.md" := lit "old notes";
                               lit "session-handoff.md" := lit "handoff" ]};
     trace := [] |}.


(** ** Session start: [templates/hooks/session-start.js]

    What the session-start hook reads back from the two documents. *)

(** [s.substring(a, b)]: the two indices are swapped when [a > b]. *)
Definition substring (a b : nat) (s : jsstring) : jsstring :=
  take (Nat.max a b - Nat.min a b) (drop (Nat.min a b) s).

(** Lines 96-108: the auto-captured section injected into the session,
    [None] when one of the markers is not found. *)
Definition injected_section (handoffContent : jsstring) : option jsstring :=
  match indexOf AUTO_START handoffContent, indexOf AUTO_END handoffContent with
  | Some autoStart, Some autoEnd =>
      Some (substring autoStart (autoEnd + length AUTO_END) handoffContent)
  | _, _ => None
  end.


(** ** Further sample data *)

(** An invocation with nothing on standard input. *)
Definition blank_invocation : Invocation :=
  {| stdin := lit "  " ++ [NL];
     dateStr := lit "2026-01-15";
     timeStr := lit "09:30";
     api := offline |}.

(** A project whose transcript holds one user message and no tool call. *)
Definition chat_only_world : World :=
  {| transcripts := {[ lit "/tmp/t.jsonl" := json_text sample_user_entry ++ [NL] ]};
     dev_cursors := ∅;
     context_cursors := ∅;
     daily_logs := ∅;
     handoffs := ∅ |}.

(** ** Statements about the directories after a sync *)

(** What a side holds under the name [f]. *)
Definition lookup_side (side : Side) (st : SyncState) (f : jsstring) : option bytes :=
  files_of side st ≫= (fun d => d !! f).

(** What [copyIfDifferent] leaves at the destination, from what the source
    and the destination held. *)
Definition copied_over (decode : bytes -> jsstring) (src dst : option bytes) :
    option bytes :=
  match src, dst with
  | None, _ => dst
  | Some c, None => Some c
  | Some c, Some d => if bool_decide (decode c <> decode d) then Some c else Some d
  end.

(** The fields of the repository that only git commands write. *)
Definition same_history (r r' : Repo) : Prop :=
  index r' = index r /\ head r' = head r
  /\ commits r' = commits r /\ pushed r' = pushed r.

(** The state in which the copy loop of a pull starts: the pull was
    attempted, the memory directory exists. *)
Definition after_gitPull (git : GitEnv) (st : SyncState) : SyncState :=
  {| memory := Some (default ∅ (memory st));
     repo := default (repo st) (pull_rebase git (repo st));
     trace := trace st ++ [Pulled] |}.

(** ** Memory directory resolution

    [cwdToProjectKey] and the directory look-ups of the scripts. A path is
    kept as the list of segments handed to [path.join]; [existsSync] tells
    which paths exist. [home] is [process.env.USERPROFILE ||
    process.env.HOME || ''] in the hook scripts and [os.homedir()] in the
    MCP server. *)

Abbreviation path := (list jsstring).

(** [s.replace(/c/g, '-')] for a one-character pattern. *)
Definition replace_with_dash (c : N) (s : jsstring) : jsstring :=
  map (fun x => if N.eqb x c then 45%N else x) s.

Definition is_lower (c : N) : bool := ((97 <=? c) && (c <=? 122))%N.
Definition is_upper (c : N) : bool := ((65 <=? c) && (c <=? 90))%N.

(** [s.replace(/^([a-z])/, (m) => m.toUpperCase())] *)
Definition upper_first (s : jsstring) : jsstring :=
  match s with
  | c :: rest => if is_lower c then (c - 32)%N :: rest else s
  | [] => []
  end.

(** [key.replace(/^([A-Z])/, (m) => m.toLowerCase())] *)
Definition lower_first (s : jsstring) : jsstring :=
  match s with
  | c :: rest => if is_upper c then (c + 32)%N :: rest else s
  | [] => []
  end.

Definition BACKSLASH : N := 92.
Definition SLASH : N := 47.
Definition COLON : N := 58.
Definition UNDERSCORE : N := 95.
Definition DASH : N := 45.

(** The characters [cwdToProjectKey] replaces. *)
Definition is_separator (c : N) : bool :=
  N.eqb c BACKSLASH || N.eqb c SLASH || N.eqb c COLON || N.eqb c UNDERSCORE.

Definition cwdToProjectKey (cwd : jsstring) : jsstring :=
  upper_first
    (replace_with_dash UNDERSCORE
       (replace_with_dash COLON
          (replace_with_dash SLASH
             (replace_with_dash BACKSLASH cwd)))).

(** [path.join(home, '.claude', 'projects', key, 'memory')] *)
Definition claude_memory (home key : jsstring) : path :=
  [home; lit ".claude"; lit "projects"; key; lit "memory"].

(** [path.join(home, '.nlc', 'projects', key)] *)
Definition nlc_project (home key : jsstring) : path :=
  [home; lit ".nlc"; lit "projects"; key].

(** [for (const p of candidates) { if (fs.existsSync(p)) return p; }] *)
Definition first_existing (existsSync : path -> bool) (candidates : list path) :
    option path :=
  List.find existsSync candidates.

Module SessionStart.

(** [getMemoryDir] of the session-start hook; the development logger has
    the same function. *)
Definition getMemoryDir (existsSync : path -> bool) (home cwd : jsstring) : path :=
  let key := cwdToProjectKey cwd in
  let lowerKey := lower_first key in
  let candidates :=
    [claude_memory home lowerKey; claude_memory home key;
     nlc_project home lowerKey; nlc_project home key] in
  default (nlc_project home lowerKey) (first_existing existsSync candidates).

Definition findHandoff (existsSync : path -> bool) (home cwd : jsstring) : option path :=
  let memoryDir := getMemoryDir existsSync home cwd in
  let handoffPath := memoryDir ++ [lit "session-handoff.md"] in
  if existsSync handoffPath then Some handoffPath else None.

End SessionStart.

Module ContextKeeper.

Definition getAutoMemoryDir (existsSync : path -> bool) (home cwd : jsstring) : path :=
  let key := cwdToProjectKey cwd in
  let upperPath := claude_memory home key in
  let lowerKey := lower_first key in
  let lowerPath := claude_memory home lowerKey in
  if existsSync lowerPath then lowerPath
  else if existsSync upperPath then upperPath
  else lowerPath.

End ContextKeeper.

Module MemorySync.

Definition getMemoryDir (existsSync : path -> bool) (home cwd : jsstring) : path :=
  let key := cwdToProjectKey cwd in
  let lowerKey := lower_first key in
  let candidates := [claude_memory home lowerKey; claude_memory home key] in
  default (claude_memory home lowerKey) (first_existing existsSync candidates).

End MemorySync.

Module McpServer.

Definition getMemoryDir (existsSync : path -> bool) (home cwd : jsstring) : path :=
  let key := cwdToProjectKey cwd in
  let lowerKey := lower_first key in
  let candidates :=
    [claude_memory home lowerKey; claude_memory home key; nlc_project home lowerKey] in
  default (claude_memory home lowerKey) (first_existing existsSync candidates).

End McpServer.

Module MemoryCheck.

Definition findHandoff (existsSync : path -> bool) (home cwd : jsstring) : option path :=
  let key := cwdToProjectKey cwd in
  let lowerKey := lower_first key in
  let candidates :=
    [claude_memory home lowerKey ++ [lit "session-handoff.md"];
     claude_memory home key ++ [lit "session-handoff.md"];
     nlc_project home lowerKey ++ [lit "session-handoff.md"];
     nlc_project home key ++ [lit "session-handoff.md"]] in
  first_existing existsSync candidates.

End MemoryCheck.

(** A machine on which one handoff document and the directories above it
    exist. *)
Definition only_below (file : path) (p : path) : bool :=
  bool_decide (p `prefix_of` file).

Definition sample_home : jsstring := lit "/home/dev".

Definition nlc_handoff_only : path -> bool :=
  only_below (nlc_project sample_home (lit "-work-my-app") ++ [lit "session-handoff.md"]).

(** ** Installer: [InstallService] and the tool registry *)

(** [s.includes(needle)] *)
Definition includes (needle s : jsstring) : bool :=
  match indexOf needle s with Some _ => true | None => false end.

(** The loop of [setPermissions]: the allow list and the count [added]
    after it.
    [if (!allow.includes(perm)) { allow.push(perm); added++; }] *)
Fixpoint add_missing (allowList allow : list jsstring) (added : nat) :
    list jsstring * nat :=
  match allowList with
  | [] => (allow, added)
  | perm :: rest =>
      if bool_decide (perm ∈ allow) then add_missing rest allow added
      else add_missing rest (allow ++ [perm]) (S added)
  end.

Definition NLC_NAME : jsstring := lit "Nex Level Code".

(** ['\n\n---\n\n'] *)
Definition RULES_SEPARATOR : jsstring := [NL; NL] ++ lit "---" ++ [NL; NL].

(** The template [installRules] reads: the tool's own, else the generic
    one, [None] when neither file exists. *)
Definition rules_template (toolTemplate genericTemplate : option jsstring) :
    option jsstring :=
  match toolTemplate with
  | Some t => Some t
  | None => genericTemplate
  end.

(** [installRules]: what is written to the rules file, [None] when the
    function returns without writing. [existing] is the content of the rules
    file, [None] when there is no such file. *)
Definition installRules (force : bool) (rulesFile : jsstring)
    (toolTemplate genericTemplate existing : option jsstring) : option jsstring :=
  if bool_decide (rulesFile = []) then None else
  match rules_template toolTemplate genericTemplate with
  | None => None
  | Some templateContent =>
      match existing with
      | Some existing =>
          if includes NLC_NAME existing
          then if negb force then None else Some templateContent
          else Some (existing ++ RULES_SEPARATOR ++ templateContent)
      | None => Some templateContent
      end
  end.

(** The fields of a [ToolDefinition] that detection and hook registration
    read. *)
Record Tool : Type := {
  tool_id : jsstring;
  globalDirs : list path;
  hooks_supported : bool;
  hook_events : list jsstring
}.

Definition TOOL_REGISTRY (home : jsstring) : list Tool :=
  [ {| tool_id := lit "claude";
       globalDirs := [[home; lit ".claude"]];
       hooks_supported := true;
       hook_events := [lit "SessionStart"; lit "UserPromptSubmit"; lit "Stop";
                       lit "PreCompact"; lit "SessionEnd"] |};
    {| tool_id := lit "cursor";
       globalDirs := [[home; lit ".cursor"]];
       hooks_supported := false;
       hook_events := [] |};
    {| tool_id := lit "github";
       globalDirs := [];
       hooks_supported := false;
       hook_events := [] |};
    {| tool_id := lit "windsurf";
       globalDirs := [[home; lit ".windsurf"]];
       hooks_supported := false;
       hook_events := [] |};
    {| tool_id := lit "codex";
       globalDirs := [[home; lit ".codex"]];
       hooks_supported := false;
       hook_events := [] |} ].

(** [TOOL_REGISTRY.filter(tool => { for (dir of globalDirs) if (exists(dir)) return true; return false; })] *)
Definition detectInstalledTools (existsSync : path -> bool) (home : jsstring) : list Tool :=
  List.filter (fun tool => existsb existsSync (globalDirs tool)) (TOOL_REGISTRY home).

(** [TOOL_REGISTRY.find(t => t.id === id)] *)
Definition getToolById (home id : jsstring) : option Tool :=
  List.find (fun t => bool_decide (tool_id t = id)) (TOOL_REGISTRY home).

Inductive ResolveError : Type :=
| UnknownTool
| NoToolDetected.

(** [resolveTool]: [toolId] is the [--tool] option, [None] when not given. *)
Definition resolveTool (existsSync : path -> bool) (home : jsstring)
    (toolId : option jsstring) : ResolveError + Tool :=
  match toolId with
  | Some (c :: id) =>
      match getToolById home (c :: id) with
      | Some tool => inr tool
      | None => inl UnknownTool
      end
  | _ =>
      let detected := detectInstalledTools existsSync home in
      match detected with
      | [] => inl NoToolDetected
      | [only] => inr only
      | first :: _ =>
          (* Multiple tools found: prefer Claude Code if available *)
          match List.find (fun t => bool_decide (tool_id t = lit "claude")) detected with
          | Some claude => inr claude
          | None => inr first
          end
      end
  end.

(** A machine with Cursor and Codex. *)
Definition cursor_and_codex : path -> bool :=
  fun p => bool_decide (p ∈ [[sample_home; lit ".cursor"]; [sample_home; lit ".codex"]]).

(** ** Installer: [registerHooks]

    [settings.hooks] maps an event name to its hook groups; a hook group
    is the list of its hooks. *)

Record Hook : Type := {
  hook_type : jsstring;
  command : jsstring;
  timeout : nat
}.

Abbreviation HookGroup := (list Hook).
Abbreviation HookSettings := (gmap jsstring (list HookGroup)).

(** [(s) => `"${s}"`] *)
Definition q (s : jsstring) : jsstring := [DQUOTE] ++ s ++ [DQUOTE].

(** [groups.some(hookGroup => hookGroup.hooks?.some(h => h.command?.includes(needle)))] *)
Definition registered (needle : jsstring) (groups : list HookGroup) : bool :=
  existsb (fun hookGroup => existsb (fun h => includes needle (command h)) hookGroup) groups.

(** [settings.hooks[event]], an array once
    [if (!settings.hooks[event]) settings.hooks[event] = [];] ran. *)
Definition groups_of (event : jsstring) (hooks : HookSettings) : list HookGroup :=
  default [] (hooks !! event).

(** [settings.hooks[event].push({ hooks: [{ type: 'command', command, timeout }] })] *)
Definition push_command (event cmd : jsstring) (seconds : nat) (hooks : HookSettings) :
    HookSettings :=
  <[event := groups_of event hooks
             ++ [[{| hook_type := lit "command"; command := cmd; timeout := seconds |}]]]>
    hooks.

(** Hook mapping: event, then script file and timeout. *)
Definition hookMap : list (jsstring * list (jsstring * nat)) :=
  [(lit "SessionStart", [(lit "nlc-session-start.js", 5)]);
   (lit "UserPromptSubmit", [(lit "nlc-memory-check.js", 5)]);
   (lit "Stop", [(lit "nlc-dev-logger.js", 30); (lit "nlc-context-keeper.js", 30)]);
   (lit "PreToolUse", [(lit "nlc-dispatch-gate.js", 5)])].

Section RegisterHooks.

(** [path.join(scriptsDir, script)], as the string it returns. *)
Variable script_path : jsstring -> jsstring.
Variable nodePath : jsstring.
(** [this.findMemoryMcpExtractor(nodePath)] *)
Variable memoryMcpExtractor : option jsstring.
Variable force : bool.
Variable events : list jsstring.

(** One round of the loop over [['Stop', 'PreCompact', 'SessionEnd']]. *)
Definition register_extractor (extractor : jsstring) (hooks : HookSettings)
    (event : jsstring) : HookSettings :=
  if negb (bool_decide (event ∈ events)) then hooks else
  let hooks := <[event := groups_of event hooks]> hooks in
  let alreadyRegistered := registered (lit "extractor") (groups_of event hooks) in
  if negb alreadyRegistered
  then push_command event (q nodePath ++ lit " " ++ q extractor) 30 hooks
  else hooks.

(** One round of [for (const { script, timeout } of scripts)]. *)
Definition register_script (event : jsstring) (hooks : HookSettings)
    (entry : jsstring * nat) : HookSettings :=
  let script := entry.1 in
  let cmd := q nodePath ++ lit " " ++ q (script_path script) in
  let alreadyRegistered := registered script (groups_of event hooks) in
  if alreadyRegistered && negb force then hooks else
  let hooks :=
    if alreadyRegistered && force
    then <[event := List.filter
                      (fun hookGroup =>
                         negb (existsb (fun h => includes (lit "nlc-") (command h)) hookGroup))
                      (groups_of event hooks)]> hooks
    else hooks in
  push_command event cmd entry.2 hooks.

(** One round of [for (const [event, scripts] of Object.entries(hookMap))]. *)
Definition register_event (hooks : HookSettings)
    (entry : jsstring * list (jsstring * nat)) : HookSettings :=
  let event := entry.1 in
  if negb (bool_decide (event ∈ events)) then hooks else
  let hooks := <[event := groups_of event hooks]> hooks in
  foldl (register_script event) hooks entry.2.

(** [registerHooks], on [settings.hooks] ([None] when the settings have no
    such field, or no settings file could be read): the hooks written back. *)
Definition registerHooks (settings_hooks : option HookSettings) : HookSettings :=
  let hooks := default ∅ settings_hooks in
  let hooks :=
    match memoryMcpExtractor with
    | Some extractor =>
        foldl (register_extractor extractor) hooks
          [lit "Stop"; lit "PreCompact"; lit "SessionEnd"]
    | None => hooks
    end in
  foldl register_event hooks hookMap.

End RegisterHooks.

(** [later] holds what [earlier] held, each event's groups in front. *)
Definition extends (earlier later : HookSettings) : Prop :=
  forall event,
    (is_Some (earlier !! event) -> is_Some (later !! event))
    /\ exists added, groups_of event later = groups_of event earlier ++ added.

(** The scripts of an entry of the hook mapping are registered, when
    the tool lists the event. *)
Definition event_done (events : list jsstring)
    (entry : jsstring * list (jsstring * nat)) (hooks : HookSettings) : Prop :=
  entry.1 ∈ events ->
  is_Some (hooks !! entry.1)
  /\ forall s, s ∈ entry.2 -> registered s.1 (groups_of entry.1 hooks) = true.

(** Claude Code with its scripts in [~/.claude/scripts]. *)
Definition sample_script_path (script : jsstring) : jsstring :=
  lit "/home/dev/.claude/scripts/" ++ script.

Definition claude_events : list jsstring :=
  [lit "SessionStart"; lit "UserPromptSubmit"; lit "Stop"; lit "PreCompact";
   lit "SessionEnd"].

(** Settings in which only the context keeper is registered on [Stop]. *)
Definition keeper_only : HookSettings :=
  {[ lit "Stop" :=
       [[ {| hook_type := lit "command";
             command := q (lit "node") ++ lit " "
                        ++ q (sample_script_path (lit "nlc-context-keeper.js"));
             timeout := 30 |} ]] ]}.

(** ** Uninstall: the hooks it removes from the settings *)

(** [group.hooks?.some(h => h.command?.includes('nlc-'))] *)
Definition is_nlc_group (hookGroup : HookGroup) : bool :=
  existsb (fun h => includes (lit "nlc-") (command h)) hookGroup.

(** The loop over [Object.entries(settings.hooks)] of the uninstall
    command: NLC's groups are filtered out of every event, and an event left
    without groups is deleted. *)
Definition uninstall_hooks (hooks : HookSettings) : HookSettings :=
  omap (fun hookGroups =>
          let kept := List.filter (fun group => negb (is_nlc_group group)) hookGroups in
          if bool_decide (length kept = 0) then None else Some kept)
       hooks.

(** [later] holds what [earlier] held and, behind it, groups of NLC. *)
Definition extends_by_nlc (earlier later : HookSettings) : Prop :=
  forall event,
    (is_Some (earlier !! event) -> is_Some (later !! event))
    /\ exists added,
         groups_of event later = groups_of event earlier ++ added
         /\ Forall (fun group => is_nlc_group group = true) added.

(** Settings with a hook of the user on [Stop]. *)
Definition user_hooks : HookSettings :=
  {[ lit "Stop" :=
       [[ {| hook_type := lit "command"; command := lit "notify-send done";
             timeout := 5 |} ]] ]}.



(** Both sides edited [MEMORY.md] since the last sync. *)
Definition edited_on_both_sides : SyncState :=
  {| memory := Some {[ lit "MEMORY.md" := lit "local notes" ]};
     repo := committed_repo {[ lit "MEMORY.md" := lit "remote notes" ]};
     trace := [] |}.

(** ** Transcript entries and what the extractor is to emit for them

    The entries of a transcript as the runtime writes them, and the text
    each contributes to the exchange: free text verbatim, a bracketed
    descriptor per tool invocation, a [USER:] line capped at 500 code units
    per user entry. A JSON value holds an entry when the properties the
    extractor reads have the entry's values; it may have further
    properties. *)


















(* ===================================================================== *)
(** * Part II: properties *)
(* ===================================================================== *)

(** ** Control flow *)

Ltac eff := unfold run, bind, ret, lift, throw, return_, get, modify, await; simpl.

Arguments startsWith !p !s : simpl nomatch.
Arguments lit : simpl never.
Arguments trim : simpl never.

Lemma truthy_VStr (s : jsstring) : s <> [] -> truthy (VStr s) = true.
Proof. intros H. simpl. by rewrite bool_decide_eq_false_2. Qed.

(** ** Exchange extractor *)

Lemma split_cons_inv (sep : N) (s : jsstring) :
  exists piece pieces, split sep s = piece :: pieces.
Proof.
  destruct s as [|c s]; simpl; [by eexists _, _|].
  destruct (N.eqb c sep); [by eexists _, _|].
  destruct (split sep s); by eexists _, _.
Qed.

Lemma split_app_sep (sep : N) (a b : jsstring) :
  split sep (a ++ sep :: b) = split sep a ++ split sep b.
Proof.
  induction a as [|c a IH]; simpl.
  - by rewrite N.eqb_refl.
  - destruct (N.eqb c sep); [by rewrite IH|].
    rewrite IH. by destruct (split_cons_inv sep a) as (piece & pieces & ->).
Qed.

(** A transcript that grows by whole lines: the lines of the old content
    stay, those of the appended text follow. *)
Lemma nonblank_lines_append (old appended : jsstring) :
  nonblank_lines (old ++ NL :: appended)
  = nonblank_lines old ++ nonblank_lines appended.
Proof. unfold nonblank_lines. by rewrite split_app_sep, filter_app. Qed.

Section ExtractorFacts.

Variable JSON_parse : jsstring -> option Value.
Variable script : Script.

Lemma visit_line_malformed (acc : Acc) (line : jsstring) :
  JSON_parse line = None -> visit_line JSON_parse script acc line = acc.
Proof. intros H. unfold visit_line. eff. by rewrite H. Qed.

Lemma foldl_visit_skip (acc : Acc) (pre post : list jsstring) (bad : jsstring) :
  JSON_parse bad = None ->
  foldl (visit_line JSON_parse script) acc (pre ++ bad :: post)
  = foldl (visit_line JSON_parse script) acc (pre ++ post).
Proof.
  intros H. rewrite !foldl_app. simpl. by rewrite visit_line_malformed.
Qed.

(** The early exit on an empty [newLines] returns what the loop would. *)
Lemma getLatestExchange_scan (content : jsstring) (cursorLine : nat) :
  getLatestExchange JSON_parse script (Some content) cursorLine
  = let acc := scan_lines JSON_parse script (drop cursorLine (nonblank_lines content)) in
    Some {| text := array_join [NL] (parts acc);
            sawToolUse := hasToolUse acc;
            totalLines := length (nonblank_lines content) |}.
Proof.
  unfold getLatestExchange. case_bool_decide as Hlen; [|done].
  apply nil_length_inv in Hlen. by rewrite Hlen.
Qed.

End ExtractorFacts.

(** ** Cursor store *)

Lemma getCursor_setCursor (doc : option CursorDoc) (sessionId : jsstring) (line : nat) :
  getCursor (Some (setCursor doc sessionId line)) sessionId = line.
Proof. unfold getCursor, setCursor. by rewrite lookup_insert_eq. Qed.

Lemma getCursor_setCursor_ne (doc : option CursorDoc) (s1 s2 : jsstring) (line : nat) :
  s1 <> s2 ->
  getCursor (Some (setCursor doc s1 line)) s2 = getCursor doc s2.
Proof.
  intros Hne. unfold getCursor, setCursor. rewrite lookup_insert_ne; [|done].
  destruct doc as [[|data]|]; by rewrite ?lookup_empty.
Qed.

Lemma setCursor_idem (doc : option CursorDoc) (sessionId : jsstring) (line : nat) :
  setCursor (Some (setCursor doc sessionId line)) sessionId line
  = setCursor doc sessionId line.
Proof. unfold setCursor. by rewrite insert_insert_eq. Qed.

Lemma cursors_with_cursor (script : Script) (cwd : jsstring) (doc : CursorDoc) (w : World) :
  cursors script (with_cursor script cwd doc w) !! cwd = Some doc.
Proof. destruct script; simpl; apply lookup_insert_eq. Qed.

(** ** The hook pipeline *)

Section HookFacts.

Variable JSON_parse : jsstring -> option Value.

(** A run either stops before it touches anything, or writes the cursor
    and goes on to the classifier. *)
Lemma main_unfold (script : Script) (inv : Invocation) (w : World) :
  main JSON_parse script inv w
  = match payload JSON_parse (stdin inv) with
    | None => w
    | Some (session_id, transcript_path, cwd) =>
        let doc := cursors script w !! cwd in
        match getLatestExchange JSON_parse script (read_transcript transcript_path w)
                (getCursor doc (ToString session_id)) with
        | None => w
        | Some result =>
            run (classify_and_record JSON_parse script inv cwd result)
              (with_cursor script cwd
                 (setCursor doc (ToString session_id) (totalLines result)) w)
        end
    end.
Proof.
  unfold main, main_body, payload.
  case_bool_decide; [done|].
  destruct (JSON_parse (stdin inv)) as [hookData|]; [|done]. eff.
  destruct (prop hookData (lit "session_id")) as [session_id|]; [|done]. simpl.
  destruct (prop hookData (lit "transcript_path")) as [transcript_path|]; [|done]. simpl.
  destruct (prop hookData (lit "cwd")) as [cwd_value|]; [|done]. simpl.
  destruct (negb (truthy transcript_path) || _ || _); [done|].
  destruct (as_string cwd_value) as [cwd|]; [|done]. simpl.
  by destruct (getLatestExchange _ _ _ _).
Qed.

Lemma payload_of_payload_is (inv : Invocation) (sid tpath cwd : jsstring) :
  payload_is JSON_parse inv sid tpath cwd ->
  payload JSON_parse (stdin inv) = Some (VStr sid, VStr tpath, cwd).
Proof.
  intros (Hin & hookData & Hparse & Hsid & Htp & Hcwd & Hs & Ht & Hc).
  unfold payload. rewrite bool_decide_eq_false_2 by done.
  rewrite Hparse. simpl. rewrite Hsid, Htp, Hcwd. simpl.
  by rewrite !bool_decide_eq_false_2 by done.
Qed.

(** Up to the cursor write, a run with a usable payload and an existing
    transcript is determined by the extractor's result. *)
Lemma main_after_cursor (script : Script) (inv : Invocation) (w : World)
    (sid tpath cwd : jsstring) (result : Exchange) :
  payload_is JSON_parse inv sid tpath cwd ->
  getLatestExchange JSON_parse script (transcripts w !! tpath)
    (getCursor (cursors script w !! cwd) sid) = Some result ->
  main JSON_parse script inv w
  = run (classify_and_record JSON_parse script inv cwd result)
      (with_cursor script cwd
         (setCursor (cursors script w !! cwd) sid (totalLines result)) w).
Proof.
  intros Hp Hres. rewrite main_unfold, (payload_of_payload_is _ _ _ _ Hp).
  simpl. by rewrite Hres.
Qed.

Lemma record_frame (script : Script) (cwd : jsstring) (inv : Invocation)
    (response : jsstring) (w : World) :
  let w' := run (record script cwd inv response) w in
  transcripts w' = transcripts w /\ dev_cursors w' = dev_cursors w
  /\ context_cursors w' = context_cursors w.
Proof.
  destruct script; simpl; unfold append_daily_log, write_handoff; eff;
    case_bool_decide; simpl; done.
Qed.

(** The classifier and the merge never touch transcripts or cursors. *)
Lemma classify_and_record_frame (script : Script) (inv : Invocation)
    (cwd : jsstring) (result : Exchange) (w : World) :
  let w' := run (classify_and_record JSON_parse script inv cwd result) w in
  transcripts w' = transcripts w /\ dev_cursors w' = dev_cursors w
  /\ context_cursors w' = context_cursors w.
Proof.
  unfold classify_and_record.
  destruct (negb (sawToolUse result) && _); [done|].
  eff. destruct (callSmallModel _ _ _ _) as [response| |]; [|done|done].
  destruct (truthy response); simpl; [|done].
  destruct (as_string response) as [r|]; simpl; [|done].
  destruct (_ || _); [done|].
  apply (record_frame script cwd inv r w).
Qed.

(** A sentinel answer ends the run where the cursor write left it. *)
Lemma classify_sentinel (script : Script) (inv : Invocation) (cwd : jsstring)
    (result : Exchange) (response : Value) (w : World) :
  callSmallModel JSON_parse script (api inv) (buildPrompt script (text result))
    = Normal response ->
  sentinel response ->
  run (classify_and_record JSON_parse script inv cwd result) w = w.
Proof.
  intros Hcall Hs. unfold classify_and_record.
  destruct (negb (sawToolUse result) && _); [done|].
  eff. rewrite Hcall.
  destruct Hs as [->|(s & -> & Hs)]; [done|].
  simpl. destruct (bool_decide (s = [])); simpl; [done|].
  destruct Hs as [Hs|Hs].
  - by rewrite (bool_decide_eq_true_2 _ Hs).
  - rewrite Hs. by rewrite orb_true_r.
Qed.

End HookFacts.

Section Pipeline.

Variable JSON_parse : jsstring -> option Value.

Lemma cursor_after_main (script : Script) (inv : Invocation) (w : World)
    (sid tpath cwd : jsstring) (result : Exchange) :
  payload_is JSON_parse inv sid tpath cwd ->
  getLatestExchange JSON_parse script (transcripts w !! tpath)
    (getCursor (cursors script w !! cwd) sid) = Some result ->
  getCursor (cursors script (main JSON_parse script inv w) !! cwd) sid
  = totalLines result.
Proof.
  intros Hp Hres. rewrite (main_after_cursor _ _ _ _ _ _ _ _ Hp Hres).
  pose proof (classify_and_record_frame JSON_parse script inv cwd result
    (with_cursor script cwd
       (setCursor (cursors script w !! cwd) sid (totalLines result)) w))
    as (_ & Hdev & Hctx).
  set (w0 := with_cursor _ _ _ _) in *.
  assert (cursors script (run (classify_and_record JSON_parse script inv cwd result) w0)
          = cursors script w0) as -> by (by destruct script).
  unfold w0. rewrite cursors_with_cursor. apply getCursor_setCursor.
Qed.

(** C5. When the classifier's answer is [null], or a text that trims to
    [NONE] or to something beginning with [NONE], the run leaves every
    daily log and every handoff document as it was, and the cursor of
    the session holds the line count the extractor reported. *)
Theorem sentinel_short_circuit (script : Script) (inv : Invocation) (w : World)
    (sid tpath cwd : jsstring) (result : Exchange) (response : Value) :
  payload_is JSON_parse inv sid tpath cwd ->
  getLatestExchange JSON_parse script (transcripts w !! tpath)
    (getCursor (cursors script w !! cwd) sid) = Some result ->
  callSmallModel JSON_parse script (api inv) (buildPrompt script (text result))
    = Normal response ->
  sentinel response ->
  daily_logs (main JSON_parse script inv w) = daily_logs w
  /\ handoffs (main JSON_parse script inv w) = handoffs w
  /\ getCursor (cursors script (main JSON_parse script inv w) !! cwd) sid
     = totalLines result.
Proof.
  intros Hp Hres Hcall Hs.
  rewrite (cursor_after_main script inv w sid tpath cwd result Hp Hres).
  rewrite (main_after_cursor _ _ _ _ _ _ _ _ Hp Hres).
  rewrite (classify_sentinel _ _ _ _ _ _ _ Hcall Hs).
  by destruct script.
Qed.

(** C10. A new non-blank line that [JSON.parse] rejects adds nothing to
    the text and cannot set the tool flag: the exchange is the one of the
    transcript without that line. The line still counts in the reported
    total, the cursor the run leaves lies beyond it, and a run from that
    cursor over a longer transcript reads the lines added since, nothing
    before them. *)
Theorem malformed_line_consumed (script : Script) (inv : Invocation) (w : World)
    (sid tpath cwd content bad : jsstring) (pre post : list jsstring) (k : nat) :
  payload_is JSON_parse inv sid tpath cwd ->
  transcripts w !! tpath = Some content ->
  getCursor (cursors script w !! cwd) sid = k ->
  drop k (nonblank_lines content) = pre ++ bad :: post ->
  JSON_parse bad = None ->
  let total := length (nonblank_lines content) in
  let clean := scan_lines JSON_parse script (pre ++ post) in
  getLatestExchange JSON_parse script (Some content) k
  = Some {| text := array_join [NL] (parts clean);
            sawToolUse := hasToolUse clean;
            totalLines := total |}
  /\ getCursor (cursors script (main JSON_parse script inv w) !! cwd) sid = total
  /\ k + length pre < total
  /\ forall (content' : jsstring) (later : list jsstring),
       nonblank_lines content' = nonblank_lines content ++ later ->
       getLatestExchange JSON_parse script (Some content') total
       = Some {| text := array_join [NL] (parts (scan_lines JSON_parse script later));
                 sawToolUse := hasToolUse (scan_lines JSON_parse script later);
                 totalLines := total + length later |}.
Proof.
  intros Hp Hfile Hcur Hnew Hbad total clean.
  assert (getLatestExchange JSON_parse script (Some content) k
          = Some {| text := array_join [NL] (parts clean);
                    sawToolUse := hasToolUse clean;
                    totalLines := total |}) as Hres.
  { rewrite getLatestExchange_scan, Hnew. simpl. unfold clean, scan_lines.
    by rewrite (foldl_visit_skip JSON_parse script _ pre post bad Hbad). }
  split; [exact Hres|]. split; [|split].
  - rewrite <- Hfile, <- Hcur in Hres at 1.
    by rewrite (cursor_after_main script inv w sid tpath cwd _ Hp Hres).
  - assert (length (drop k (nonblank_lines content)) = length pre + S (length post))
      as Hlen by (by rewrite Hnew, length_app).
    rewrite length_drop in Hlen. unfold total. lia.
  - intros content' later Hext.
    rewrite getLatestExchange_scan, Hext. simpl.
    unfold total. by rewrite drop_app_length, length_app.
Qed.

Lemma with_cursor_same (script : Script) (cwd : jsstring) (doc : CursorDoc) (w : World) :
  cursors script w !! cwd = Some doc -> with_cursor script cwd doc w = w.
Proof.
  intros H. destruct w, script; unfold with_cursor; simpl in *;
    by rewrite insert_id.
Qed.

Lemma main_transcripts (script : Script) (inv : Invocation) (w : World) :
  transcripts (main JSON_parse script inv w) = transcripts w.
Proof.
  rewrite main_unfold. destruct (payload _ _) as [[[sidv tpv] cwd]|]; [|done].
  simpl. destruct (getLatestExchange _ _ _ _) as [result|]; [|done].
  pose proof (classify_and_record_frame JSON_parse script inv cwd result
    (with_cursor script cwd
       (setCursor (cursors script w !! cwd) (ToString sidv) (totalLines result)) w))
    as (-> & _). by destruct script.
Qed.

(** C8. A second run on the same payload, with no non-blank line added
    to any transcript since the first run and nothing else changed,
    changes nothing: no daily log, no handoff document, no cursor. *)
Theorem idempotent_offset_advance (script : Script) (inv inv' : Invocation)
    (w w1 : World) :
  stdin inv' = stdin inv ->
  no_new_lines (main JSON_parse script inv w) w1 ->
  main JSON_parse script inv' w1 = w1.
Proof.
  intros Hin (Hlen & Hdev & Hctx & _ & _).
  rewrite main_transcripts in Hlen.
  assert (cursors script w1 = cursors script (main JSON_parse script inv w))
    as Hcur by (by destruct script).
  rewrite (main_unfold JSON_parse script inv' w1), Hin.
  rewrite (main_unfold JSON_parse script inv w) in Hcur.
  destruct (payload _ _) as [[[sidv tpv] cwd]|]; [|done]. simpl in *.
  destruct tpv as [| | | |p| |]; try done. simpl in *.
  pose proof (f_equal (fun m => m !! p) Hlen) as Hp. simpl in Hp.
  rewrite !lookup_fmap in Hp.
  destruct (transcripts w1 !! p) as [content1|] eqn:H1; [|done].
  destruct (transcripts w !! p) as [content0|] eqn:H0; [|done].
  simpl in Hp. injection Hp as Hp.
  rewrite getLatestExchange_scan in Hcur. simpl in Hcur.
  set (doc := cursors script w !! cwd) in *.
  set (n := length (nonblank_lines content0)) in *.
  match type of Hcur with
  | _ = cursors script (run (classify_and_record _ _ _ _ ?r) ?w0) =>
      pose proof (classify_and_record_frame JSON_parse script inv cwd r w0)
        as (_ & Hd & Hc);
      assert (cursors script (run (classify_and_record JSON_parse script inv cwd r) w0)
              = cursors script w0) as Hfr
        by (by destruct script)
  end.
  rewrite Hfr in Hcur. clear Hfr Hd Hc.
  assert (cursors script w1 !! cwd = Some (setCursor doc (ToString sidv) n)) as Hdoc
    by (by rewrite Hcur, cursors_with_cursor).
  rewrite Hdoc, getCursor_setCursor, getLatestExchange_scan. simpl.
  rewrite drop_ge by (rewrite Hp; done).
  rewrite Hp, setCursor_idem, (with_cursor_same _ _ _ _ Hdoc).
  reflexivity.
Qed.

End Pipeline.

(** ** The properties on the sample project *)

Ltac evaluated :=
  first [ vm_compute; reflexivity
        | let H := fresh in intro H; vm_compute in H; discriminate H ].

Lemma sample_payload_is (env : ApiEnv) :
  payload_is sample_parse (sample_invocation env)
    (lit "s1") (lit "/tmp/t.jsonl") (lit "/proj").
Proof.
  split; [evaluated|]. exists sample_payload.
  repeat split; evaluated.
Defined.

Lemma sentinel_short_circuit_witness :
  daily_logs (main sample_parse ContextKeeper nothing_to_record (sample_world 1)) = ∅
  /\ handoffs (main sample_parse ContextKeeper nothing_to_record (sample_world 1)) = ∅
  /\ getCursor
       (cursors ContextKeeper
          (main sample_parse ContextKeeper nothing_to_record (sample_world 1))
          !! lit "/proj") (lit "s1") = 3.
Proof.
  apply (sentinel_short_circuit sample_parse ContextKeeper nothing_to_record
           (sample_world 1) (lit "s1") (lit "/tmp/t.jsonl") (lit "/proj")
           sample_exchange (VStr (lit " NONE" ++ [NL]))).
  - apply sample_payload_is.
  - evaluated.
  - evaluated.
  - right. exists (lit " NONE" ++ [NL]). split; [reflexivity|]. left. evaluated.
Defined.

Lemma idempotent_offset_advance_witness :
  main sample_parse DevLogger development_done
    (sample_world_later DevLogger development_done 1)
  = sample_world_later DevLogger development_done 1.
Proof.
  apply (idempotent_offset_advance sample_parse DevLogger development_done
           development_done (sample_world 1)
           (sample_world_later DevLogger development_done 1)).
  - reflexivity.
  - repeat split; evaluated.
Defined.

Lemma malformed_line_consumed_witness :
  getLatestExchange sample_parse DevLogger (Some sample_transcript) 1
  = Some {| text := lit "Implemented the endpoint." ++ [NL] ++ lit "[Edit: src/login.ts]";
            sawToolUse := true;
            totalLines := 3 |}
  /\ getCursor
       (cursors DevLogger (main sample_parse DevLogger development_done (sample_world 1))
          !! lit "/proj") (lit "s1") = 3.
Proof.
  assert (payload_is sample_parse development_done
            (lit "s1") (lit "/tmp/t.jsonl") (lit "/proj"))
    as Hp by apply sample_payload_is.
  assert (transcripts (sample_world 1) !! lit "/tmp/t.jsonl" = Some sample_transcript)
    as Hfile by evaluated.
  assert (getCursor (cursors DevLogger (sample_world 1) !! lit "/proj") (lit "s1") = 1)
    as Hcur by evaluated.
  assert (drop 1 (nonblank_lines sample_transcript)
          = [] ++ lit "{truncated" :: [json_text sample_assistant_entry])
    as Hnew by evaluated.
  assert (sample_parse (lit "{truncated") = None) as Hbad by evaluated.
  destruct (malformed_line_consumed sample_parse DevLogger development_done
              (sample_world 1)
              (lit "s1") (lit "/tmp/t.jsonl") (lit "/proj") sample_transcript
              (lit "{truncated") [] [json_text sample_assistant_entry] 1
              Hp Hfile Hcur Hnew Hbad) as (Hres & Hcursor & _ & _).
  split.
  - rewrite Hres. evaluated.
  - exact Hcursor.
Defined.

(** ** Strings: prefixes, first occurrence, counting occurrences *)

Lemma startsWith_spec (p s : jsstring) :
  startsWith p s = true <-> exists rest, s = p ++ rest.
Proof.
  revert s. induction p as [|a p IH]; intros s; simpl.
  - split; [by exists s|done].
  - destruct s as [|b s]; simpl.
    + split; [done|]. by intros (? & ?).
    + rewrite andb_true_iff, N.eqb_eq, IH. split.
      * intros (-> & rest & ->). by exists rest.
      * intros (rest & [= -> ->]). eauto.
Qed.

Lemma startsWith_app (p rest : jsstring) : startsWith p (p ++ rest) = true.
Proof. apply startsWith_spec. by exists rest. Qed.

Lemma startsWith_nil_r (p : jsstring) : p <> [] -> startsWith p [] = false.
Proof. by destruct p. Qed.

Lemma indexOf_from_spec (needle s : jsstring) (i0 i : nat) :
  indexOf_from i0 needle s = Some i ->
  i0 <= i /\ i - i0 <= length s /\ startsWith needle (drop (i - i0) s) = true.
Proof.
  revert i0. induction s as [|c s IH]; intros i0; simpl.
  - destruct (startsWith needle []) eqn:Hp; [|done].
    intros [= <-]. rewrite Nat.sub_diag. simpl. by split; [lia|].
  - destruct (startsWith needle (c :: s)) eqn:Hp.
    + intros [= <-]. rewrite Nat.sub_diag. simpl. split; [lia|]. split; [lia|done].
    + intros H. apply IH in H as (Hle & Hlen & Hst).
      replace (i - i0) with (S (i - S i0)) by lia. simpl.
      split; [lia|]. split; [lia|done].
Qed.

Lemma indexOf_spec (needle s : jsstring) (i : nat) :
  indexOf needle s = Some i ->
  i <= length s /\ exists rest, drop i s = needle ++ rest.
Proof.
  intros H. apply indexOf_from_spec in H as (_ & Hlen & Hst).
  rewrite Nat.sub_0_r in *. split; [done|]. by apply startsWith_spec.
Qed.

Lemma indexOf_from_None (needle s : jsstring) (i0 : nat) :
  indexOf_from i0 needle s = None <-> occurrences needle s = 0 /\ needle <> [].
Proof.
  revert i0. induction s as [|c s IH]; intros i0; simpl.
  - destruct needle; simpl; [|done]. split; [done|]. by intros (_ & ?).
  - destruct (startsWith needle (c :: s)) eqn:Hp.
    + split; [done|]. intros (? & _). lia.
    + rewrite IH. simpl. done.
Qed.

(** A character that the needle does not contain cuts every occurrence. *)
Lemma startsWith_cut (m Z Y : jsstring) (c : N) :
  c ∉ m -> m <> [] -> startsWith m (Z ++ c :: Y) = startsWith m Z.
Proof.
  revert Z. induction m as [|a m IH]; intros Z Hc Hm; [done|].
  apply not_elem_of_cons in Hc as (Hca & Hc).
  destruct Z as [|z Z]; simpl.
  - rewrite (proj2 (N.eqb_neq a c)); [done|congruence].
  - destruct m as [|a' m']; [done|]. by rewrite IH.
Qed.

Lemma occurrences_sep (m X Y : jsstring) (c : N) :
  c ∉ m -> m <> [] ->
  occurrences m (X ++ c :: Y) = occurrences m X + occurrences m Y.
Proof.
  intros Hc Hm. induction X as [|x X IH].
  - simpl. change (c :: Y) with ([] ++ c :: Y).
    rewrite startsWith_cut, startsWith_nil_r by done. done.
  - change ((x :: X) ++ c :: Y) with (x :: (X ++ c :: Y)).
    cbn [occurrences]. rewrite IH.
    change (x :: X ++ c :: Y) with ((x :: X) ++ c :: Y).
    rewrite startsWith_cut by done. lia.
Qed.

(** The first character of the needle, when the needle has it only once,
    cuts every occurrence that starts before it. *)
Lemma occurrences_head (h : N) (mt X Y : jsstring) :
  h ∉ mt ->
  occurrences (h :: mt) (X ++ h :: Y)
  = occurrences (h :: mt) X + occurrences (h :: mt) (h :: Y).
Proof.
  intros Hh. set (after := occurrences (h :: mt) (h :: Y)).
  induction X as [|x X IH]; [done|].
  change ((x :: X) ++ h :: Y) with (x :: (X ++ h :: Y)).
  cbn [occurrences]. rewrite IH.
  assert (startsWith (h :: mt) (x :: X ++ h :: Y) = startsWith (h :: mt) (x :: X)) as ->.
  { simpl. destruct mt as [|a mt']; [done|]. by rewrite startsWith_cut. }
  lia.
Qed.

(** No occurrence starts in a stretch without the needle's first character. *)
Lemma occurrences_skip (h : N) (mt P Y : jsstring) :
  h ∉ P -> occurrences (h :: mt) (P ++ Y) = occurrences (h :: mt) Y.
Proof.
  induction P as [|p P IH]; intros Hh; [done|].
  apply not_elem_of_cons in Hh as (Hhp & Hh).
  change ((p :: P) ++ Y) with (p :: (P ++ Y)). cbn [occurrences].
  rewrite IH by done. simpl.
  by rewrite (proj2 (N.eqb_neq h p)).
Qed.

Lemma occurrences_absent (h : N) (mt s : jsstring) :
  h ∉ s -> occurrences (h :: mt) s = 0.
Proof.
  intros Hh. rewrite <- (app_nil_r s). by rewrite occurrences_skip.
Qed.

Lemma occurrences_drop_le (m s : jsstring) (n : nat) :
  occurrences m (drop n s) <= occurrences m s.
Proof.
  revert n. induction s as [|c s IH]; intros [|n]; simpl; try lia.
  specialize (IH n). lia.
Qed.

Lemma occurrences_join (m : jsstring) (c : N) (pieces : list jsstring) :
  c ∉ m -> m <> [] ->
  Forall (fun p => occurrences m p = 0) pieces ->
  occurrences m (join [c] pieces) = 0.
Proof.
  intros Hc Hm. induction 1 as [|p pieces Hp _ IH]; [done|].
  destruct pieces as [|q pieces]; [done|].
  change (join [c] (p :: q :: pieces)) with (p ++ c :: join [c] (q :: pieces)).
  rewrite occurrences_sep by done. lia.
Qed.

(** ** Section replace in the handoff document *)

(** What the context keeper leaves in the handoff document. *)
Lemma write_handoff_lookup (cwd dateTimeStr response : jsstring) (w : World) :
  handoffs (run (write_handoff cwd dateTimeStr response) w) !! cwd
  = if bool_decide (response_lines response = [])
    then handoffs w !! cwd
    else Some (merge_section (render_section dateTimeStr (response_lines response))
                 (default [] (handoffs w !! cwd))).
Proof.
  unfold write_handoff. eff.
  destruct (response_lines response) as [|l ls]; simpl; [done|].
  by rewrite lookup_insert_eq.
Qed.




(** ** Append to the daily log *)






(** ** At most one auto-captured section *)

Ltac decided := apply (bool_decide_unpack _); vm_compute; exact I.

Lemma AUTO_START_head : AUTO_START = LT :: lit "!-- AUTO-CAPTURED".
Proof. reflexivity. Qed.

Lemma AUTO_START_tail_no_LT : LT ∉ lit "!-- AUTO-CAPTURED".
Proof. decided. Qed.

Lemma NL_not_in_AUTO_START : NL ∉ AUTO_START.
Proof. decided. Qed.

Lemma GT_not_in_AUTO_START : GT ∉ AUTO_START.
Proof. decided. Qed.

Lemma AUTO_START_not_nil : AUTO_START <> [].
Proof. done. Qed.

Lemma occurrences_bullet (line : jsstring) :
  occurrences AUTO_START (bullet line) = occurrences AUTO_START line.
Proof.
  unfold bullet. destruct (startsWith (lit "- ") line); [done|].
  rewrite AUTO_START_head. apply occurrences_skip. decided.
Qed.

(** The rendered section begins with [<], ends with [>], and holds the
    start marker once when neither the timestamp nor a bullet brings one. *)
Lemma render_section_shape (dateTimeStr : jsstring) (bullets : list jsstring) :
  exists body,
    render_section dateTimeStr bullets = LT :: body
    /\ exists body', render_section dateTimeStr bullets = body' ++ [GT].
Proof.
  unfold render_section. eexists. split; [reflexivity|].
  exists (AUTO_START ++ lit ": " ++ dateTimeStr ++ lit " -->" ++ [NL]
          ++ join [NL] (map bullet bullets) ++ [NL] ++ lit "<!-- END AUTO-CAPTURED --").
  change AUTO_END with (lit "<!-- END AUTO-CAPTURED --" ++ [GT]).
  by rewrite <- !app_assoc.
Qed.

Lemma occurrences_render_section (dateTimeStr : jsstring) (bullets : list jsstring) :
  LT ∉ dateTimeStr ->
  Forall (fun line => occurrences AUTO_START line = 0) bullets ->
  occurrences AUTO_START (render_section dateTimeStr bullets) = 1.
Proof.
  intros Hdt Hb. unfold render_section.
  change ((AUTO_START ++ lit ": " ++ dateTimeStr ++ lit " -->") ++ [NL]
          ++ join [NL] (map bullet bullets) ++ [NL] ++ AUTO_END)
    with ((AUTO_START ++ lit ": " ++ dateTimeStr ++ lit " -->")
          ++ NL :: (join [NL] (map bullet bullets) ++ NL :: AUTO_END)).
  rewrite !occurrences_sep
    by first [apply NL_not_in_AUTO_START | apply AUTO_START_not_nil].
  rewrite (occurrences_join AUTO_START NL);
    [|apply NL_not_in_AUTO_START|apply AUTO_START_not_nil|].
  2:{ apply Forall_map. eapply Forall_impl; [exact Hb|].
      intros line Hl. simpl. by rewrite occurrences_bullet. }
  assert (occurrences AUTO_START AUTO_END = 0) as -> by (vm_compute; reflexivity).
  rewrite !Nat.add_0_r.
  rewrite AUTO_START_head at 2.
  change ((LT :: lit "!-- AUTO-CAPTURED") ++ lit ": " ++ dateTimeStr ++ lit " -->")
    with (LT :: (lit "!-- AUTO-CAPTURED" ++ lit ": " ++ dateTimeStr ++ lit " -->")).
  cbn [occurrences].
  change (LT :: lit "!-- AUTO-CAPTURED" ++ lit ": " ++ dateTimeStr ++ lit " -->")
    with (AUTO_START ++ lit ": " ++ dateTimeStr ++ lit " -->").
  rewrite startsWith_app.
  rewrite AUTO_START_head, occurrences_absent; [done|].
  rewrite !not_elem_of_app. repeat split; [decided|decided|done|decided].
Qed.

Lemma occurrences_around_first (content r : jsstring) (s : nat) :
  occurrences AUTO_START content = 1 ->
  drop s content = AUTO_START ++ r ->
  occurrences AUTO_START (take s content) = 0
  /\ forall n, s < n -> occurrences AUTO_START (drop n content) = 0.
Proof.
  intros Hone Hdrop.
  pose proof (take_drop s content) as Hsplit. rewrite Hdrop in Hsplit.
  rewrite <- Hsplit in Hone.
  rewrite AUTO_START_head in Hone at 2.
  change ((LT :: lit "!-- AUTO-CAPTURED") ++ r) with (LT :: (lit "!-- AUTO-CAPTURED" ++ r)) in Hone.
  rewrite AUTO_START_head in Hone at 1.
  rewrite occurrences_head in Hone by apply AUTO_START_tail_no_LT.
  rewrite <- AUTO_START_head in Hone.
  cbn [occurrences] in Hone.
  change (LT :: lit "!-- AUTO-CAPTURED" ++ r) with (AUTO_START ++ r) in Hone.
  rewrite startsWith_app in Hone.
  split; [lia|]. intros n Hn.
  assert (drop n content = drop (n - S s) (lit "!-- AUTO-CAPTURED" ++ r)) as ->.
  { replace n with (s + S (n - S s)) at 1 by lia.
    rewrite <- drop_drop, Hdrop. reflexivity. }
  pose proof (occurrences_drop_le AUTO_START (lit "!-- AUTO-CAPTURED" ++ r) (n - S s)).
  lia.
Qed.

Lemma merge_section_one_marker (dateTimeStr : jsstring) (bullets : list jsstring)
    (content : jsstring) :
  LT ∉ dateTimeStr ->
  Forall (fun line => occurrences AUTO_START line = 0) bullets ->
  occurrences AUTO_START content = 0
  \/ (occurrences AUTO_START content = 1
      /\ exists s e, indexOf AUTO_START content = Some s
                     /\ indexOf AUTO_END content = Some e /\ s <= e) ->
  let autoSection := render_section dateTimeStr bullets in
  let merged := merge_section autoSection content in
  occurrences AUTO_START merged = 1
  /\ ((occurrences AUTO_START content = 0
       /\ exists gap, merged = autoSection ++ gap ++ content)
      \/ (exists s e, indexOf AUTO_START content = Some s
                      /\ indexOf AUTO_END content = Some e
                      /\ merged = take s content ++ autoSection
                                  ++ drop (e + length AUTO_END) content)).
Proof.
  intros Hdt Hb Hcontent autoSection merged.
  pose proof (occurrences_render_section dateTimeStr bullets Hdt Hb) as Hsec.
  destruct (render_section_shape dateTimeStr bullets) as (body & Hhead & body' & Hlast).
  fold autoSection in Hsec, Hhead, Hlast.
  assert (forall after, occurrences AUTO_START (autoSection ++ after)
                        = 1 + occurrences AUTO_START after) as Hafter.
  { intros after. pose proof Hsec as Hbody. rewrite Hlast in Hbody |- *.
    rewrite <- app_assoc. simpl.
    rewrite occurrences_sep in Hbody |- *
      by first [apply GT_not_in_AUTO_START | apply AUTO_START_not_nil].
    simpl in Hbody. lia. }
  destruct Hcontent as [Hzero|(Hone & s & e & Hs & He & Hse)].
  - assert (indexOf AUTO_START content = None) as Hnone
      by (apply indexOf_from_None; split; [done|apply AUTO_START_not_nil]).
    assert (merged = autoSection ++ (if bool_decide (0 < length content)
                                     then [NL; NL] else [NL]) ++ content) as Hm.
    { unfold merged, merge_section. rewrite Hnone.
      case_bool_decide as Hlen; [done|].
      destruct content; [done|simpl in Hlen; lia]. }
    split; [|left; split; [done|]; by eexists].
    rewrite Hm, Hafter, AUTO_START_head, occurrences_skip.
    + rewrite <- AUTO_START_head. lia.
    + case_bool_decide; decided.
  - destruct (indexOf_spec _ _ _ Hs) as (Hsl & r & Hr).
    destruct (occurrences_around_first content r s Hone Hr) as (Hbefore & Hrest).
    assert (merged = take s content ++ autoSection
                     ++ drop (e + length AUTO_END) content) as Hm
      by (unfold merged, merge_section; by rewrite Hs, He).
    split; [|right; by exists s, e].
    rewrite Hm. rewrite Hhead at 1. rewrite <- app_comm_cons.
    rewrite AUTO_START_head, occurrences_head by apply AUTO_START_tail_no_LT.
    rewrite <- AUTO_START_head.
    change (LT :: body ++ drop (e + length AUTO_END) content)
      with ((LT :: body) ++ drop (e + length AUTO_END) content).
    rewrite <- Hhead, Hafter, Hbefore, Hrest; [done|].
    change (length AUTO_END) with 26. lia.
Qed.

(** C3, as the code has it. When the timestamp has no [<] and no
    classified line holds the start marker, and the handoff document holds
    either no start marker, or exactly one with the first end marker at or
    after it, the document after the merge holds exactly one start marker:
    the new section followed by the whole prior content in the first case,
    the prior content with the range from the start marker through the end
    marker replaced in the second. *)
Theorem one_section_after_merge (cwd dateTimeStr response : jsstring) (w : World) :
  let content := default [] (handoffs w !! cwd) in
  let bullets := response_lines response in
  let autoSection := render_section dateTimeStr bullets in
  bullets <> [] ->
  LT ∉ dateTimeStr ->
  Forall (fun line => occurrences AUTO_START line = 0) bullets ->
  occurrences AUTO_START content = 0
  \/ (occurrences AUTO_START content = 1
      /\ exists s e, indexOf AUTO_START content = Some s
                     /\ indexOf AUTO_END content = Some e /\ s <= e) ->
  exists merged,
    handoffs (run (write_handoff cwd dateTimeStr response) w) !! cwd = Some merged
    /\ occurrences AUTO_START merged = 1
    /\ ((occurrences AUTO_START content = 0
         /\ exists gap, merged = autoSection ++ gap ++ content)
        \/ (exists s e, indexOf AUTO_START content = Some s
                        /\ indexOf AUTO_END content = Some e
                        /\ merged = take s content ++ autoSection
                                    ++ drop (e + length AUTO_END) content)).
Proof.
  intros content bullets autoSection Hlines Hdt Hb Hcontent.
  exists (merge_section autoSection content). split.
  - by rewrite write_handoff_lookup, bool_decide_eq_false_2.
  - by apply merge_section_one_marker.
Qed.

Lemma one_section_after_merge_witness :
  exists merged,
    handoffs (run (write_handoff (lit "/proj") (lit "2026-01-15 09:30") sample_answer)
                (with_handoff (lit "/proj") sample_handoff (sample_world 0)))
      !! lit "/proj" = Some merged
    /\ occurrences AUTO_START merged = 1.
Proof.
  destruct (one_section_after_merge (lit "/proj") (lit "2026-01-15 09:30") sample_answer
              (with_handoff (lit "/proj") sample_handoff (sample_world 0)))
    as (merged & Hdoc & Hone & _).
  - evaluated.
  - decided.
  - repeat constructor; evaluated.
  - right. split; [evaluated|]. exists 10, 79.
    split; [evaluated|split; [evaluated|lia]].
  - by exists merged.
Defined.

(** C3 as worded fails: a document whose section lost its end marker gets a
    second section prepended, and then holds two start markers. *)
Lemma one_section_counterexample :
  exists merged,
    handoffs (run (write_handoff (lit "/proj") (lit "2026-01-15 09:30") sample_answer)
                (with_handoff (lit "/proj") handoff_without_end (sample_world 0)))
      !! lit "/proj" = Some merged
    /\ ~ occurrences AUTO_START merged <= 1.
Proof.
  eexists. split; [evaluated|]. vm_compute. lia.
Qed.

(** ** Classifier failures *)

Section ClassifierFailures.

Variable JSON_parse : jsstring -> option Value.

Lemma callSmallModel_failure (script : Script) (env : ApiEnv) (prompt : jsstring)
    (mode : FailureMode) :
  fails_with JSON_parse script env prompt mode ->
  callSmallModel JSON_parse script env prompt = failure_outcome mode.
Proof.
  unfold fails_with, callSmallModel.
  destruct mode; simpl.
  - by intros ->.
  - by intros (-> & ->).
  - by intros (-> & body & ->).
  - by intros (-> & ->).
Qed.

Lemma classify_failure (script : Script) (inv : Invocation) (cwd : jsstring)
    (result : Exchange) (mode : FailureMode) (w : World) :
  fails_with JSON_parse script (api inv) (buildPrompt script (text result)) mode ->
  run (classify_and_record JSON_parse script inv cwd result) w = w.
Proof.
  intros Hfail. unfold classify_and_record.
  destruct (negb (sawToolUse result) && _); [done|].
  eff. rewrite (callSmallModel_failure _ _ _ _ Hfail). by destruct mode.
Qed.

Lemma resolveApiKey_first_present (script : Script) (env : ApiEnv) :
  resolveApiKey JSON_parse script env
  = first_present (credential_candidates JSON_parse script env).
Proof.
  unfold resolveApiKey, credential_candidates.
  destruct script, (ANTHROPIC_API_KEY env) as [key|]; simpl;
    repeat (case_match; simpl; try done); congruence.
Qed.

(** C9, as the code has it. Missing credentials and a non-success response
    make the classifier call return [null]; a network error and an
    unparseable response make it throw. In every one of the four modes
    the run writes no daily log and no handoff document, and [main]
    returns normally. Credentials are the first present among: the
    environment variable, the configuration files in order, the key
    files in order. *)
Theorem classifier_failure_is_silent (script : Script) (inv : Invocation)
    (mode : FailureMode) (w : World) :
  (forall prompt, fails_with JSON_parse script (api inv) prompt mode) ->
  (forall prompt,
     callSmallModel JSON_parse script (api inv) prompt = failure_outcome mode)
  /\ daily_logs (main JSON_parse script inv w) = daily_logs w
  /\ handoffs (main JSON_parse script inv w) = handoffs w
  /\ resolveApiKey JSON_parse script (api inv)
     = first_present (credential_candidates JSON_parse script (api inv)).
Proof.
  intros Hfail. split; [|split; [|split]].
  - intros prompt. apply callSmallModel_failure, Hfail.
  - rewrite main_unfold. destruct (payload _ _) as [[[sidv tpv] cwd]|]; [|done].
    simpl. destruct (getLatestExchange _ _ _ _) as [result|]; [|done].
    rewrite (classify_failure script inv cwd result mode _ (Hfail _)).
    by destruct script.
  - rewrite main_unfold. destruct (payload _ _) as [[[sidv tpv] cwd]|]; [|done].
    simpl. destruct (getLatestExchange _ _ _ _) as [result|]; [|done].
    rewrite (classify_failure script inv cwd result mode _ (Hfail _)).
    by destruct script.
  - apply resolveApiKey_first_present.
Qed.

End ClassifierFailures.

Lemma classifier_failure_is_silent_witness :
  callSmallModel sample_parse DevLogger offline (buildDevPrompt (text sample_exchange))
  = Thrown
  /\ daily_logs (main sample_parse DevLogger (sample_invocation offline) (sample_world 0)) = ∅
  /\ resolveApiKey sample_parse DevLogger offline = VStr (lit "key").
Proof.
  assert (forall prompt, fails_with sample_parse DevLogger
                           (api (sample_invocation offline)) prompt NetworkFailure)
    as Hfail by (intros prompt; split; reflexivity).
  destruct (classifier_failure_is_silent sample_parse DevLogger
              (sample_invocation offline) NetworkFailure (sample_world 0) Hfail)
    as (Hcall & Hlogs & _ & Hkey).
  split; [apply Hcall|]. split; [exact Hlogs|].
  exact (eq_trans Hkey eq_refl).
Defined.

(** C9 as worded fails: with a key at hand and the network down, the
    classifier call does not resolve to [null], it throws. *)
Lemma classifier_failure_counterexample :
  fails_with sample_parse DevLogger offline [] NetworkFailure
  /\ callSmallModel sample_parse DevLogger offline [] <> Normal VNull.
Proof. split; [by split|]. vm_compute. discriminate. Qed.

(** ** Sync engine *)

Section SyncFacts.

Variable utf8_decode : bytes -> jsstring.
Variable git : GitEnv.

(** One [copyIfDifferent], when the local memory directory exists. *)
Lemma copyIfDifferent_run (src dst : Side) (f : jsstring) (st : SyncState) :
  is_Some (memory st) ->
  copyIfDifferent utf8_decode src dst f st
  = match files_of src st ≫= (fun d => d !! f) with
    | None => (st, Normal false)
    | Some c =>
        match files_of dst st ≫= (fun d => d !! f) with
        | None => (log_event (Copied src dst f) (write_file dst f c st), Normal true)
        | Some d =>
            if bool_decide (utf8_decode c <> utf8_decode d)
            then (log_event (Copied src dst f)
                    (write_file dst f c (log_event (Compared f) st)), Normal true)
            else (log_event (Compared f) st, Normal false)
        end
    end.
Proof.
  intros [loc Hloc]. unfold copyIfDifferent, copyFileSync, emit. eff.
  destruct (files_of src st ≫= _) as [c|]; [|done].
  destruct (files_of dst st ≫= _) as [d|]; simpl.
  - case_bool_decide; [|done].
    destruct dst; simpl; rewrite ?Hloc; simpl; rewrite ?Hloc; done.
  - destruct dst; simpl; rewrite ?Hloc; simpl; rewrite ?Hloc; done.
Qed.

Lemma copies_done_refl (src dst : Side) (files : list jsstring) (st : SyncState) :
  is_Some (memory st) -> copies_done src dst files st st.
Proof.
  intros Hm. repeat split; [done|]. exists []. rewrite app_nil_r.
  repeat split; [done|done| |by left].
  intros s d. apply not_elem_of_nil.
Qed.

Lemma copies_done_trans (src dst : Side) (f : jsstring) (files : list jsstring)
    (st st1 st2 : SyncState) :
  copies_done src dst [f] st st1 ->
  copies_done src dst files st1 st2 ->
  copies_done src dst (f :: files) st st2.
Proof.
  intros (_ & Hi1 & Hh1 & evs1 & Ht1 & He1 & Hs1 & Hw1)
         (Hm2 & Hi2 & Hh2 & evs2 & Ht2 & He2 & Hs2 & Hw2).
  split; [done|]. split; [congruence|]. split; [congruence|].
  exists (evs1 ++ evs2). split; [by rewrite Ht2, Ht1, app_assoc|].
  split; [|split].
  - apply Forall_app. split.
    + eapply Forall_impl; [exact He1|]. intros e (g & Hg & He).
      exists g. split; [|done]. apply list_elem_of_singleton in Hg as ->. left.
    + eapply Forall_impl; [exact He2|]. intros e (g & Hg & He).
      exists g. split; [by right|done].
  - intros g Hg. destruct (Hs1 g Hg) as (Hg1 & Hn1).
    destruct (Hs2 g Hg1) as (Hg2 & Hn2). split; [done|].
    intros s d. rewrite elem_of_app. intros [H|H]; [by eapply Hn1|by eapply Hn2].
  - destruct Hw2 as [Hw2|(g & Hg & Hd & He)].
    + destruct Hw1 as [Hw1|(g & Hg & Hd & He)].
      * left. congruence.
      * right. exists g. apply list_elem_of_singleton in Hg as ->.
        split; [left|]. split; [done|]. apply elem_of_app. by left.
    + right. exists g. split; [by right|]. split; [done|].
      apply elem_of_app. by right.
Qed.

Lemma same_copy_write (src dst : Side) (f g : jsstring) (c : bytes) (st : SyncState) :
  src <> dst ->
  files_of src st ≫= (fun d => d !! f) = Some c ->
  files_of dst st ≫= (fun d => d !! f) <> Some c ->
  same_copy g st ->
  g <> f /\ same_copy g (write_file dst f c st).
Proof.
  intros Hne Hsrc Hdst Hg. unfold same_copy in *.
  assert (g <> f) as Hgf.
  { intros ->. destruct src, dst; simpl in *; congruence. }
  split; [done|].
  destruct dst; simpl.
  - destruct (memory st) as [loc|]; simpl in *; [|done].
    by rewrite lookup_insert_ne.
  - by rewrite lookup_insert_ne.
Qed.

Lemma copyIfDifferent_done (src dst : Side) (f : jsstring) (st : SyncState) :
  src <> dst ->
  is_Some (memory st) ->
  exists b st',
    copyIfDifferent utf8_decode src dst f st = (st', Normal b)
    /\ copies_done src dst [f] st st'.
Proof.
  intros Hne Hm. rewrite copyIfDifferent_run by done.
  assert (f ∈ [f]) as Hf by left.
  assert (forall st0, is_Some (memory st0) -> forall c, is_Some (memory (write_file dst f c st0)))
    as Hsome.
  { intros st0 [loc Hloc] c. destruct dst; simpl; rewrite ?Hloc; by eexists. }
  assert (forall c st0,
            worktree (repo (write_file dst f c st0)) = worktree (repo st0)
            \/ dst = Repository) as Hwt
    by (intros c st0; destruct dst; [by left|by right]).
  assert (forall c st0, index (repo (write_file dst f c st0)) = index (repo st0)
                        /\ head (repo (write_file dst f c st0)) = head (repo st0))
    as Hrepo by (intros c st0; by destruct dst).
  assert (forall c st0, trace (write_file dst f c st0) = trace st0) as Htr
    by (intros c st0; by destruct dst).
  destruct (files_of src st ≫= _) as [c|] eqn:Hsrc.
  2:{ eexists _, _. split; [done|]. by apply copies_done_refl. }
  destruct (files_of dst st ≫= _) as [d|] eqn:Hdst.
  - case_bool_decide as Hdiff.
    + eexists _, _. split; [done|].
      split; [apply (Hsome (log_event (Compared f) st)); done|].
      destruct (Hrepo c (log_event (Compared f) st)) as (Hi & Hh).
      split; [done|]. split; [done|].
      exists [Compared f; Copied src dst f].
      split; [simpl; rewrite Htr; simpl; by rewrite <- app_assoc|].
      split; [repeat constructor; exists f; split; auto|].
      split.
      * intros g Hg.
        destruct (same_copy_write src dst f g c st Hne Hsrc) as (Hgf & Hg'); [congruence|done|].
        split; [by destruct dst|].
        intros s0 d0 Hin. apply elem_of_cons in Hin as [Hin|Hin]; [done|].
        apply list_elem_of_singleton in Hin. congruence.
      * destruct (Hwt c (log_event (Compared f) st)) as [Hw|Hd]; [by left|right].
        exists f. split; [done|]. split; [done|]. right. left.
    + eexists _, _. split; [done|].
      split; [done|]. split; [done|]. split; [done|].
      exists [Compared f]. split; [done|].
      split; [repeat constructor; exists f; split; auto|].
      split; [|by left].
      intros g Hg. split; [done|].
      intros s0 d0 Hin. by apply list_elem_of_singleton in Hin.
  - eexists _, _. split; [done|].
    split; [by apply Hsome|].
    destruct (Hrepo c st) as (Hi & Hh).
    split; [done|]. split; [done|].
    exists [Copied src dst f]. split; [simpl; by rewrite Htr|].
    split; [repeat constructor; exists f; split; auto|].
    split.
    * intros g Hg.
      destruct (same_copy_write src dst f g c st Hne Hsrc) as (Hgf & Hg'); [congruence|done|].
      split; [by destruct dst|].
      intros s0 d0 Hin. apply list_elem_of_singleton in Hin. congruence.
    * destruct (Hwt c st) as [Hw|Hd]; [by left|right].
      exists f. split; [done|]. split; [done|]. left.
Qed.

Lemma copy_each_done (src dst : Side) (files : list jsstring) (copied : nat)
    (st : SyncState) :
  src <> dst ->
  is_Some (memory st) ->
  exists n st',
    copy_each files (copyIfDifferent utf8_decode src dst) copied st = (st', Normal n)
    /\ copies_done src dst files st st'.
Proof.
  intros Hne. revert copied st.
  induction files as [|f files IH]; intros copied st Hm.
  - eexists _, _. split; [done|]. by apply copies_done_refl.
  - destruct (copyIfDifferent_done src dst f st Hne Hm) as (b & st1 & Hrun & Hdone).
    destruct (IH (if b then S copied else copied) st1) as (n & st2 & Hrun2 & Hdone2);
      [apply Hdone|].
    exists n, st2. split; [|by eapply copies_done_trans].
    simpl. unfold bind. by rewrite Hrun.
Qed.

(** [gitPush]: the pull, then staging, the diff, and a commit only over
    a non-empty staged diff. *)
Lemma gitPush_run (st : SyncState) :
  let pulled := default (repo st) (pull_rebase git (repo st)) in
  exists rest,
    trace (run (gitPush git) st) = trace st ++ Pulled :: rest
    /\ Forall git_step rest
    /\ forall m, Committed m ∈ rest ->
         DiffChecked false ∈ rest /\ worktree pulled <> head pulled.
Proof.
  unfold gitPush, completes, gitPull, git_add, git_diff_cached_quiet,
    git_commit, git_push, emit, set_repo, log_event. eff.
  destruct (pull_rebase git (repo st)) as [r|]; simpl;
    destruct (add_fails git), (diff_fails git), (commit_fails git),
      (push_fails git); simpl;
    repeat case_bool_decide; simpl;
    rewrite <- ?app_assoc; simpl;
    (eexists; split; [reflexivity|]; split; [repeat constructor|]);
    intros m Hin;
    repeat (apply elem_of_cons in Hin as [Hin|Hin]; try discriminate Hin);
    try (by apply elem_of_nil in Hin);
    (split; [|done]; repeat (first [left|right; left]); fail).
Qed.


(** A push from an existing memory directory: the two copy loops, then
    [gitPush] from the state they leave. *)
Lemma syncPush_run (st : SyncState) (loc : directory) :
  memory st = Some loc ->
  exists st1 st2 others,
    copies_done Local Repository (getFilesToSync (Some loc)) st st1
    /\ copies_done Repository Local others st1 st2
    /\ run (syncPush utf8_decode git) st = run (gitPush git) st2.
Proof.
  intros Hloc. unfold syncPush. eff.
  rewrite Hloc. simpl.
  destruct (copy_each_done Local Repository (getFilesToSync (Some loc)) 0 st)
    as (n1 & st1 & Hrun1 & Hdone1); [done|by eexists|].
  simpl in Hrun1. rewrite Hrun1.
  match goal with
  | |- context [copy_each ?files (copyIfDifferent _ Repository Local) n1 st1] =>
      destruct (copy_each_done Repository Local files n1 st1)
        as (n2 & st2 & Hrun2 & Hdone2); [done|apply Hdone1|];
      exists st1, st2, files
  end.
  rewrite Hrun2. split; [done|]. split; [done|].
  unfold gitPush, completes.
  by destruct (bind (gitPull git) _ st2) as [st3 [?| |]].
Qed.

Lemma file_event_of_copy (src dst : Side) (files : list jsstring) (evs : list Event) :
  Forall (fun e => exists f, f ∈ files /\ (e = Compared f \/ e = Copied src dst f)) evs ->
  Forall file_event evs.
Proof.
  intros H. eapply Forall_impl; [exact H|]. by intros e (f & _ & [-> | ->]).
Qed.

(** C7, as the code has it. A push from an existing memory directory
    compares and copies first (local to repository, then repository-only
    documents to local), performs its one pull after that, as the first
    step of [gitPush], and only then stages, diffs, commits and pushes;
    without a memory directory it does nothing at all. *)
Theorem pull_after_copies (st : SyncState) :
  trace st = [] ->
  (memory st = None -> run (syncPush utf8_decode git) st = st)
  /\ (is_Some (memory st) ->
      pull_follows_copies (trace (run (syncPush utf8_decode git) st))).
Proof.
  intros Hfresh. split.
  - intros Hnone. unfold syncPush. eff. by rewrite Hnone.
  - intros [loc Hloc].
    destruct (syncPush_run st loc Hloc)
      as (st1 & st2 & others & Hdone1 & Hdone2 & ->).
    destruct Hdone1 as (_ & _ & _ & evs1 & Ht1 & He1 & _).
    destruct Hdone2 as (_ & _ & _ & evs2 & Ht2 & He2 & _).
    destruct (gitPush_run st2) as (rest & Htrace & Hrest & _).
    exists (evs1 ++ evs2), rest. split; [|split; [|done]].
    + by rewrite Htrace, Ht2, Ht1, Hfresh.
    + apply Forall_app. split; by eapply file_event_of_copy.
Qed.


End SyncFacts.

Lemma pull_after_copies_witness :
  pull_follows_copies
    (trace (run (syncPush (fun b => b) quiet_remote) edited_locally)).
Proof.
  apply (pull_after_copies (fun b => b) quiet_remote edited_locally).
  - reflexivity.
  - by eexists.
Defined.

(** C7 as worded fails: the first thing a push does with an edited
    [MEMORY.md] is to compare documents; the pull comes after the copy. *)
Lemma pull_first_counterexample :
  ~ pull_comes_first
      (trace (run (syncPush (fun b => b) quiet_remote) edited_locally)).
Proof.
  intros H.
  destruct (H 0 (Compared (lit "session-handoff.md"))) as (j & Hj & _);
    [evaluated|exact I|lia].
Qed.



(* ===================================================================== *)
(** * Part III: further properties of the scripts *)
(* ===================================================================== *)

(** ** Cursor store *)

(** X1. Writing the cursor of a session and reading it back gives the
    line written, whatever the document held before (absent, unparseable or
    an object), and the cursor of every other session reads as before. *)
Theorem cursor_write_then_read (doc : option CursorDoc) (s s' : jsstring)
    (line : nat) :
  s' <> s ->
  getCursor (Some (setCursor doc s line)) s = line
  /\ getCursor (Some (setCursor doc s line)) s' = getCursor doc s'.
Proof.
  intros Hne. split; [apply getCursor_setCursor|].
  by apply getCursor_setCursor_ne.
Qed.

Lemma cursor_write_then_read_witness :
  getCursor (Some (setCursor (Some CursorCorrupt) (lit "s1") 7)) (lit "s1") = 7
  /\ getCursor (Some (setCursor (Some CursorCorrupt) (lit "s1") 7)) (lit "s2") = 0.
Proof.
  apply (cursor_write_then_read (Some CursorCorrupt) (lit "s1") (lit "s2") 7).
  evaluated.
Defined.

(** ** The hook pipeline, beyond the classifier *)

Section PipelineEdges.

Variable JSON_parse : jsstring -> option Value.

(** X2. The pre-filter: an exchange without tool use and with fewer than
    100 code units of text ends the run at the cursor write. The classifier
    is not consulted: the world after the run does not depend on the
    credentials, the service or the clock. *)
Theorem prefilter_skips_classifier (script : Script) (inv : Invocation) (w : World)
    (sid tpath cwd : jsstring) (result : Exchange) :
  payload_is JSON_parse inv sid tpath cwd ->
  getLatestExchange JSON_parse script (transcripts w !! tpath)
    (getCursor (cursors script w !! cwd) sid) = Some result ->
  sawToolUse result = false ->
  length (text result) < 100 ->
  main JSON_parse script inv w
  = with_cursor script cwd
      (setCursor (cursors script w !! cwd) sid (totalLines result)) w.
Proof.
  intros Hp Hres Htool Hlen.
  rewrite (main_after_cursor _ _ _ _ _ _ _ _ Hp Hres).
  unfold classify_and_record. rewrite Htool. simpl.
  by rewrite bool_decide_eq_true_2.
Qed.

(** X3. A run that cannot start leaves the world as it was, the cursor
    included: nothing on standard input, a payload that does not parse, or
    a transcript path at which no file exists. *)
Theorem unusable_input_changes_nothing (script : Script) (inv : Invocation)
    (w : World) :
  trim (stdin inv) = []
  \/ JSON_parse (stdin inv) = None
  \/ (exists sid tpath cwd,
        payload_is JSON_parse inv sid tpath cwd /\ transcripts w !! tpath = None) ->
  main JSON_parse script inv w = w.
Proof.
  intros [Hblank|[Hbad|(sid & tpath & cwd & Hp & Hnone)]].
  - rewrite main_unfold. unfold payload. by rewrite bool_decide_eq_true_2.
  - rewrite main_unfold. unfold payload. rewrite Hbad.
    by case_bool_decide.
  - rewrite main_unfold, (payload_of_payload_is _ _ _ _ _ Hp). simpl.
    by rewrite Hnone.
Qed.

(** X4. A stored cursor at or beyond the number of non-blank lines of the
    transcript (the transcript was replaced by a shorter one) extracts
    nothing and is overwritten with the line count: the cursor moves back,
    and the classifier is not consulted. *)
Theorem cursor_beyond_end_is_pulled_back (script : Script) (inv : Invocation)
    (w : World) (sid tpath cwd content : jsstring) (k : nat) :
  payload_is JSON_parse inv sid tpath cwd ->
  transcripts w !! tpath = Some content ->
  getCursor (cursors script w !! cwd) sid = k ->
  length (nonblank_lines content) <= k ->
  getLatestExchange JSON_parse script (Some content) k
  = Some {| text := []; sawToolUse := false;
            totalLines := length (nonblank_lines content) |}
  /\ main JSON_parse script inv w
     = with_cursor script cwd
         (setCursor (cursors script w !! cwd) sid (length (nonblank_lines content))) w.
Proof.
  intros Hp Hfile Hcur Hlen.
  assert (getLatestExchange JSON_parse script (Some content) k
          = Some {| text := []; sawToolUse := false;
                    totalLines := length (nonblank_lines content) |}) as Hres.
  { rewrite getLatestExchange_scan. simpl. by rewrite drop_ge. }
  split; [done|].
  rewrite <- Hfile, <- Hcur in Hres at 1.
  rewrite (main_after_cursor _ _ _ _ _ _ _ _ Hp Hres).
  unfold classify_and_record. simpl.
  by rewrite ?bool_decide_eq_true_2 by lia.
Qed.




End PipelineEdges.

Lemma prefilter_skips_classifier_witness :
  main sample_parse DevLogger development_done chat_only_world
  = with_cursor DevLogger (lit "/proj") (CursorData {[ lit "s1" := 1 ]}) chat_only_world.
Proof.
  rewrite (prefilter_skips_classifier sample_parse DevLogger development_done
             chat_only_world (lit "s1") (lit "/tmp/t.jsonl") (lit "/proj")
             {| text := lit "USER: please add a login endpoint";
                sawToolUse := false; totalLines := 1 |}).
  - evaluated.
  - apply sample_payload_is.
  - evaluated.
  - reflexivity.
  - vm_compute. lia.
Defined.

Lemma unusable_input_changes_nothing_witness :
  main sample_parse ContextKeeper blank_invocation (sample_world 1) = sample_world 1.
Proof.
  apply (unusable_input_changes_nothing sample_parse ContextKeeper blank_invocation
           (sample_world 1)).
  left. evaluated.
Defined.

Lemma cursor_beyond_end_is_pulled_back_witness :
  getCursor
    (cursors DevLogger (main sample_parse DevLogger development_done (sample_world 7))
       !! lit "/proj") (lit "s1") = 3.
Proof.
  rewrite (proj2 (cursor_beyond_end_is_pulled_back sample_parse DevLogger
                    development_done (sample_world 7)
                    (lit "s1") (lit "/tmp/t.jsonl") (lit "/proj") sample_transcript 7
                    (sample_payload_is _) ltac:(evaluated) ltac:(evaluated)
                    ltac:(vm_compute; lia))).
  evaluated.
Defined.


(** ** The classifier's answer, line by line *)

Lemma trimStart_split (s : jsstring) :
  exists sp, s = sp ++ trimStart s /\ Forall (fun c => is_space c = true) sp.
Proof.
  induction s as [|c s (sp & Hs & Hsp)]; [by exists []|].
  simpl. destruct (is_space c) eqn:Hc.
  - exists (c :: sp). split; [by rewrite Hs at 1|by constructor].
  - by exists [].
Qed.

Lemma trimStart_head (s : jsstring) (c : N) (r : jsstring) :
  trimStart s = c :: r -> is_space c = false.
Proof.
  induction s as [|a s IH]; [done|]. simpl.
  destruct (is_space a) eqn:Ha; [done|]. by intros [= <- _].
Qed.

Lemma trimStart_fixed (c : N) (r : jsstring) :
  is_space c = false -> trimStart (c :: r) = c :: r.
Proof. intros H. simpl. by rewrite H. Qed.

Lemma trimStart_idem (s : jsstring) : trimStart (trimStart s) = trimStart s.
Proof.
  destruct (trimStart s) as [|c r] eqn:Hs; [done|].
  apply trimStart_fixed. by eapply trimStart_head.
Qed.

Lemma trimStart_app_nonspace (s : jsstring) (c : N) :
  is_space c = false ->
  exists r, trimStart (s ++ [c]) = r ++ [c].
Proof.
  intros Hc. induction s as [|a s (r & Hr)]; simpl.
  - rewrite Hc. by exists [].
  - destruct (is_space a); [by exists r|]. by exists (a :: s).
Qed.

(** [trimEnd] keeps a first character that is not white space. *)
Lemma trimEnd_cons (c : N) (p : jsstring) :
  is_space c = false ->
  exists q sp, trimEnd (c :: p) = c :: q /\ p = q ++ sp
               /\ Forall (fun x => is_space x = true) sp.
Proof.
  intros Hc. unfold trimEnd. simpl.
  destruct (trimStart_split (rev p ++ [c])) as (sp & Hsplit & Hsp).
  destruct (trimStart_app_nonspace (rev p) c Hc) as (r & Hr).
  rewrite Hr in Hsplit |- *.
  rewrite rev_app_distr. simpl.
  exists (rev r), (rev sp). split; [done|].
  rewrite app_assoc in Hsplit. apply app_inj_tail in Hsplit as (Hp & _).
  split.
  - apply (f_equal (@rev N)) in Hp. by rewrite rev_involutive, rev_app_distr in Hp.
  - rewrite Forall_forall in Hsp |- *. intros x Hx. apply Hsp.
    by apply list_elem_of_In, in_rev, list_elem_of_In.
Qed.

Lemma trim_head (s : jsstring) (c : N) (r : jsstring) :
  trim s = c :: r -> is_space c = false.
Proof.
  unfold trim. destruct (trimStart s) as [|a t] eqn:Hs; [done|].
  pose proof (trimStart_head _ _ _ Hs) as Ha.
  destruct (trimEnd_cons a t Ha) as (q & sp & -> & _ & _).
  by intros [= <- _].
Qed.

Lemma trim_idem (s : jsstring) : trim (trim s) = trim s.
Proof.
  destruct (trim s) as [|c r] eqn:Ht; [done|].
  pose proof (trim_head _ _ _ Ht) as Hc.
  unfold trim in *. rewrite (trimStart_fixed c r Hc).
  rewrite <- Ht. unfold trimEnd. rewrite rev_involutive, trimStart_idem.
  done.
Qed.

Lemma split_head_prefix (sep : N) (s piece : jsstring) (pieces : list jsstring) :
  split sep s = piece :: pieces -> exists rest, s = piece ++ rest.
Proof.
  revert piece pieces. induction s as [|c s IH]; intros piece pieces; simpl.
  - intros [= <- _]. by exists [].
  - destruct (N.eqb c sep).
    + intros [= <- _]. by eexists.
    + destruct (split sep s) as [|p ps] eqn:Hs; [intros [= <- _]; by exists s|].
      intros [= <- _]. destruct (IH p ps eq_refl) as (rest & ->). by exists rest.
Qed.

(** X6. The lines kept from a classifier answer: each is free of leading
    and trailing white space, none is empty and none is the word [NONE]. *)
Theorem response_lines_are_clean (response : jsstring) :
  Forall (fun line => line <> [] /\ line <> NONE /\ trim line = line)
    (response_lines response).
Proof.
  unfold response_lines. apply Forall_forall. intros line Hin.
  apply list_elem_of_filter in Hin as ((Hne & Hnone) & Hin).
  apply list_elem_of_fmap in Hin as (l & -> & _).
  repeat split; [done|done|apply trim_idem].
Qed.

(** X7. An answer made of white space only yields no line, so nothing is
    written; an answer with visible text that does not begin with [NONE]
    yields at least one line: past the sentinel check, the empty-lines
    return is taken for white-space answers only. *)
Theorem visible_answer_has_lines (response : jsstring) :
  (trim response = [] -> response_lines response = [])
  /\ (trim response <> [] -> startsWith NONE (trim response) = false ->
      response_lines response <> []).
Proof.
  unfold response_lines. split.
  - intros ->. reflexivity.
  - intros Hne Hnot.
    destruct (trim response) as [|c t] eqn:Ht; [done|].
    pose proof (trim_head _ _ _ Ht) as Hc.
    assert (N.eqb c NL = false) as Hnl.
    { destruct (N.eqb c NL) eqn:E; [|done].
      apply N.eqb_eq in E. subst c. by vm_compute in Hc. }
    destruct (split NL (c :: t)) as [|piece pieces] eqn:Hsplit.
    { destruct (split_cons_inv NL (c :: t)) as (? & ? & ?). congruence. }
    destruct (split_head_prefix _ _ _ _ Hsplit) as (rest & Hrest).
    assert (exists p, piece = c :: p) as (p & ->).
    { simpl in Hsplit. rewrite Hnl in Hsplit.
      destruct (split NL t); injection Hsplit as <- _; by eexists. }
    destruct (trimEnd_cons c p Hc) as (q & sp & Hq & Hp & _).
    assert (trim (c :: p) = c :: q) as Htrim
      by (unfold trim; by rewrite (trimStart_fixed c p Hc)).
    simpl. rewrite filter_cons_True; [done|].
    rewrite Htrim. split; [done|]. intros Hn.
    assert (startsWith NONE (c :: t) = true) as Habs; [|congruence].
    apply startsWith_spec. exists (sp ++ rest).
    rewrite Hrest, Hp, <- Hn. simpl. by rewrite <- app_assoc.
Qed.

Lemma visible_answer_has_lines_witness :
  response_lines (lit "  ") = []
  /\ response_lines (lit " Fixed the NONE handling ") <> [].
Proof.
  split.
  - apply (proj1 (visible_answer_has_lines (lit "  "))). evaluated.
  - apply (proj2 (visible_answer_has_lines (lit " Fixed the NONE handling ")));
      evaluated.
Defined.

(** ** Locating the markers *)

Lemma indexOf_from_first (needle s : jsstring) (i0 i : nat) :
  indexOf_from i0 needle s = Some i ->
  forall j, j < i - i0 -> startsWith needle (drop j s) = false.
Proof.
  revert i0. induction s as [|c s IH]; intros i0; simpl.
  - destruct (startsWith needle []); [|done]. intros [= <-] j Hj. lia.
  - destruct (startsWith needle (c :: s)) eqn:Hp.
    + intros [= <-] j Hj. lia.
    + intros H [|j] Hj; [done|]. simpl. apply (IH _ H).
      apply indexOf_from_spec in H. lia.
Qed.

Lemma indexOf_first (needle s : jsstring) (i : nat) :
  indexOf needle s = Some i ->
  forall j, j < i -> startsWith needle (drop j s) = false.
Proof.
  intros H j Hj. apply (indexOf_from_first needle s 0 i H). lia.
Qed.

Lemma indexOf_from_intro (needle s : jsstring) (i0 i : nat) :
  i <= length s ->
  startsWith needle (drop i s) = true ->
  (forall j, j < i -> startsWith needle (drop j s) = false) ->
  indexOf_from i0 needle s = Some (i0 + i).
Proof.
  revert i0 i. induction s as [|c s IH]; intros i0 i Hlen Hat Hbefore.
  - simpl in Hlen. assert (i = 0) as -> by lia. simpl in *.
    rewrite Hat. f_equal. lia.
  - destruct i as [|i].
    + simpl in Hat. simpl. rewrite Hat. f_equal. lia.
    + pose proof (Hbefore 0 ltac:(lia)) as H0. simpl in H0.
      simpl. rewrite H0.
      rewrite (IH (S i0) i); [f_equal; lia|simpl in Hlen; lia|done|].
      intros j Hj. apply (Hbefore (S j)). lia.
Qed.

Lemma startsWith_extend (m s t : jsstring) :
  startsWith m s = true -> startsWith m (s ++ t) = true.
Proof.
  rewrite !startsWith_spec. intros (r & ->). exists (r ++ t).
  by rewrite app_assoc.
Qed.

Lemma occurrences_zero (m s : jsstring) :
  occurrences m s = 0 ->
  forall j, j < length s -> startsWith m (drop j s) = false.
Proof.
  induction s as [|c s IH]; intros H j Hj; [simpl in Hj; lia|].
  cbn [occurrences] in H.
  destruct (startsWith m (c :: s)) eqn:Hp; [lia|].
  destruct j as [|j]; [done|]. simpl. apply IH; [lia|simpl in Hj; lia].
Qed.

Lemma occurrences_take_none (m s : jsstring) (n : nat) :
  (forall j, j < n -> startsWith m (drop j s) = false) ->
  occurrences m (take n s) = 0.
Proof.
  revert n. induction s as [|c s IH]; intros [|n] H; try done.
  cbn [take occurrences].
  rewrite (IH n) by (intros j Hj; apply (H (S j)); lia).
  destruct (startsWith m (c :: take n s)) eqn:Hp; [|done].
  apply (startsWith_extend _ _ (drop n s)) in Hp.
  rewrite <- app_comm_cons, take_drop in Hp.
  specialize (H 0 ltac:(lia)). simpl in H. congruence.
Qed.

(** The needle right after a stretch that holds no occurrence of it is the
    first occurrence, when its first character occurs in it only once. *)
Lemma indexOf_after (h : N) (mt X Y : jsstring) :
  h ∉ mt ->
  occurrences (h :: mt) X = 0 ->
  indexOf (h :: mt) (X ++ (h :: mt) ++ Y) = Some (length X).
Proof.
  intros Hh Hnone. unfold indexOf.
  rewrite (indexOf_from_intro _ _ 0 (length X)); [done| | |].
  - rewrite length_app. lia.
  - rewrite drop_app_length. apply startsWith_app.
  - intros j Hj.
    pose proof (occurrences_zero _ _ Hnone j Hj) as Hj'.
    rewrite drop_app_le by lia.
    destruct (drop j X) as [|x Z] eqn:HZ.
    { apply (f_equal length) in HZ. rewrite length_drop in HZ. simpl in HZ. lia. }
    change ((h :: mt) ++ Y) with (h :: (mt ++ Y)).
    rewrite <- Hj'. simpl.
    destruct mt as [|a mt']; [done|]. by rewrite startsWith_cut.
Qed.

Lemma AUTO_END_head : AUTO_END = LT :: lit "!-- END AUTO-CAPTURED -->".
Proof. reflexivity. Qed.

Lemma AUTO_END_tail_no_LT : LT ∉ lit "!-- END AUTO-CAPTURED -->".
Proof. decided. Qed.

Lemma NL_not_in_AUTO_END : NL ∉ AUTO_END.
Proof. decided. Qed.

Lemma occurrences_END_bullet (line : jsstring) :
  occurrences AUTO_END (bullet line) = occurrences AUTO_END line.
Proof.
  unfold bullet. destruct (startsWith (lit "- ") line); [done|].
  rewrite AUTO_END_head. apply occurrences_skip. decided.
Qed.

(** The rendered section is its opening lines followed by the end marker,
    and the end marker does not occur in the opening lines. *)
Lemma render_section_end (dateTimeStr : jsstring) (bullets : list jsstring) :
  LT ∉ dateTimeStr ->
  Forall (fun line => occurrences AUTO_END line = 0) bullets ->
  exists opening rest,
    render_section dateTimeStr bullets = opening ++ AUTO_END
    /\ opening = LT :: rest
    /\ render_section dateTimeStr bullets = AUTO_START ++ drop 18 (opening ++ AUTO_END)
    /\ occurrences AUTO_END opening = 0.
Proof.
  intros Hdt Hb. unfold render_section.
  exists ((AUTO_START ++ lit ": " ++ dateTimeStr ++ lit " -->") ++ [NL]
          ++ join [NL] (map bullet bullets) ++ [NL]).
  eexists. split; [by rewrite <- !app_assoc|]. split; [reflexivity|].
  split; [by rewrite <- !app_assoc|].
  change ((AUTO_START ++ lit ": " ++ dateTimeStr ++ lit " -->") ++ [NL]
          ++ join [NL] (map bullet bullets) ++ [NL])
    with ((AUTO_START ++ lit ": " ++ dateTimeStr ++ lit " -->")
          ++ NL :: (join [NL] (map bullet bullets) ++ NL :: [])).
  rewrite !occurrences_sep by first [apply NL_not_in_AUTO_END | done].
  rewrite (occurrences_join AUTO_END NL); [|apply NL_not_in_AUTO_END|done|].
  2:{ apply Forall_map. eapply Forall_impl; [exact Hb|].
      intros line Hl. simpl. by rewrite occurrences_END_bullet. }
  simpl. rewrite !Nat.add_0_r.
  rewrite AUTO_END_head, occurrences_absent; [done|].
  rewrite not_elem_of_app. split; [done|decided].
Qed.

Lemma merged_markers (before after dateTimeStr : jsstring) (bullets : list jsstring) :
  LT ∉ dateTimeStr ->
  Forall (fun line => occurrences AUTO_END line = 0) bullets ->
  occurrences AUTO_START before = 0 ->
  occurrences AUTO_END before = 0 ->
  let autoSection := render_section dateTimeStr bullets in
  length AUTO_END <= length autoSection
  /\ indexOf AUTO_START (before ++ autoSection ++ after) = Some (length before)
  /\ indexOf AUTO_END (before ++ autoSection ++ after)
     = Some (length before + length autoSection - length AUTO_END).
Proof.
  intros Hdt Hb HnoS HnoE autoSection.
  destruct (render_section_end dateTimeStr bullets Hdt Hb)
    as (opening & rest & Hsec & Hopen & Hstart & Hnone).
  fold autoSection in Hsec, Hstart.
  split; [rewrite Hsec, length_app; lia|]. split.
  - rewrite Hstart at 1. rewrite <- !app_assoc, AUTO_START_head.
    apply indexOf_after; [apply AUTO_START_tail_no_LT|].
    by rewrite <- AUTO_START_head.
  - rewrite Hsec, length_app.
    replace (length before + (length opening + length AUTO_END) - length AUTO_END)
      with (length (before ++ opening)) by (rewrite length_app; lia).
    rewrite <- (app_assoc opening), (app_assoc before), AUTO_END_head.
    apply indexOf_after; [apply AUTO_END_tail_no_LT|].
    rewrite Hopen, occurrences_head by apply AUTO_END_tail_no_LT.
    rewrite <- AUTO_END_head, <- Hopen. lia.
Qed.

(** The two shapes of a merge: around the markers found, or in front. *)
Lemma merge_section_shape (content : jsstring) :
  (forall s e, indexOf AUTO_START content = Some s ->
               indexOf AUTO_END content = Some e -> s <= e) ->
  exists before after,
    occurrences AUTO_START before = 0
    /\ occurrences AUTO_END before = 0
    /\ forall autoSection,
         merge_section autoSection content = before ++ autoSection ++ after.
Proof.
  intros Horder. unfold merge_section.
  destruct (indexOf AUTO_START content) as [s|] eqn:Hs.
  - destruct (indexOf AUTO_END content) as [e|] eqn:He.
    + exists (take s content), (drop (e + length AUTO_END) content).
      specialize (Horder s e eq_refl eq_refl).
      split; [|split; [|done]].
      * apply occurrences_take_none. by apply indexOf_first.
      * apply occurrences_take_none. intros j Hj.
        apply (indexOf_first _ _ _ He). lia.
    + exists [], (if bool_decide (0 < length content)
                  then [NL; NL] ++ content else [NL]).
      split; [done|]. split; [done|]. intros autoSection.
      simpl. by case_bool_decide.
  - exists [], (if bool_decide (0 < length content)
                then [NL; NL] ++ content else [NL]).
    split; [done|]. split; [done|]. intros autoSection.
    simpl. by case_bool_decide.
Qed.

(** What session start reads in a document the merge produced. *)
Lemma injected_after_merge (dateTimeStr content : jsstring) (bullets : list jsstring) :
  LT ∉ dateTimeStr ->
  Forall (fun line => occurrences AUTO_END line = 0) bullets ->
  (forall s e, indexOf AUTO_START content = Some s ->
               indexOf AUTO_END content = Some e -> s <= e) ->
  injected_section (merge_section (render_section dateTimeStr bullets) content)
  = Some (render_section dateTimeStr bullets).
Proof.
  intros Hdt Hb Horder.
  destruct (merge_section_shape content Horder) as (before & after & HS & HE & Hm).
  destruct (merged_markers before after dateTimeStr bullets Hdt Hb HS HE)
    as (Hlen & Hstart & Hend).
  rewrite Hm. unfold injected_section. rewrite Hstart, Hend. f_equal.
  unfold substring.
  rewrite Nat.min_l, Nat.max_r by lia.
  rewrite drop_app_length.
  replace (length before + length (render_section dateTimeStr bullets)
           - length AUTO_END + length AUTO_END - length before)
    with (length (render_section dateTimeStr bullets)) by lia.
  apply take_app_length.
Qed.

Lemma merge_section_absorbs (dateTimeStr content later : jsstring)
    (bullets : list jsstring) :
  LT ∉ dateTimeStr ->
  Forall (fun line => occurrences AUTO_END line = 0) bullets ->
  (forall s e, indexOf AUTO_START content = Some s ->
               indexOf AUTO_END content = Some e -> s <= e) ->
  merge_section later (merge_section (render_section dateTimeStr bullets) content)
  = merge_section later content.
Proof.
  intros Hdt Hb Horder.
  destruct (merge_section_shape content Horder) as (before & after & HS & HE & Hm).
  destruct (merged_markers before after dateTimeStr bullets Hdt Hb HS HE)
    as (Hlen & Hstart & Hend).
  rewrite (Hm later), (Hm (render_section dateTimeStr bullets)).
  unfold merge_section at 1. rewrite Hstart, Hend.
  rewrite take_app_length. f_equal. f_equal.
  rewrite app_assoc.
  apply drop_app_length'. rewrite length_app. lia.
Qed.

(** X8. Write, then read back. After the context keeper wrote a section
    whose timestamp has no [<] and whose lines hold no end marker, into a
    document in which no end marker precedes the start marker, the section
    that the session-start hook extracts from the document is the section
    just written, from the start marker through the end marker. *)
Theorem session_start_reads_the_section (cwd dateTimeStr response : jsstring)
    (w : World) :
  response_lines response <> [] ->
  LT ∉ dateTimeStr ->
  Forall (fun line => occurrences AUTO_END line = 0) (response_lines response) ->
  (forall s e, indexOf AUTO_START (default [] (handoffs w !! cwd)) = Some s ->
               indexOf AUTO_END (default [] (handoffs w !! cwd)) = Some e -> s <= e) ->
  handoffs (run (write_handoff cwd dateTimeStr response) w) !! cwd ≫= injected_section
  = Some (render_section dateTimeStr (response_lines response)).
Proof.
  intros Hlines Hdt Hb Horder.
  rewrite write_handoff_lookup, bool_decide_eq_false_2 by done. simpl.
  by apply injected_after_merge.
Qed.

Lemma session_start_reads_the_section_witness :
  handoffs (run (write_handoff (lit "/proj") (lit "2026-01-15 09:30") sample_answer)
              (with_handoff (lit "/proj") sample_handoff (sample_world 0)))
    !! lit "/proj" ≫= injected_section
  = Some (render_section (lit "2026-01-15 09:30") (response_lines sample_answer)).
Proof.
  apply (session_start_reads_the_section (lit "/proj") (lit "2026-01-15 09:30")
           sample_answer (with_handoff (lit "/proj") sample_handoff (sample_world 0))).
  - evaluated.
  - decided.
  - repeat constructor; evaluated.
  - intros s e Hs He.
    assert (Some s = Some 10) as [= ->] by (rewrite <- Hs; evaluated).
    assert (Some e = Some 79) as [= ->] by (rewrite <- He; evaluated).
    lia.
Defined.

(** X9. A capture absorbs the one before it. Two handoff writes in a row
    leave the world that the second write alone would have left, when the
    first section has no [<] in its timestamp and no end marker in its
    lines, and no end marker precedes the start marker in the document:
    text around the section is kept, captures do not pile up. *)
Theorem later_capture_absorbs_earlier (cwd dt1 r1 dt2 r2 : jsstring) (w : World) :
  response_lines r1 <> [] ->
  response_lines r2 <> [] ->
  LT ∉ dt1 ->
  Forall (fun line => occurrences AUTO_END line = 0) (response_lines r1) ->
  (forall s e, indexOf AUTO_START (default [] (handoffs w !! cwd)) = Some s ->
               indexOf AUTO_END (default [] (handoffs w !! cwd)) = Some e -> s <= e) ->
  run (write_handoff cwd dt2 r2) (run (write_handoff cwd dt1 r1) w)
  = run (write_handoff cwd dt2 r2) w.
Proof.
  intros H1 H2 Hdt Hb Horder.
  unfold write_handoff. eff.
  rewrite !bool_decide_eq_false_2
    by (intros Hl; by apply nil_length_inv in Hl).
  simpl. rewrite lookup_insert_eq. simpl.
  unfold with_handoff. simpl. rewrite insert_insert_eq.
  by rewrite merge_section_absorbs.
Qed.

Lemma later_capture_absorbs_earlier_witness :
  run (write_handoff (lit "/proj") (lit "2026-01-15 11:00") (lit "[OPEN] review"))
    (run (write_handoff (lit "/proj") (lit "2026-01-15 09:30") sample_answer)
       (sample_world 0))
  = run (write_handoff (lit "/proj") (lit "2026-01-15 11:00") (lit "[OPEN] review"))
      (sample_world 0).
Proof.
  apply (later_capture_absorbs_earlier (lit "/proj") (lit "2026-01-15 09:30")
           sample_answer (lit "2026-01-15 11:00") (lit "[OPEN] review") (sample_world 0)).
  - evaluated.
  - evaluated.
  - decided.
  - repeat constructor; evaluated.
  - intros s e Hs He. vm_compute in Hs. discriminate Hs.
Defined.

(** ** The daily log as session start shows it *)










(** ** Sync engine: what a pull and a push leave behind *)

Section SyncEffects.

Variable utf8_decode : bytes -> jsstring.
Variable git : GitEnv.

Lemma copied_over_idem (s d : option bytes) :
  copied_over utf8_decode s (copied_over utf8_decode s d) = copied_over utf8_decode s d.
Proof.
  destruct s as [c|], d as [d|]; simpl; try done.
  - case_bool_decide as H; simpl; [by case_bool_decide|].
    rewrite bool_decide_eq_false_2; [done|]. intros Hn. by apply Hn.
  - by case_bool_decide.
Qed.

Lemma same_history_refl (r : Repo) : same_history r r.
Proof. done. Qed.

Lemma same_history_trans (r1 r2 r3 : Repo) :
  same_history r1 r2 -> same_history r2 r3 -> same_history r1 r3.
Proof. unfold same_history. intros (? & ? & ? & ?) (? & ? & ? & ?). repeat split; congruence. Qed.

(** One [copyIfDifferent]: the destination holds the copy under [f], all
    else stays. *)
Lemma copyIfDifferent_effect (src dst : Side) (f : jsstring) (st : SyncState) :
  src <> dst ->
  is_Some (memory st) ->
  exists b st',
    copyIfDifferent utf8_decode src dst f st = (st', Normal b)
    /\ is_Some (memory st')
    /\ same_history (repo st) (repo st')
    /\ (forall g, lookup_side src st' g = lookup_side src st g)
    /\ (forall g, lookup_side dst st' g
                  = if bool_decide (g = f)
                    then copied_over utf8_decode (lookup_side src st f) (lookup_side dst st f)
                    else lookup_side dst st g).
Proof.
  intros Hne [loc Hloc]. rewrite copyIfDifferent_run by by eexists.
  unfold lookup_side.
  destruct src, dst; try done; simpl; rewrite Hloc; simpl.
  - destruct (loc !! f) as [c|] eqn:Hc;
      [destruct (worktree (repo st) !! f) as [d|] eqn:Hd; [case_bool_decide as Hdiff|]|];
      eexists _, _; (split; [done|]); simpl; rewrite ?Hloc; simpl;
      (split; [by eexists|]); (split; [done|]); (split; [done|]);
      intros g; destruct (decide (g = f)) as [->|Hg];
      rewrite ?bool_decide_eq_true_2, ?(bool_decide_eq_false_2 (g = f)) by done;
      rewrite ?lookup_insert_eq, ?lookup_insert_ne by done;
      rewrite ?bool_decide_eq_false_2 by (intros Hn; by apply Hn); done.
  - destruct (worktree (repo st) !! f) as [c|] eqn:Hc;
      [destruct (loc !! f) as [d|] eqn:Hd; [case_bool_decide as Hdiff|]|];
      eexists _, _; (split; [done|]); simpl; rewrite ?Hloc; simpl;
      (split; [by eexists|]); (split; [done|]); (split; [done|]);
      intros g; destruct (decide (g = f)) as [->|Hg];
      rewrite ?bool_decide_eq_true_2, ?(bool_decide_eq_false_2 (g = f)) by done;
      rewrite ?lookup_insert_eq, ?lookup_insert_ne by done;
      rewrite ?bool_decide_eq_false_2 by (intros Hn; by apply Hn); done.
Qed.

(** A whole copy loop. *)
Lemma copy_each_effect (src dst : Side) (files : list jsstring) (copied : nat)
    (st : SyncState) :
  src <> dst ->
  is_Some (memory st) ->
  exists n st',
    copy_each files (copyIfDifferent utf8_decode src dst) copied st = (st', Normal n)
    /\ is_Some (memory st')
    /\ same_history (repo st) (repo st')
    /\ (forall g, lookup_side src st' g = lookup_side src st g)
    /\ (forall g, lookup_side dst st' g
                  = if bool_decide (g ∈ files)
                    then copied_over utf8_decode (lookup_side src st g) (lookup_side dst st g)
                    else lookup_side dst st g).
Proof.
  intros Hne. revert copied st.
  induction files as [|f files IH]; intros copied st Hm.
  - eexists _, _. split; [done|]. split; [done|]. split; [done|]. split; [done|].
    intros g. rewrite bool_decide_eq_false_2; [done|]. apply not_elem_of_nil.
  - destruct (copyIfDifferent_effect src dst f st Hne Hm)
      as (b & st1 & Hrun & Hm1 & Hh1 & Hsrc1 & Hdst1).
    destruct (IH (if b then S copied else copied) st1 Hm1)
      as (n & st2 & Hrun2 & Hm2 & Hh2 & Hsrc2 & Hdst2).
    exists n, st2. split; [simpl; unfold bind; by rewrite Hrun|].
    split; [done|]. split; [by eapply same_history_trans|].
    split; [intros g; by rewrite Hsrc2, Hsrc1|].
    intros g. rewrite Hdst2, Hsrc1, !Hdst1.
    destruct (decide (g = f)) as [->|Hgf].
    + rewrite (bool_decide_eq_true_2 (f = f)) by done.
      rewrite (bool_decide_eq_true_2 (f ∈ f :: files)) by left.
      case_bool_decide; [apply copied_over_idem|done].
    + rewrite (bool_decide_eq_false_2 (g = f)) by done.
      case_bool_decide as Hin.
      * rewrite bool_decide_eq_true_2; [done|by right].
      * rewrite bool_decide_eq_false_2; [done|].
        rewrite elem_of_cons. by intros [?|?].
Qed.

Lemma getFilesToSync_elem (d : directory) (f : jsstring) :
  f ∈ getFilesToSync (Some d) <-> is_tracked f = true /\ is_Some (d !! f).
Proof.
  simpl. rewrite list_elem_of_In, filter_In, <- list_elem_of_In.
  rewrite list_elem_of_fmap. split.
  - intros ((kv & -> & Hkv) & Ht). split; [done|].
    destruct kv as [k v]. apply elem_of_map_to_list in Hkv. by eexists.
  - intros (Ht & v & Hv). split; [|done].
    exists (f, v). split; [done|]. by apply elem_of_map_to_list.
Qed.

Lemma repo_eq (r r' : Repo) :
  worktree r' = worktree r -> same_history r r' -> r' = r.
Proof.
  destruct r, r'. unfold same_history. simpl. intros -> (-> & -> & -> & ->). done.
Qed.

Lemma syncPull_run (st : SyncState) :
  run (syncPull utf8_decode git) st
  = run (copy_each (getFilesToSync (Some (worktree (repo (after_gitPull git st)))))
           (copyIfDifferent utf8_decode Repository Local) 0) (after_gitPull git st).
Proof.
  unfold syncPull, gitPull, emit, set_repo, set_memory, after_gitPull, log_event. eff.
  destruct (pull_rebase git (repo st)) as [r|]; simpl;
    destruct (memory st) as [loc|]; simpl; done.
Qed.

(** X11. What a session-start pull does. The repository is left as the
    pull left it: nothing is staged, committed or pushed, and no file of
    the working tree is written. After the pull attempt only comparisons
    and copies follow. The memory directory exists afterwards (it is
    created when missing); every tracked document of the working tree is
    then in it with the same decoded text, and every other local file is
    what it was. *)
Theorem pull_brings_repository_documents (st : SyncState) :
  let pulled := default (repo st) (pull_rebase git (repo st)) in
  let before := default ∅ (memory st) in
  let st' := run (syncPull utf8_decode git) st in
  repo st' = pulled
  /\ (exists copies, trace st' = trace st ++ Pulled :: copies /\ Forall file_event copies)
  /\ exists loc',
       memory st' = Some loc'
       /\ (forall f c, is_tracked f = true -> worktree pulled !! f = Some c ->
             exists c', loc' !! f = Some c' /\ utf8_decode c' = utf8_decode c)
       /\ (forall f, is_tracked f = false \/ worktree pulled !! f = None ->
             loc' !! f = before !! f).
Proof.
  intros pulled before st'. unfold st'. rewrite syncPull_run.
  set (st0 := after_gitPull git st).
  set (files := getFilesToSync (Some (worktree (repo st0)))).
  assert (is_Some (memory st0)) as Hm0 by by eexists.
  destruct (copy_each_effect Repository Local files 0 st0 ltac:(done) Hm0)
    as (n & st1 & Hrun & (loc' & Hloc') & Hhist & Hsrc & Hdst).
  destruct (copy_each_done utf8_decode Repository Local files 0 st0 ltac:(done) Hm0)
    as (n' & st1' & Hrun' & (_ & _ & _ & evs & Htr & Hevs & _)).
  rewrite Hrun in Hrun'. injection Hrun' as <- <-.
  unfold run. rewrite Hrun. simpl.
  split; [|split].
  - apply repo_eq; [|done]. apply map_eq. intros g. apply (Hsrc g).
  - exists evs. split; [rewrite Htr; simpl; by rewrite <- app_assoc|].
    by eapply file_event_of_copy.
  - exists loc'. split; [done|].
    assert (forall g, loc' !! g
              = if bool_decide (g ∈ files)
                then copied_over utf8_decode (worktree pulled !! g) (before !! g)
                else before !! g) as Hlook.
    { intros g. specialize (Hdst g). unfold lookup_side in Hdst. simpl in Hdst.
      rewrite Hloc' in Hdst. exact Hdst. }
    split.
    + intros f c Ht Hc. rewrite Hlook, bool_decide_eq_true_2.
      * rewrite Hc. simpl. destruct (before !! f) as [d|]; [|by eexists].
        case_bool_decide as Hd; [by eexists|].
        exists d. split; [done|]. apply dec_stable. naive_solver.
      * apply getFilesToSync_elem. split; [done|]. by eexists.
    + intros f Hf. rewrite Hlook. case_bool_decide as Hin; [|done].
      apply getFilesToSync_elem in Hin as (Ht & c & Hc).
      destruct Hf as [Hf|Hf]; [congruence|].
      change (worktree (repo st0)) with (worktree pulled) in Hc. congruence.
Qed.


(** [gitPush] leaves the local directory alone. *)
Lemma gitPush_memory (st : SyncState) : memory (run (gitPush git) st) = memory st.
Proof.
  unfold gitPush, completes, gitPull, git_add, git_diff_cached_quiet,
    git_commit, git_push, emit, set_repo, log_event. eff.
  destruct (pull_rebase git (repo st)) as [r|]; simpl;
    destruct (add_fails git), (diff_fails git), (commit_fails git),
      (push_fails git); simpl;
    repeat case_bool_decide; simpl; done.
Qed.


(** With a remote that has nothing new and git commands that go through,
    [gitPush] ends on a committed working tree. *)
Lemma gitPush_settles (st : SyncState) :
  (forall r, pull_rebase git r = None \/ pull_rebase git r = Some r) ->
  add_fails git = false -> diff_fails git = false -> commit_fails git = false ->
  worktree (repo (run (gitPush git) st)) = worktree (repo st)
  /\ index (repo (run (gitPush git) st)) = worktree (repo st)
  /\ head (repo (run (gitPush git) st)) = worktree (repo st).
Proof.
  intros Hquiet Hadd Hdiff Hcommit.
  unfold gitPush, completes, gitPull, git_add, git_diff_cached_quiet,
    git_commit, git_push, emit, set_repo, log_event. eff.
  rewrite Hadd, Hdiff, Hcommit.
  destruct (Hquiet (repo st)) as [-> | ->]; simpl;
    destruct (push_fails git); simpl;
    repeat case_bool_decide; simpl; done.
Qed.

(** The two copy loops of a push, from an existing memory directory. *)
Lemma syncPush_effect (st : SyncState) (loc : directory) :
  memory st = Some loc ->
  exists st2 loc2,
    run (syncPush utf8_decode git) st = run (gitPush git) st2
    /\ memory st2 = Some loc2
    /\ (forall f, loc2 !! f
                  = match loc !! f with
                    | Some c => Some c
                    | None => if is_tracked f then worktree (repo st) !! f else None
                    end)
    /\ (forall f, worktree (repo st2) !! f
                  = if is_tracked f
                    then copied_over utf8_decode (loc !! f) (worktree (repo st) !! f)
                    else worktree (repo st) !! f)
    /\ exists copies, trace st2 = trace st ++ copies /\ Forall file_event copies.
Proof.
  intros Hloc. unfold syncPush. eff. rewrite Hloc. simpl.
  set (files := List.filter is_tracked (map fst (map_to_list loc))).
  assert (is_Some (memory st)) as Hm by by eexists.
  destruct (copy_each_effect Local Repository files 0 st ltac:(done) Hm)
    as (n1 & st1 & Hrun1 & Hm1 & Hh1 & Hsrc1 & Hdst1).
  destruct (copy_each_done utf8_decode Local Repository files 0 st ltac:(done) Hm)
    as (n1' & st1' & Hrun1' & (_ & _ & _ & evs1 & Htr1 & Hevs1 & _)).
  rewrite Hrun1 in Hrun1'. injection Hrun1' as <- <-.
  rewrite Hrun1.
  match goal with
  | |- context [copy_each ?fs (copyIfDifferent _ Repository Local) n1 st1] =>
      set (others := fs)
  end.
  destruct (copy_each_effect Repository Local others n1 st1 ltac:(done) Hm1)
    as (n2 & st2 & Hrun2 & (loc2 & Hloc2) & Hh2 & Hsrc2 & Hdst2).
  destruct (copy_each_done utf8_decode Repository Local others n1 st1 ltac:(done) Hm1)
    as (n2' & st2' & Hrun2' & (_ & _ & _ & evs2 & Htr2 & Hevs2 & _)).
  rewrite Hrun2 in Hrun2'. injection Hrun2' as <- <-.
  rewrite Hrun2.
  exists st2, loc2.
  split; [unfold gitPush, completes; by destruct (bind (gitPull git) _ st2) as [st3 [?| |]]|].
  split; [done|].
  unfold lookup_side in *. simpl in *. rewrite Hloc in *. rewrite Hloc2 in *.
  destruct Hm1 as [loc1 Hloc1]. rewrite Hloc1 in *. simpl in *.
  assert (forall f, f ∈ files <-> is_tracked f = true /\ is_Some (loc !! f)) as Hfiles
    by (intros f; apply (getFilesToSync_elem loc f)).
  assert (forall f, f ∈ others
            <-> (is_tracked f = true /\ is_Some (worktree (repo st1) !! f)) /\ f ∉ files)
    as Hothers.
  { intros f. unfold others. rewrite list_elem_of_In, filter_In, <- list_elem_of_In.
    rewrite (getFilesToSync_elem (worktree (repo st1)) f).
    rewrite negb_true_iff, bool_decide_eq_false. tauto. }
  split; [|split].
  - intros f. rewrite Hdst2, Hsrc1.
    case_bool_decide as Hin.
    + apply Hothers in Hin as ((Ht & [c Hc]) & Hnot).
      assert (loc !! f = None) as Hnone.
      { destruct (loc !! f) eqn:E; [|done]. exfalso. apply Hnot, Hfiles. by split. }
      rewrite Hnone, Hc, Ht. simpl.
      rewrite <- Hc, Hdst1. by rewrite bool_decide_eq_false_2.
    + destruct (loc !! f) as [c|] eqn:Hc; [done|].
      destruct (is_tracked f) eqn:Ht; [|done].
      assert (f ∉ files) as Hnot by (rewrite Hfiles, Hc; by intros (_ & [? ?])).
      destruct (worktree (repo st) !! f) as [d|] eqn:Hd; [|done].
      exfalso. apply Hin, Hothers. split; [|done]. split; [done|].
      rewrite Hdst1, bool_decide_eq_false_2, Hd by done. by eexists.
  - intros f. rewrite Hsrc2, Hdst1.
    case_bool_decide as Hin.
    + apply Hfiles in Hin as (-> & _). done.
    + destruct (is_tracked f) eqn:Ht; [|done].
      destruct (loc !! f) as [c|] eqn:Hc; [|done].
      exfalso. apply Hin, Hfiles. split; [done|by eexists].
  - exists (evs1 ++ evs2). split; [by rewrite Htr2, Htr1, app_assoc|].
    apply Forall_app. split; by eapply file_event_of_copy.
Qed.

(** X12. A push never changes or removes a document of the local memory
    directory. What the directory gains are the tracked documents that
    only the repository's working tree had before the push, with the
    bytes they had there; untracked names are never brought in. *)
Theorem push_keeps_local_documents (st : SyncState) (loc : directory) :
  memory st = Some loc ->
  exists loc',
    memory (run (syncPush utf8_decode git) st) = Some loc'
    /\ (forall f c, loc !! f = Some c -> loc' !! f = Some c)
    /\ (forall f, loc !! f = None ->
          loc' !! f = if is_tracked f then worktree (repo st) !! f else None).
Proof.
  intros Hloc.
  destruct (syncPush_effect st loc Hloc) as (st2 & loc2 & -> & Hloc2 & Hl & _).
  exists loc2. rewrite gitPush_memory. split; [done|]. split.
  - intros f c Hc. by rewrite Hl, Hc.
  - intros f Hc. by rewrite Hl, Hc.
Qed.

(** X13. A push that goes through settles both sides. With a remote that
    has nothing new (the pull fails or changes nothing) and [git add],
    [git diff] and [git commit] working, after a push from an existing
    memory directory the working tree is committed (index and last commit
    equal it), and every tracked document is either absent on both sides
    or present on both with the same decoded text. *)
Theorem push_leaves_both_sides_in_sync (st : SyncState) (loc : directory) :
  memory st = Some loc ->
  (forall r, pull_rebase git r = None \/ pull_rebase git r = Some r) ->
  add_fails git = false -> diff_fails git = false -> commit_fails git = false ->
  let st' := run (syncPush utf8_decode git) st in
  head (repo st') = worktree (repo st')
  /\ index (repo st') = worktree (repo st')
  /\ forall f, is_tracked f = true ->
       match memory st' ≫= (fun d => d !! f), worktree (repo st') !! f with
       | Some c, Some d => utf8_decode c = utf8_decode d
       | None, None => True
       | _, _ => False
       end.
Proof.
  intros Hloc Hquiet Hadd Hdiff Hcommit st'. unfold st'.
  destruct (syncPush_effect st loc Hloc) as (st2 & loc2 & -> & Hloc2 & Hl & Hw & _).
  destruct (gitPush_settles st2 Hquiet Hadd Hdiff Hcommit) as (Hwt & Hidx & Hhd).
  rewrite gitPush_memory, Hwt, Hidx, Hhd, Hloc2. simpl.
  split; [done|]. split; [done|].
  intros f Ht. rewrite Hl, Hw, Ht.
  destruct (loc !! f) as [c|]; simpl.
  - destruct (worktree (repo st) !! f) as [d|]; [|done].
    case_bool_decide as Hd; [done|]. apply dec_stable. by intros Hn.
  - by destruct (worktree (repo st) !! f).
Qed.


End SyncEffects.

Lemma push_keeps_local_documents_witness :
  memory (run (syncPush (fun b => b) quiet_remote) edited_locally)
    ≫= (fun d => d !! lit "MEMORY.md") = Some (lit "new notes").
Proof.
  destruct (push_keeps_local_documents (fun b => b) quiet_remote edited_locally _ eq_refl)
    as (loc' & -> & Hkeep & _).
  simpl. apply Hkeep. evaluated.
Defined.

Lemma push_leaves_both_sides_in_sync_witness :
  head (repo (run (syncPush (fun b => b) quiet_remote) edited_locally))
  = worktree (repo (run (syncPush (fun b => b) quiet_remote) edited_locally)).
Proof.
  assert (forall r, pull_rebase quiet_remote r = None \/ pull_rebase quiet_remote r = Some r)
    as Hquiet by (intros r; simpl; case_bool_decide; auto).
  exact (proj1 (push_leaves_both_sides_in_sync (fun b => b) quiet_remote edited_locally _
                  eq_refl Hquiet eq_refl eq_refl eq_refl)).
Defined.


(** ** Memory directory resolution *)

Lemma replace_chain (cwd : jsstring) :
  replace_with_dash UNDERSCORE
    (replace_with_dash COLON
       (replace_with_dash SLASH
          (replace_with_dash BACKSLASH cwd)))
  = map (fun c => if is_separator c then DASH else c) cwd.
Proof.
  unfold replace_with_dash. rewrite !map_map. apply map_ext. intros c.
  unfold is_separator.
  destruct (N.eqb c BACKSLASH) eqn:E1.
  { apply N.eqb_eq in E1. by subst c. }
  destruct (N.eqb c SLASH) eqn:E2.
  { apply N.eqb_eq in E2. by subst c. }
  destruct (N.eqb c COLON) eqn:E3.
  { apply N.eqb_eq in E3. by subst c. }
  simpl. by destruct (N.eqb c UNDERSCORE).
Qed.

Lemma is_separator_lower (c : N) : is_lower c = true -> is_separator (c - 32) = false.
Proof.
  unfold is_lower, is_separator, BACKSLASH, SLASH, COLON, UNDERSCORE.
  rewrite andb_true_iff, !N.leb_le. intros [? ?].
  rewrite !orb_false_iff, !N.eqb_neq. lia.
Qed.

Lemma is_lower_upper (c : N) : is_lower c = true -> is_lower (c - 32) = false.
Proof.
  unfold is_lower. rewrite andb_true_iff, andb_false_iff, !N.leb_le, !N.leb_gt. lia.
Qed.


Lemma is_upper_not_separator (c : N) : is_lower c = true -> is_separator c = false.
Proof.
  unfold is_lower, is_separator, BACKSLASH, SLASH, COLON, UNDERSCORE.
  rewrite andb_true_iff, !N.leb_le. intros [? ?].
  rewrite !orb_false_iff, !N.eqb_neq. lia.
Qed.

Lemma dashed_no_separator (cwd : jsstring) :
  Forall (fun c => is_separator c = false)
    (map (fun c => if is_separator c then DASH else c) cwd).
Proof.
  apply Forall_forall. intros c Hc.
  apply list_elem_of_fmap in Hc as (x & -> & _).
  by destruct (is_separator x) eqn:E.
Qed.

Lemma dashed_fixed (s : jsstring) :
  Forall (fun c => is_separator c = false) s ->
  map (fun c => if is_separator c then DASH else c) s = s.
Proof.
  induction 1 as [|c s Hc _ IH]; [done|]. simpl. by rewrite Hc, IH.
Qed.

(** X15. The project key: as long as the working directory, free of
    backslash, slash, colon and underscore, not starting with a lower-case
    ASCII letter; and the key of a key is the key itself. *)
Theorem project_key_is_normal (cwd : jsstring) :
  length (cwdToProjectKey cwd) = length cwd
  /\ Forall (fun c => is_separator c = false) (cwdToProjectKey cwd)
  /\ (forall c rest, cwdToProjectKey cwd = c :: rest -> is_lower c = false)
  /\ cwdToProjectKey (cwdToProjectKey cwd) = cwdToProjectKey cwd.
Proof.
  assert (forall s, Forall (fun c => is_separator c = false) s ->
            Forall (fun c => is_separator c = false) (upper_first s)) as Hup.
  { intros [|c s] Hs; [done|]. simpl. destruct (is_lower c) eqn:Hc; [|done].
    apply Forall_cons in Hs as (_ & Hs). constructor; [by apply is_separator_lower|done]. }
  assert (forall s c rest, upper_first s = c :: rest -> is_lower c = false) as Hfirst.
  { intros [|a s] c rest; [done|]. simpl. destruct (is_lower a) eqn:Ha.
    - intros [= <- _]. by apply is_lower_upper.
    - by intros [= <- _]. }
  assert (forall s, (forall c rest, s = c :: rest -> is_lower c = false) ->
            upper_first s = s) as Hfix.
  { intros [|a s] H; [done|]. simpl. by rewrite (H a s eq_refl). }
  unfold cwdToProjectKey at 1 2 3. rewrite !replace_chain.
  pose proof (dashed_no_separator cwd) as Hd.
  split; [|split; [|split]].
  - rewrite <- (length_map (fun c => if is_separator c then DASH else c) cwd).
    destruct (map _ cwd) as [|c s]; [done|]. simpl. by destruct (is_lower c).
  - by apply Hup.
  - apply Hfirst.
  - unfold cwdToProjectKey. rewrite !replace_chain.
    rewrite (dashed_fixed (upper_first _)) by by apply Hup.
    apply Hfix, Hfirst.
Qed.

(** X16. Distinct working directories can share a key, hence a memory
    directory: replacing a backslash, slash, colon or underscore anywhere in
    the path by a dash gives the same key, and so does changing a leading
    lower-case letter (a drive letter) to upper case. *)
Theorem project_key_collisions (x y : jsstring) (c : N) :
  (is_separator c = true ->
   cwdToProjectKey (x ++ c :: y) = cwdToProjectKey (x ++ DASH :: y))
  /\ (is_lower c = true ->
      cwdToProjectKey (c :: y) = cwdToProjectKey ((c - 32)%N :: y)).
Proof.
  unfold cwdToProjectKey. rewrite !replace_chain. split.
  - intros Hc. by rewrite !map_app, !map_cons, Hc.
  - intros Hc. rewrite !map_cons.
    rewrite (is_upper_not_separator c Hc), (is_separator_lower c Hc).
    simpl. by rewrite Hc, (is_lower_upper c Hc).
Qed.

Lemma project_key_collisions_witness :
  cwdToProjectKey (lit "/work/my_app") = cwdToProjectKey (lit "/work/my-app")
  /\ cwdToProjectKey (lit "c:\dev") = cwdToProjectKey (lit "C:\dev").
Proof.
  split.
  - apply (proj1 (project_key_collisions (lit "/work/my") (lit "app") UNDERSCORE)).
    reflexivity.
  - apply (proj2 (project_key_collisions [] (lit ":\dev") 99%N)). reflexivity.
Defined.

(** X17. The scripts resolve one memory directory as soon as one of the
    two [.claude] project directories exists (the lower-case one is what
    [nlc install] creates for Claude Code): session start and development
    logger, context keeper, sync script and MCP server return the first of
    the two that exists. When neither exists, the context keeper and the
    sync script resolve the lower-case [.claude] directory, while session
    start and the development logger resolve a directory under [.nlc]. *)
Theorem memory_dir_resolvers_agree (existsSync : path -> bool) (home cwd : jsstring) :
  let key := cwdToProjectKey cwd in
  let lowerPath := claude_memory home (lower_first key) in
  let upperPath := claude_memory home key in
  (existsSync lowerPath = true \/ existsSync upperPath = true ->
   let dir := if existsSync lowerPath then lowerPath else upperPath in
   SessionStart.getMemoryDir existsSync home cwd = dir
   /\ ContextKeeper.getAutoMemoryDir existsSync home cwd = dir
   /\ MemorySync.getMemoryDir existsSync home cwd = dir
   /\ McpServer.getMemoryDir existsSync home cwd = dir)
  /\ (existsSync lowerPath = false -> existsSync upperPath = false ->
      ContextKeeper.getAutoMemoryDir existsSync home cwd = lowerPath
      /\ MemorySync.getMemoryDir existsSync home cwd = lowerPath
      /\ (SessionStart.getMemoryDir existsSync home cwd = nlc_project home (lower_first key)
          \/ SessionStart.getMemoryDir existsSync home cwd = nlc_project home key)).
Proof.
  intros key lowerPath upperPath.
  unfold SessionStart.getMemoryDir, ContextKeeper.getAutoMemoryDir,
    MemorySync.getMemoryDir, McpServer.getMemoryDir, first_existing.
  fold key. fold lowerPath. fold upperPath. simpl.
  split.
  - intros [H|H].
    + by rewrite H.
    + rewrite H. by destruct (existsSync lowerPath).
  - intros -> ->. split; [done|]. split; [done|].
    destruct (existsSync (nlc_project home (lower_first key))); [by left|].
    destruct (existsSync (nlc_project home key)); [by right|by left].
Qed.

Lemma only_below_parent (file d : path) (name : jsstring) :
  only_below file (d ++ [name]) = true -> only_below file d = true.
Proof.
  unfold only_below. rewrite !bool_decide_eq_true.
  intros H. etrans; [|exact H]. by apply prefix_app_r.
Qed.

(** X18. Where session start finds a handoff document, the memory check
    finds the same one, on a file system where a file exists only inside
    an existing directory. Session start looks in the first memory
    directory that exists and nowhere else: with the first directory
    present and no handoff in it, it finds none. *)
Theorem handoff_lookups_agree (existsSync : path -> bool) (home cwd : jsstring) :
  (forall d name, existsSync (d ++ [name]) = true -> existsSync d = true) ->
  (forall p, SessionStart.findHandoff existsSync home cwd = Some p ->
             MemoryCheck.findHandoff existsSync home cwd = Some p)
  /\ (existsSync (claude_memory home (lower_first (cwdToProjectKey cwd))) = true ->
      existsSync (claude_memory home (lower_first (cwdToProjectKey cwd))
                  ++ [lit "session-handoff.md"]) = false ->
      SessionStart.findHandoff existsSync home cwd = None).
Proof.
  intros Hdir.
  unfold SessionStart.findHandoff, SessionStart.getMemoryDir, MemoryCheck.findHandoff,
    first_existing.
  set (key := cwdToProjectKey cwd). set (lowerKey := lower_first key).
  set (h := lit "session-handoff.md").
  cbn [List.find].
  pose proof (Hdir (claude_memory home lowerKey) h) as H1.
  pose proof (Hdir (claude_memory home key) h) as H2.
  pose proof (Hdir (nlc_project home lowerKey) h) as H3.
  pose proof (Hdir (nlc_project home key) h) as H4.
  split.
  - intros p.
    destruct (existsSync (claude_memory home lowerKey)) eqn:D1; cbn [default from_option id].
    { destruct (existsSync (claude_memory home lowerKey ++ [h])); [done|done]. }
    destruct (existsSync (claude_memory home lowerKey ++ [h])) eqn:F1;
      [by specialize (H1 eq_refl)|].
    destruct (existsSync (claude_memory home key)) eqn:D2; cbn [default from_option id].
    { destruct (existsSync (claude_memory home key ++ [h])); [done|done]. }
    destruct (existsSync (claude_memory home key ++ [h])) eqn:F2;
      [by specialize (H2 eq_refl)|].
    destruct (existsSync (nlc_project home lowerKey)) eqn:D3; cbn [default from_option id].
    { destruct (existsSync (nlc_project home lowerKey ++ [h])); [done|done]. }
    destruct (existsSync (nlc_project home lowerKey ++ [h])) eqn:F3;
      [by specialize (H3 eq_refl)|].
    destruct (existsSync (nlc_project home key)) eqn:D4; cbn [default from_option id].
    { destruct (existsSync (nlc_project home key ++ [h])); [done|done]. }
    by rewrite F3.
  - intros -> Hf. cbn [default from_option id]. by rewrite Hf.
Qed.

Lemma handoff_lookups_agree_witness :
  MemoryCheck.findHandoff nlc_handoff_only sample_home (lit "/work/my_app")
  = Some (nlc_project sample_home (lit "-work-my-app") ++ [lit "session-handoff.md"]).
Proof.
  apply (proj1 (handoff_lookups_agree nlc_handoff_only sample_home (lit "/work/my_app")
                  (only_below_parent _))).
  evaluated.
Defined.

Lemma memory_dir_resolvers_agree_witness :
  ContextKeeper.getAutoMemoryDir nlc_handoff_only sample_home (lit "/work/my_app")
  = claude_memory sample_home (lit "-work-my-app")
  /\ SessionStart.getMemoryDir nlc_handoff_only sample_home (lit "/work/my_app")
     = nlc_project sample_home (lit "-work-my-app").
Proof.
  destruct (proj2 (memory_dir_resolvers_agree nlc_handoff_only sample_home
                     (lit "/work/my_app")) ltac:(evaluated) ltac:(evaluated))
    as (Hkeeper & _ & _).
  split; [exact Hkeeper|evaluated].
Defined.

(** ** Installer *)

Lemma add_missing_spec (allowList allow : list jsstring) (added : nat) :
  allow `prefix_of` (add_missing allowList allow added).1
  /\ (forall p, p ∈ (add_missing allowList allow added).1 <-> p ∈ allow \/ p ∈ allowList)
  /\ length (add_missing allowList allow added).1 + added
     = length allow + (add_missing allowList allow added).2
  /\ (NoDup allow -> NoDup (add_missing allowList allow added).1).
Proof.
  revert allow added. induction allowList as [|perm rest IH]; intros allow added; simpl.
  - split; [done|]. split; [|split; [lia|done]].
    intros p. rewrite elem_of_nil. tauto.
  - case_bool_decide as Hin.
    + destruct (IH allow added) as (Hpre & Hmem & Hlen & Hnd).
      split; [done|]. split; [|split; [done|done]].
      intros p. rewrite Hmem, elem_of_cons. split; [tauto|].
      intros [?|[->|?]]; auto.
    + destruct (IH (allow ++ [perm]) (S added)) as (Hpre & Hmem & Hlen & Hnd).
      split; [etrans; [|exact Hpre]; by apply prefix_app_r|].
      split; [|split].
      * intros p. rewrite Hmem, elem_of_app, !elem_of_cons, elem_of_nil. tauto.
      * rewrite length_app in Hlen. simpl in Hlen. lia.
      * intros Hallow. apply Hnd. apply NoDup_app. split; [done|].
        split; [|apply NoDup_singleton].
        intros x Hx ->%list_elem_of_singleton. done.
Qed.

Lemma add_missing_present (allowList allow : list jsstring) (added : nat) :
  (forall p, p ∈ allowList -> p ∈ allow) ->
  add_missing allowList allow added = (allow, added).
Proof.
  induction allowList as [|perm rest IH]; intros H; simpl; [done|].
  rewrite bool_decide_eq_true_2 by (apply H; left).
  apply IH. intros p Hp. apply H. by right.
Qed.

(** X19. Permissions are added once. The allow list after [setPermissions]
    starts with the entries it had, in their order; it holds every
    permission of the tool's list and nothing else new; [added] counts the
    entries appended; a list without duplicates stays so; and a second run
    appends nothing. *)
Theorem permissions_are_added_once (allowList allow : list jsstring) :
  let after := (add_missing allowList allow 0).1 in
  allow `prefix_of` after
  /\ (forall p, p ∈ after <-> p ∈ allow \/ p ∈ allowList)
  /\ length after = length allow + (add_missing allowList allow 0).2
  /\ (NoDup allow -> NoDup after)
  /\ add_missing allowList after 0 = (after, 0).
Proof.
  intros after. unfold after.
  destruct (add_missing_spec allowList allow 0) as (Hpre & Hmem & Hlen & Hnd).
  split; [done|]. split; [done|]. split; [lia|]. split; [done|].
  apply add_missing_present. intros p Hp. apply Hmem. by right.
Qed.

Lemma includes_inside (needle before after : jsstring) :
  needle <> [] -> includes needle (before ++ needle ++ after) = true.
Proof.
  intros Hne. unfold includes, indexOf.
  destruct (indexOf_from 0 needle (before ++ needle ++ after)) eqn:E; [done|].
  apply indexOf_from_None in E as (Hzero & _).
  pose proof (occurrences_zero _ _ Hzero (length before)) as H.
  rewrite drop_app_length, startsWith_app in H.
  discriminate H. rewrite !length_app. destruct needle; [done|simpl; lia].
Qed.

Lemma includes_suffix (needle before s : jsstring) :
  includes needle s = true -> includes needle (before ++ s) = true.
Proof.
  unfold includes at 1. destruct (indexOf needle s) as [i|] eqn:E; [|done]. intros _.
  destruct (indexOf_spec _ _ _ E) as (Hi & rest & Hrest).
  destruct needle as [|c needle]; [by destruct (before ++ s)|].
  rewrite <- (take_drop i s), Hrest, app_assoc.
  by apply includes_inside.
Qed.

(** X20. Installing the rules without [--force]: a rules file that exists
    is left alone or extended, its content stays in front of the separator
    and the template; and when the template names Nex Level Code, a second
    run writes nothing. With [--force], a rules file that names Nex Level
    Code is replaced by the template alone. *)
Theorem rules_install_is_repeatable (rulesFile template : jsstring)
    (toolTemplate genericTemplate existing : option jsstring) :
  rules_template toolTemplate genericTemplate = Some template ->
  includes NLC_NAME template = true ->
  let written := installRules false rulesFile toolTemplate genericTemplate existing in
  (forall old, existing = Some old ->
     written = None \/ written = Some (old ++ RULES_SEPARATOR ++ template))
  /\ installRules false rulesFile toolTemplate genericTemplate
       (match written with Some new => Some new | None => existing end) = None
  /\ (forall old, rulesFile <> [] -> includes NLC_NAME old = true ->
        installRules true rulesFile toolTemplate genericTemplate (Some old)
        = Some template).
Proof.
  intros Htemplate Hnamed written. unfold written, installRules.
  rewrite Htemplate.
  case_bool_decide as Hfile.
  { split; [by left|]. split; [done|]. by intros old. }
  split; [|split].
  - intros old ->. destruct (includes NLC_NAME old); [by left|by right].
  - destruct existing as [old|].
    + assert (includes NLC_NAME (old ++ RULES_SEPARATOR ++ template) = true) as Hext
        by (rewrite app_assoc; by apply includes_suffix).
      destruct (includes NLC_NAME old) eqn:Hold; cbn [negb]; by rewrite ?Hold, ?Hext.
    + by rewrite Hnamed.
  - intros old _ ->. done.
Qed.

Lemma rules_install_is_repeatable_witness :
  installRules false (lit "CLAUDE.md") (Some (lit "# Nex Level Code rules")) None
    (Some (lit "# My project" ++ RULES_SEPARATOR ++ lit "# Nex Level Code rules"))
  = None.
Proof.
  exact (proj1 (proj2 (rules_install_is_repeatable (lit "CLAUDE.md")
                         (lit "# Nex Level Code rules")
                         (Some (lit "# Nex Level Code rules")) None
                         (Some (lit "# My project")) eq_refl ltac:(evaluated)))).
Defined.

(** X21. Which tool an install runs for. Asking for a tool of the
    registry by its id returns that tool, installed or not; an id that is
    not in the registry is refused. Without an id: Claude Code is returned
    whenever its directory [~/.claude] exists, whatever else is installed;
    a tool that is returned has a directory that exists, so GitHub Copilot,
    which has none to look for, is never detected; and the run fails
    exactly when none of the four directories exists. *)
Theorem tool_resolution (existsSync : path -> bool) (home : jsstring) :
  (forall tool, tool ∈ TOOL_REGISTRY home ->
     resolveTool existsSync home (Some (tool_id tool)) = inr tool)
  /\ (forall id, id <> [] ->
        (forall tool, tool ∈ TOOL_REGISTRY home -> tool_id tool <> id) ->
        resolveTool existsSync home (Some id) = inl UnknownTool)
  /\ (forall id tool, resolveTool existsSync home (Some id) = inr tool ->
        id <> [] -> tool_id tool = id)
  /\ (existsSync [home; lit ".claude"] = true ->
      exists claude, resolveTool existsSync home None = inr claude
                     /\ tool_id claude = lit "claude")
  /\ (forall tool, resolveTool existsSync home None = inr tool ->
        tool_id tool <> lit "github"
        /\ exists dir, dir ∈ globalDirs tool /\ existsSync dir = true)
  /\ (resolveTool existsSync home None = inl NoToolDetected
      <-> existsSync [home; lit ".claude"] = false
          /\ existsSync [home; lit ".cursor"] = false
          /\ existsSync [home; lit ".windsurf"] = false
          /\ existsSync [home; lit ".codex"] = false).
Proof.
  split; [|split; [|split; [|split; [|split]]]].
  - intros tool Hin. unfold TOOL_REGISTRY in Hin.
    repeat (apply elem_of_cons in Hin as [->|Hin]);
      try (by apply elem_of_nil in Hin); evaluated.
  - intros [|c id] Hne Hnot; [done|]. simpl.
    destruct (getToolById home (c :: id)) as [t|] eqn:Hfind; [|done].
    unfold getToolById in Hfind.
    apply find_some in Hfind as (Hin & Hid). apply bool_decide_eq_true in Hid.
    by destruct (Hnot t); [apply list_elem_of_In|].
  - intros [|c id] tool; [done|]. simpl. intros H _.
    destruct (getToolById home (c :: id)) as [t|] eqn:Hfind; [|done].
    injection H as ->. unfold getToolById in Hfind.
    apply find_some in Hfind as (_ & Hid). by apply bool_decide_eq_true in Hid.
  - intros Hclaude. unfold resolveTool, detectInstalledTools, TOOL_REGISTRY.
    cbn [List.filter globalDirs existsb]. rewrite Hclaude. cbn [orb].
    destruct (existsSync [home; lit ".cursor"]), (existsSync [home; lit ".windsurf"]),
      (existsSync [home; lit ".codex"]); cbn;
      (eexists; split; [reflexivity|reflexivity]).
  - intros tool. unfold resolveTool, detectInstalledTools, TOOL_REGISTRY.
    cbn [List.filter globalDirs existsb].
    destruct (existsSync [home; lit ".claude"]) eqn:H1,
      (existsSync [home; lit ".cursor"]) eqn:H2,
      (existsSync [home; lit ".windsurf"]) eqn:H3,
      (existsSync [home; lit ".codex"]) eqn:H4; cbn;
      intros [= <-]; (split; [done|]); cbn;
      (eexists; split; [left|done]).
  - unfold resolveTool, detectInstalledTools, TOOL_REGISTRY.
    cbn [List.filter globalDirs existsb].
    destruct (existsSync [home; lit ".claude"]) eqn:H1,
      (existsSync [home; lit ".cursor"]) eqn:H2,
      (existsSync [home; lit ".windsurf"]) eqn:H3,
      (existsSync [home; lit ".codex"]) eqn:H4; cbn;
      split; try done; intros (? & ? & ? & ?); done.
Qed.

Lemma tool_resolution_witness :
  resolveTool cursor_and_codex sample_home (Some (lit "claude"))
  = inr {| tool_id := lit "claude";
           globalDirs := [[sample_home; lit ".claude"]];
           hooks_supported := true;
           hook_events := [lit "SessionStart"; lit "UserPromptSubmit"; lit "Stop";
                           lit "PreCompact"; lit "SessionEnd"] |}
  /\ resolveTool cursor_and_codex sample_home (Some (lit "vim")) = inl UnknownTool.
Proof.
  destruct (tool_resolution cursor_and_codex sample_home) as (Hknown & Hunknown & _).
  split.
  - apply (Hknown {| tool_id := lit "claude";
                     globalDirs := [[sample_home; lit ".claude"]];
                     hooks_supported := true;
                     hook_events := [lit "SessionStart"; lit "UserPromptSubmit";
                                     lit "Stop"; lit "PreCompact"; lit "SessionEnd"] |}).
    left.
  - apply Hunknown; [done|]. intros tool Hin. unfold TOOL_REGISTRY in Hin.
    repeat (apply elem_of_cons in Hin as [->|Hin]);
      try (by apply elem_of_nil in Hin); evaluated.
Defined.

(** ** Installer: hook registration *)

Lemma includes_app (needle before s after : jsstring) :
  includes needle s = true -> includes needle (before ++ s ++ after) = true.
Proof.
  unfold includes at 1. destruct (indexOf needle s) as [i|] eqn:E; [|done]. intros _.
  destruct (indexOf_spec _ _ _ E) as (Hi & rest & Hrest).
  destruct needle as [|c needle]; [by destruct (before ++ s ++ after)|].
  rewrite <- (take_drop i s), Hrest, <- !app_assoc, (app_assoc before).
  by apply includes_inside.
Qed.

Lemma registered_app (needle : jsstring) (groups added : list HookGroup) :
  registered needle (groups ++ added)
  = registered needle groups || registered needle added.
Proof. apply existsb_app. Qed.

Lemma extends_refl (hooks : HookSettings) : extends hooks hooks.
Proof. intros event. split; [done|]. exists []. by rewrite app_nil_r. Qed.

Lemma extends_trans (h1 h2 h3 : HookSettings) :
  extends h1 h2 -> extends h2 h3 -> extends h1 h3.
Proof.
  intros H12 H23 event.
  destruct (H12 event) as (Hs12 & a12 & Ha12), (H23 event) as (Hs23 & a23 & Ha23).
  split; [auto|]. exists (a12 ++ a23). by rewrite Ha23, Ha12, app_assoc.
Qed.

Lemma extends_registered (h h' : HookSettings) (event needle : jsstring) :
  extends h h' ->
  registered needle (groups_of event h) = true ->
  registered needle (groups_of event h') = true.
Proof.
  intros Hext Hreg. destruct (Hext event) as (_ & added & ->).
  by rewrite registered_app, Hreg.
Qed.

Lemma extends_ensure (event : jsstring) (hooks : HookSettings) :
  extends hooks (<[event := groups_of event hooks]> hooks).
Proof.
  intros e. unfold groups_of. destruct (decide (e = event)) as [->|Hne].
  - rewrite lookup_insert_eq. split; [by eexists|]. exists []. by rewrite app_nil_r.
  - rewrite lookup_insert_ne by done. split; [done|]. exists []. by rewrite app_nil_r.
Qed.

Lemma extends_push (event cmd : jsstring) (seconds : nat) (hooks : HookSettings) :
  extends hooks (push_command event cmd seconds hooks).
Proof.
  intros e. unfold push_command, groups_of. destruct (decide (e = event)) as [->|Hne].
  - rewrite lookup_insert_eq. split; [by eexists|]. by eexists.
  - rewrite lookup_insert_ne by done. split; [done|]. exists []. by rewrite app_nil_r.
Qed.

Lemma ensure_present (event : jsstring) (hooks : HookSettings) :
  is_Some (hooks !! event) -> <[event := groups_of event hooks]> hooks = hooks.
Proof. intros [groups H]. unfold groups_of. rewrite H. by apply insert_id. Qed.

Lemma foldl_extends {A} (step : HookSettings -> A -> HookSettings)
    (P : A -> HookSettings -> Prop) (l : list A) (hooks : HookSettings) :
  (forall h x, x ∈ l -> extends h (step h x)) ->
  (forall h x, x ∈ l -> P x (step h x)) ->
  (forall x h h', extends h h' -> P x h -> P x h') ->
  extends hooks (foldl step hooks l)
  /\ forall x, x ∈ l -> P x (foldl step hooks l).
Proof.
  intros Hstep Hest Hmono. revert hooks.
  induction l as [|a l IH]; intros hooks; simpl.
  - split; [apply extends_refl|]. by intros x ?%elem_of_nil.
  - destruct (IH ltac:(intros; apply Hstep; by right) ltac:(intros; apply Hest; by right)
                (step hooks a)) as (Hext & HP).
    split; [eapply extends_trans; [apply Hstep; left|done]|].
    intros x [->|Hx]%elem_of_cons; [|by apply HP].
    eapply Hmono; [exact Hext|]. apply Hest. left.
Qed.

Lemma foldl_fixed {A} (step : HookSettings -> A -> HookSettings) (l : list A)
    (hooks : HookSettings) :
  (forall x, x ∈ l -> step hooks x = hooks) -> foldl step hooks l = hooks.
Proof.
  induction l as [|a l IH]; intros H; simpl; [done|].
  rewrite (H a) by left. apply IH. intros x Hx. apply H. by right.
Qed.

Section RegisterHooksFacts.

Variable script_path : jsstring -> jsstring.
Variable nodePath : jsstring.
Variable memoryMcpExtractor : option jsstring.
Variable events : list jsstring.

Lemma register_extractor_extends (extractor : jsstring) (hooks : HookSettings)
    (event : jsstring) :
  extends hooks (register_extractor nodePath events extractor hooks event).
Proof.
  unfold register_extractor. destruct (negb (bool_decide (event ∈ events))); [apply extends_refl|].
  destruct (negb _).
  - eapply extends_trans; [apply extends_ensure|apply extends_push].
  - apply extends_ensure.
Qed.

Lemma register_script_extends (event : jsstring) (hooks : HookSettings)
    (entry : jsstring * nat) :
  extends hooks (register_script script_path nodePath false event hooks entry).
Proof.
  unfold register_script. rewrite !andb_false_r, andb_true_r.
  destruct (registered _ _); [apply extends_refl|apply extends_push].
Qed.

Lemma register_event_extends (hooks : HookSettings)
    (entry : jsstring * list (jsstring * nat)) :
  extends hooks (register_event script_path nodePath false events hooks entry).
Proof.
  unfold register_event. destruct (negb (bool_decide (entry.1 ∈ events))); [apply extends_refl|].
  eapply extends_trans; [apply extends_ensure|].
  apply (foldl_extends _ (fun _ _ => True)); [|done|done].
  intros h x _. apply register_script_extends.
Qed.

Lemma registerHooks_extends (settings_hooks : option HookSettings) :
  extends (default ∅ settings_hooks)
    (registerHooks script_path nodePath memoryMcpExtractor false events settings_hooks).
Proof.
  unfold registerHooks.
  eapply extends_trans;
    [|apply (foldl_extends _ (fun _ _ => True)); [|done|done];
      intros h x _; apply register_event_extends].
  destruct memoryMcpExtractor as [extractor|]; [|apply extends_refl].
  apply (foldl_extends _ (fun _ _ => True)); [|done|done].
  intros h x _. apply register_extractor_extends.
Qed.

(** An event that the tool does not list is left as it was, forced or not. *)
Lemma registerHooks_other_event (force : bool) (settings_hooks : option HookSettings)
    (event : jsstring) :
  event ∉ events ->
  registerHooks script_path nodePath memoryMcpExtractor force events settings_hooks !! event
  = default ∅ settings_hooks !! event.
Proof.
  intros Hnot. unfold registerHooks.
  assert (forall A (step : HookSettings -> A -> HookSettings) (l : list A) h,
            (forall h x, step h x !! event = h !! event) ->
            foldl step h l !! event = h !! event) as Hfold.
  { intros A step l. induction l as [|a l IH]; intros h Hstep; simpl; [done|].
    by rewrite IH, Hstep. }
  assert (forall e cmd s h, e <> event -> push_command e cmd s h !! event = h !! event)
    as Hpush by (intros; unfold push_command; by rewrite lookup_insert_ne).
  rewrite Hfold.
  - destruct memoryMcpExtractor as [extractor|]; [|done].
    apply Hfold. intros h x. unfold register_extractor.
    case_bool_decide as Hx; simpl; [|done].
    assert (x <> event) as Hne by (by intros ->).
    destruct (negb _); rewrite ?Hpush by done; by rewrite lookup_insert_ne.
  - intros h [e scripts]. unfold register_event. simpl.
    case_bool_decide as Hx; simpl; [|done].
    assert (e <> event) as Hne by (by intros ->).
    rewrite Hfold; [by rewrite lookup_insert_ne|].
    intros h' [script t]. unfold register_script. simpl.
    destruct (registered _ _), force; simpl; rewrite ?Hpush by done;
      by rewrite ?lookup_insert_ne.
Qed.


Lemma command_includes (needle p : jsstring) :
  includes needle p = true ->
  includes needle (q nodePath ++ lit " " ++ q p) = true.
Proof.
  intros H. unfold q at 2.
  replace (q nodePath ++ lit " " ++ [DQUOTE] ++ p ++ [DQUOTE])
    with ((q nodePath ++ lit " " ++ [DQUOTE]) ++ p ++ [DQUOTE])
    by (by rewrite <- !app_assoc).
  by apply includes_app.
Qed.

Lemma registered_push (needle event cmd : jsstring) (seconds : nat)
    (hooks : HookSettings) :
  includes needle cmd = true ->
  registered needle (groups_of event (push_command event cmd seconds hooks)) = true.
Proof.
  intros H. unfold push_command, groups_of at 1. rewrite lookup_insert_eq. simpl.
  rewrite registered_app. apply orb_true_iff. right. simpl. by rewrite H.
Qed.

(** What a round leaves registered, and that a round over what is
    registered changes nothing. *)
Lemma register_extractor_done (extractor : jsstring) (hooks : HookSettings)
    (event : jsstring) :
  includes (lit "extractor") extractor = true ->
  event ∈ events ->
  is_Some (register_extractor nodePath events extractor hooks event !! event)
  /\ registered (lit "extractor")
       (groups_of event (register_extractor nodePath events extractor hooks event)) = true.
Proof.
  intros Hinc Hev. unfold register_extractor.
  rewrite bool_decide_eq_true_2 by done. simpl.
  destruct (registered (lit "extractor")
              (groups_of event (<[event := groups_of event hooks]> hooks))) eqn:Hreg; simpl.
  - split; [|done]. rewrite lookup_insert_eq. by eexists.
  - split; [unfold push_command; rewrite lookup_insert_eq; by eexists|].
    by apply registered_push, command_includes.
Qed.

Lemma register_extractor_fixed (extractor : jsstring) (hooks : HookSettings)
    (event : jsstring) :
  (event ∈ events ->
   is_Some (hooks !! event)
   /\ registered (lit "extractor") (groups_of event hooks) = true) ->
  register_extractor nodePath events extractor hooks event = hooks.
Proof.
  intros H. unfold register_extractor. case_bool_decide as Hev; simpl; [|done].
  destruct (H Hev) as (Hsome & Hreg).
  rewrite ensure_present by done. by rewrite Hreg.
Qed.

Lemma register_script_done (event : jsstring) (hooks : HookSettings)
    (entry : jsstring * nat) :
  includes entry.1 (script_path entry.1) = true ->
  registered entry.1
    (groups_of event (register_script script_path nodePath false event hooks entry)) = true.
Proof.
  intros Hinc. unfold register_script. rewrite !andb_false_r, andb_true_r.
  destruct (registered entry.1 (groups_of event hooks)) eqn:Hreg; [done|].
  by apply registered_push, command_includes.
Qed.

Lemma register_script_fixed (event : jsstring) (hooks : HookSettings)
    (entry : jsstring * nat) :
  registered entry.1 (groups_of event hooks) = true ->
  register_script script_path nodePath false event hooks entry = hooks.
Proof. intros H. unfold register_script. by rewrite H. Qed.

Lemma register_event_done (hooks : HookSettings)
    (entry : jsstring * list (jsstring * nat)) :
  Forall (fun s => includes s.1 (script_path s.1) = true) entry.2 ->
  event_done events entry (register_event script_path nodePath false events hooks entry).
Proof.
  intros Hinc Hev. unfold register_event.
  rewrite bool_decide_eq_true_2 by done. simpl.
  destruct (foldl_extends (register_script script_path nodePath false entry.1)
              (fun s h => registered s.1 (groups_of entry.1 h) = true) entry.2
              (<[entry.1 := groups_of entry.1 hooks]> hooks)) as (Hext & Hall).
  - intros h x _. apply register_script_extends.
  - intros h x Hx. apply register_script_done.
    rewrite Forall_forall in Hinc. by apply Hinc.
  - intros x h h' Hhh'. by apply extends_registered.
  - split; [|done].
    apply (Hext entry.1). rewrite lookup_insert_eq. by eexists.
Qed.

Lemma register_event_fixed (hooks : HookSettings)
    (entry : jsstring * list (jsstring * nat)) :
  event_done events entry hooks ->
  register_event script_path nodePath false events hooks entry = hooks.
Proof.
  intros H. unfold register_event. case_bool_decide as Hev; simpl; [|done].
  destruct (H Hev) as (Hsome & Hreg).
  rewrite ensure_present by done.
  apply foldl_fixed. intros s Hs. apply register_script_fixed. by apply Hreg.
Qed.

Lemma event_done_mono (entry : jsstring * list (jsstring * nat))
    (h h' : HookSettings) :
  extends h h' -> event_done events entry h -> event_done events entry h'.
Proof.
  intros Hext H Hev. destruct (H Hev) as (Hsome & Hreg). split.
  - by apply (Hext entry.1).
  - intros s Hs. eapply extends_registered; [done|]. by apply Hreg.
Qed.

(** X22. Registration without [--force] keeps the hooks already in the
    settings: for every event, the groups that were there stay in front, in
    their order, and new groups are appended behind them. Forced or not, an
    event that the tool does not list is left exactly as it was. *)
Theorem registration_keeps_user_hooks (settings_hooks : option HookSettings)
    (event : jsstring) :
  (exists added,
     groups_of event
       (registerHooks script_path nodePath memoryMcpExtractor false events settings_hooks)
     = groups_of event (default ∅ settings_hooks) ++ added)
  /\ (forall force, event ∉ events ->
        registerHooks script_path nodePath memoryMcpExtractor force events settings_hooks
          !! event
        = default ∅ settings_hooks !! event).
Proof.
  split.
  - apply (registerHooks_extends settings_hooks event).
  - intros force. apply registerHooks_other_event.
Qed.

(** X24. A second registration without [--force] changes nothing, when
    the path of each script contains the script's file name and the path of
    the extractor contains [extractor]: every hook is registered once,
    however often the installer runs. *)
Theorem registration_is_repeatable (settings_hooks : option HookSettings) :
  Forall (fun entry => Forall (fun s => includes s.1 (script_path s.1) = true) entry.2)
    hookMap ->
  (forall extractor, memoryMcpExtractor = Some extractor ->
     includes (lit "extractor") extractor = true) ->
  let once :=
    registerHooks script_path nodePath memoryMcpExtractor false events settings_hooks in
  registerHooks script_path nodePath memoryMcpExtractor false events (Some once) = once.
Proof.
  intros Hscripts Hextr once.
  set (hooks0 := default ∅ settings_hooks).
  set (hooks1 := match memoryMcpExtractor with
                 | Some extractor =>
                     foldl (register_extractor nodePath events extractor) hooks0
                       [lit "Stop"; lit "PreCompact"; lit "SessionEnd"]
                 | None => hooks0
                 end).
  assert (once = foldl (register_event script_path nodePath false events) hooks1 hookMap)
    as Honce by reflexivity.
  destruct (foldl_extends (register_event script_path nodePath false events)
              (event_done events) hookMap hooks1) as (Hext2 & Hdone2).
  { intros h x _. apply register_event_extends. }
  { intros h x Hx. apply register_event_done.
    rewrite Forall_forall in Hscripts. by apply Hscripts. }
  { intros x h h'. apply event_done_mono. }
  rewrite <- Honce in Hext2, Hdone2. clearbody once.
  unfold registerHooks. change (default ∅ (Some once)) with once.
  assert (match memoryMcpExtractor with
          | Some extractor =>
              foldl (register_extractor nodePath events extractor) once
                [lit "Stop"; lit "PreCompact"; lit "SessionEnd"]
          | None => once
          end = once) as ->.
  { destruct memoryMcpExtractor as [extractor|] eqn:Hm; [|done].
    specialize (Hextr extractor eq_refl).
    destruct (foldl_extends (register_extractor nodePath events extractor)
                (fun event h => event ∈ events ->
                   is_Some (h !! event)
                   /\ registered (lit "extractor") (groups_of event h) = true)
                [lit "Stop"; lit "PreCompact"; lit "SessionEnd"] hooks0)
      as (_ & Hdone1).
    { intros h x _. apply register_extractor_extends. }
    { intros h x _ Hev. by apply register_extractor_done. }
    { intros x h h' Hhh' H Hev. destruct (H Hev) as (Hsome & Hreg). split.
      - by apply (Hhh' x).
      - by eapply extends_registered. }
    fold hooks1 in Hdone1.
    apply foldl_fixed. intros event Hin. apply register_extractor_fixed.
    intros Hev. destruct (Hdone1 event Hin Hev) as (Hsome & Hreg). split.
    - by apply (Hext2 event).
    - by eapply extends_registered. }
  apply foldl_fixed. intros entry Hin. apply register_event_fixed. by apply Hdone2.
Qed.


Lemma register_event_other (force : bool) (hooks : HookSettings)
    (entry : jsstring * list (jsstring * nat)) (event : jsstring) :
  event <> entry.1 ->
  register_event script_path nodePath force events hooks entry !! event = hooks !! event.
Proof.
  intros Hne. unfold register_event. destruct (negb _); [done|].
  assert (forall l h, foldl (register_script script_path nodePath force entry.1) h l !! event
                      = h !! event) as Hfold.
  { induction l as [|a l IH]; intros h; simpl; [done|]. rewrite IH.
    unfold register_script, push_command.
    destruct (registered _ _), force; simpl; by rewrite ?lookup_insert_ne. }
  rewrite Hfold. by rewrite lookup_insert_ne.
Qed.

Lemma registered_filter (needle : jsstring) (keep : HookGroup -> bool)
    (groups : list HookGroup) :
  registered needle groups = false ->
  registered needle (List.filter keep groups) = false.
Proof.
  unfold registered. induction groups as [|g groups IH]; simpl; [done|].
  rewrite orb_false_iff. intros (Hg & Hrest).
  destruct (keep g); simpl; [rewrite Hg|]; by apply IH.
Qed.

(** X25. A forced registration can drop the development logger. Without
    memory-mcp, when the settings hold a [Stop] hook for the context keeper
    and none for the development logger, [registerHooks] with [--force]
    ends with no [Stop] hook for the development logger: the hook it adds
    first is removed again when the context keeper's registration clears
    every group with an [nlc-] command. *)
Theorem forced_registration_can_drop_the_logger (settings_hooks : option HookSettings) :
  let stop := groups_of (lit "Stop") (default ∅ settings_hooks) in
  let logger_command := q nodePath ++ lit " " ++ q (script_path (lit "nlc-dev-logger.js")) in
  let keeper_command :=
    q nodePath ++ lit " " ++ q (script_path (lit "nlc-context-keeper.js")) in
  memoryMcpExtractor = None ->
  lit "Stop" ∈ events ->
  registered (lit "nlc-dev-logger.js") stop = false ->
  registered (lit "nlc-context-keeper.js") stop = true ->
  includes (lit "nlc-") logger_command = true ->
  includes (lit "nlc-dev-logger.js") keeper_command = false ->
  registered (lit "nlc-dev-logger.js")
    (groups_of (lit "Stop")
       (registerHooks script_path nodePath memoryMcpExtractor true events settings_hooks))
  = false.
Proof.
  intros stop logger_command keeper_command -> Hev Hlogger Hkeeper Hnlc Hother.
  unfold registerHooks, hookMap. cbn [foldl].
  set (hooks0 := default ∅ settings_hooks) in *.
  unfold groups_of at 1.
  rewrite register_event_other by done.
  set (hooks2 := register_event _ _ _ _ (register_event _ _ _ _ hooks0 _) _).
  assert (groups_of (lit "Stop") hooks2 = stop) as Hstop.
  { unfold hooks2, groups_of. by rewrite !register_event_other. }
  unfold register_event. cbn [fst snd].
  rewrite bool_decide_eq_true_2 by done. cbn [negb foldl].
  set (hooks3 := <[lit "Stop" := groups_of (lit "Stop") hooks2]> hooks2).
  assert (groups_of (lit "Stop") hooks3 = stop) as Hstop3.
  { unfold hooks3, groups_of at 1. by rewrite lookup_insert_eq. }
  unfold register_script at 2. cbn [fst snd].
  rewrite Hstop3, Hlogger. cbn [andb].
  fold logger_command.
  set (hooks4 := push_command (lit "Stop") logger_command 30 hooks3).
  assert (groups_of (lit "Stop") hooks4
          = stop ++ [[{| hook_type := lit "command"; command := logger_command;
                         timeout := 30 |}]]) as Hstop4.
  { unfold hooks4, push_command, groups_of at 1. by rewrite lookup_insert_eq, Hstop3. }
  unfold register_script. cbn [fst snd].
  rewrite Hstop4, registered_app, Hkeeper. cbn [orb andb negb].
  fold keeper_command.
  unfold push_command, groups_of. rewrite !lookup_insert_eq. cbn [default from_option id].
  rewrite registered_app, List.filter_app. cbn [List.filter existsb command].
  rewrite Hnlc. cbn [orb negb]. rewrite app_nil_r.
  rewrite (registered_filter _ _ _ Hlogger). cbn [orb registered existsb command].
  by rewrite Hother.
Qed.

End RegisterHooksFacts.

(** X23. The dispatch script is never registered by the installer. For
    every tool of the registry and any settings, forced or not,
    [registerHooks] leaves the [PreToolUse] hooks as they were: that event,
    the only one [nlc-dispatch-gate.js] is mapped to, is in no tool's event
    list. *)
Theorem dispatch_gate_is_never_registered (script_path : jsstring -> jsstring)
    (nodePath home : jsstring) (memoryMcpExtractor : option jsstring) (force : bool)
    (tool : Tool) (settings_hooks : option HookSettings) :
  tool ∈ TOOL_REGISTRY home ->
  registerHooks script_path nodePath memoryMcpExtractor force (hook_events tool)
    settings_hooks !! lit "PreToolUse"
  = default ∅ settings_hooks !! lit "PreToolUse".
Proof.
  intros Hin. apply registerHooks_other_event.
  unfold TOOL_REGISTRY in Hin.
  repeat (apply elem_of_cons in Hin as [->|Hin]);
    try (by apply elem_of_nil in Hin); decided.
Qed.

Lemma dispatch_gate_is_never_registered_witness :
  registerHooks sample_script_path (lit "node") None true claude_events None
    !! lit "PreToolUse" = None.
Proof.
  apply (dispatch_gate_is_never_registered sample_script_path (lit "node") sample_home
           None true
           {| tool_id := lit "claude";
              globalDirs := [[sample_home; lit ".claude"]];
              hooks_supported := true;
              hook_events := claude_events |} None).
  left.
Defined.

Lemma registration_is_repeatable_witness :
  registerHooks sample_script_path (lit "node") None false claude_events
    (Some (registerHooks sample_script_path (lit "node") None false claude_events None))
  = registerHooks sample_script_path (lit "node") None false claude_events None.
Proof.
  apply (registration_is_repeatable sample_script_path (lit "node") None claude_events None).
  - repeat constructor; evaluated.
  - intros extractor H. discriminate H.
Defined.

Lemma forced_registration_can_drop_the_logger_witness :
  registered (lit "nlc-dev-logger.js")
    (groups_of (lit "Stop")
       (registerHooks sample_script_path (lit "node") None true claude_events
          (Some keeper_only)))
  = false.
Proof.
  apply (forced_registration_can_drop_the_logger sample_script_path (lit "node") None
           claude_events (Some keeper_only) eq_refl); [decided|evaluated..].
Defined.

(** ** Install, then uninstall *)

Lemma extends_by_nlc_refl (hooks : HookSettings) : extends_by_nlc hooks hooks.
Proof.
  intros event. split; [done|]. exists []. by rewrite app_nil_r.
Qed.

Lemma extends_by_nlc_trans (h1 h2 h3 : HookSettings) :
  extends_by_nlc h1 h2 -> extends_by_nlc h2 h3 -> extends_by_nlc h1 h3.
Proof.
  intros H12 H23 event.
  destruct (H12 event) as (Hs12 & a12 & Ha12 & Hn12),
           (H23 event) as (Hs23 & a23 & Ha23 & Hn23).
  split; [auto|]. exists (a12 ++ a23).
  split; [by rewrite Ha23, Ha12, app_assoc|by apply Forall_app].
Qed.

Lemma extends_by_nlc_ensure (event : jsstring) (hooks : HookSettings) :
  extends_by_nlc hooks (<[event := groups_of event hooks]> hooks).
Proof.
  intros e. unfold groups_of. destruct (decide (e = event)) as [->|Hne].
  - rewrite lookup_insert_eq. split; [by eexists|]. exists []. by rewrite app_nil_r.
  - rewrite lookup_insert_ne by done. split; [done|]. exists []. by rewrite app_nil_r.
Qed.

Lemma extends_by_nlc_push (event cmd : jsstring) (seconds : nat) (hooks : HookSettings) :
  includes (lit "nlc-") cmd = true ->
  extends_by_nlc hooks (push_command event cmd seconds hooks).
Proof.
  intros Hcmd e. unfold push_command, groups_of. destruct (decide (e = event)) as [->|Hne].
  - rewrite lookup_insert_eq. split; [by eexists|]. eexists. split; [done|].
    repeat constructor. unfold is_nlc_group. simpl. by rewrite Hcmd.
  - rewrite lookup_insert_ne by done. split; [done|]. exists []. by rewrite app_nil_r.
Qed.

Lemma foldl_extends_by_nlc {A} (step : HookSettings -> A -> HookSettings)
    (l : list A) (hooks : HookSettings) :
  (forall h x, x ∈ l -> extends_by_nlc h (step h x)) ->
  extends_by_nlc hooks (foldl step hooks l).
Proof.
  revert hooks. induction l as [|a l IH]; intros hooks Hstep; simpl.
  - apply extends_by_nlc_refl.
  - eapply extends_by_nlc_trans; [apply Hstep; left|].
    apply IH. intros h x Hx. apply Hstep. by right.
Qed.

Lemma uninstall_hooks_extended (earlier later : HookSettings) :
  extends_by_nlc earlier later -> uninstall_hooks later = uninstall_hooks earlier.
Proof.
  intros Hext. apply map_eq. intros event. unfold uninstall_hooks.
  rewrite !lookup_omap.
  destruct (Hext event) as (Hsome & added & Hadded & Hnlc).
  assert (List.filter (fun group => negb (is_nlc_group group)) added = []) as Hnone.
  { clear Hadded. induction Hnlc as [|g added Hg _ IH]; [done|]. simpl. by rewrite Hg. }
  unfold groups_of in Hadded.
  destruct (earlier !! event) as [groups|] eqn:He; simpl in *.
  - destruct (Hsome ltac:(by eexists)) as [groups' Hl]. rewrite Hl in *. simpl in *.
    subst groups'. by rewrite List.filter_app, Hnone, app_nil_r.
  - destruct (later !! event) as [groups'|]; simpl in *; [|done].
    subst groups'. by rewrite Hnone.
Qed.

Section Uninstall.

Variable script_path : jsstring -> jsstring.
Variable nodePath : jsstring.
Variable events : list jsstring.

(** X26. Uninstall undoes what a registration without [--force] and
    without memory-mcp added, when the path of every script contains
    [nlc-]: the settings after install and uninstall are the settings after
    uninstall alone, and they are the original hooks when those held no
    group with an [nlc-] command and no event without a group. *)
Theorem uninstall_undoes_registration (settings_hooks : option HookSettings) :
  Forall (fun entry => Forall (fun s => includes (lit "nlc-") (script_path s.1) = true)
                         entry.2) hookMap ->
  let hooks := default ∅ settings_hooks in
  uninstall_hooks (registerHooks script_path nodePath None false events settings_hooks)
  = uninstall_hooks hooks
  /\ ((forall event groups, hooks !! event = Some groups ->
         groups <> [] /\ Forall (fun group => is_nlc_group group = false) groups) ->
      uninstall_hooks (registerHooks script_path nodePath None false events settings_hooks)
      = hooks).
Proof.
  intros Hscripts hooks.
  assert (uninstall_hooks
            (registerHooks script_path nodePath None false events settings_hooks)
          = uninstall_hooks hooks) as Hsame.
  { apply uninstall_hooks_extended. unfold registerHooks. fold hooks.
    apply foldl_extends_by_nlc. intros h entry Hentry.
    unfold register_event. destruct (negb _); [apply extends_by_nlc_refl|].
    eapply extends_by_nlc_trans; [apply extends_by_nlc_ensure|].
    apply foldl_extends_by_nlc. intros h' s Hs.
    unfold register_script. rewrite !andb_false_r, andb_true_r.
    destruct (registered _ _); [apply extends_by_nlc_refl|].
    apply extends_by_nlc_push.
    rewrite Forall_forall in Hscripts. specialize (Hscripts entry Hentry).
    rewrite Forall_forall in Hscripts. specialize (Hscripts s Hs).
    unfold q at 2.
    replace (q nodePath ++ lit " " ++ [DQUOTE] ++ script_path s.1 ++ [DQUOTE])
      with ((q nodePath ++ lit " " ++ [DQUOTE]) ++ script_path s.1 ++ [DQUOTE])
      by (by rewrite <- !app_assoc).
    by apply includes_app. }
  split; [done|].
  intros Hclean. rewrite Hsame. apply map_eq. intros event.
  unfold uninstall_hooks. rewrite lookup_omap.
  destruct (hooks !! event) as [groups|] eqn:He; simpl; [|done].
  destruct (Hclean event groups He) as (Hne & Hnone).
  assert (List.filter (fun group => negb (is_nlc_group group)) groups = groups) as ->.
  { clear He Hne. induction Hnone as [|g groups Hg _ IH]; [done|].
    simpl. by rewrite Hg, IH. }
  rewrite bool_decide_eq_false_2; [done|]. by destruct groups.
Qed.

End Uninstall.

Lemma uninstall_undoes_registration_witness :
  uninstall_hooks
    (registerHooks sample_script_path (lit "node") None false claude_events
       (Some user_hooks))
  = user_hooks.
Proof.
  apply (proj2 (uninstall_undoes_registration sample_script_path (lit "node")
                  claude_events (Some user_hooks)
                  ltac:(repeat constructor; evaluated))).
  intros event groups.
  destruct (decide (event = lit "Stop")) as [->|Hne].
  - intros [= <-]. split; [done|]. repeat constructor; evaluated.
  - unfold user_hooks. simpl. by rewrite lookup_singleton_ne.
Defined.

(** ** A classification that failed *)

Section FailedClassification.

Variable JSON_parse : jsstring -> option Value.

(** X27. A failed classification is not retried. When the classifier
    fails (in any of the four modes) on a run over an existing transcript,
    the run changes the cursor and nothing else: the cursor of the session
    is at the number of non-blank lines. A later run on the same payload,
    whatever its classifier, clock and credentials, then changes nothing:
    the lines of the failed run are never classified. *)
Theorem failed_classification_is_not_retried (script : Script)
    (inv inv' : Invocation) (mode : FailureMode) (w : World)
    (sid tpath cwd content : jsstring) :
  payload_is JSON_parse inv sid tpath cwd ->
  stdin inv' = stdin inv ->
  transcripts w !! tpath = Some content ->
  (forall prompt, fails_with JSON_parse script (api inv) prompt mode) ->
  main JSON_parse script inv w
  = with_cursor script cwd
      (setCursor (cursors script w !! cwd) sid (length (nonblank_lines content))) w
  /\ main JSON_parse script inv' (main JSON_parse script inv w)
     = main JSON_parse script inv w.
Proof.
  intros Hp Hin Hfile Hfail.
  set (total := length (nonblank_lines content)).
  set (doc := setCursor (cursors script w !! cwd) sid total).
  assert (main JSON_parse script inv w = with_cursor script cwd doc w) as Hfirst.
  { pose proof (getLatestExchange_scan JSON_parse script content
                  (getCursor (cursors script w !! cwd) sid)) as Hres.
    rewrite <- Hfile in Hres at 1. simpl in Hres.
    rewrite (main_after_cursor _ _ _ _ _ _ _ _ Hp Hres). simpl.
    by rewrite (classify_failure JSON_parse script inv cwd _ mode _ (Hfail _)). }
  split; [done|]. rewrite Hfirst.
  assert (payload_is JSON_parse inv' sid tpath cwd) as Hp'.
  { unfold payload_is in *. by rewrite Hin. }
  assert (transcripts (with_cursor script cwd doc w) !! tpath = Some content) as Hfile'
    by (by destruct script).
  pose proof (getLatestExchange_scan JSON_parse script content total) as Hres.
  assert (drop total (nonblank_lines content) = []) as Hdrop by apply drop_all.
  rewrite Hdrop in Hres.
  assert (getCursor (cursors script (with_cursor script cwd doc w) !! cwd) sid = total)
    as Hcur by (rewrite cursors_with_cursor; apply getCursor_setCursor).
  rewrite <- Hfile', <- Hcur in Hres at 1. simpl in Hres.
  rewrite (main_after_cursor _ _ _ _ _ _ _ _ Hp' Hres).
  unfold classify_and_record. simpl.
  rewrite cursors_with_cursor. unfold doc. rewrite setCursor_idem.
  apply with_cursor_same, cursors_with_cursor.
Qed.

End FailedClassification.

Lemma failed_classification_is_not_retried_witness :
  main sample_parse DevLogger development_done
    (main sample_parse DevLogger (sample_invocation offline) (sample_world 0))
  = main sample_parse DevLogger (sample_invocation offline) (sample_world 0).
Proof.
  apply (proj2 (failed_classification_is_not_retried sample_parse DevLogger
                  (sample_invocation offline) development_done NetworkFailure
                  (sample_world 0) (lit "s1") (lit "/tmp/t.jsonl") (lit "/proj")
                  sample_transcript (sample_payload_is _) eq_refl ltac:(evaluated)
                  ltac:(intros prompt; split; [evaluated|reflexivity]))).
Defined.

(** ** Sync engine: documents edited on both sides *)

Section SyncConflicts.

Variable utf8_decode : bytes -> jsstring.
Variable git : GitEnv.

(** X28. A document that differs on the two sides takes the direction of
    the sync. For a tracked document present on both sides with different
    decoded text: after a session-start pull the memory directory holds the
    bytes of the repository's working tree (as the pull left it); after a
    push, with a remote that has nothing new and [git add], [git diff] and
    [git commit] working, the working tree and the last commit hold the
    local bytes. *)
Theorem differing_document_follows_the_direction (st : SyncState) (f : jsstring)
    (local remote : bytes) :
  is_tracked f = true ->
  utf8_decode local <> utf8_decode remote ->
  (memory st ≫= (fun d => d !! f) = Some local ->
   worktree (default (repo st) (pull_rebase git (repo st))) !! f = Some remote ->
   memory (run (syncPull utf8_decode git) st) ≫= (fun d => d !! f) = Some remote)
  /\ (memory st ≫= (fun d => d !! f) = Some local ->
      worktree (repo st) !! f = Some remote ->
      (forall r, pull_rebase git r = None \/ pull_rebase git r = Some r) ->
      add_fails git = false -> diff_fails git = false -> commit_fails git = false ->
      worktree (repo (run (syncPush utf8_decode git) st)) !! f = Some local
      /\ head (repo (run (syncPush utf8_decode git) st)) !! f = Some local).
Proof.
  intros Htracked Hdiff. split.
  - intros Hlocal Hremote. rewrite syncPull_run.
    set (st0 := after_gitPull git st).
    set (files := getFilesToSync (Some (worktree (repo st0)))).
    assert (is_Some (memory st0)) as Hm0 by by eexists.
    destruct (copy_each_effect utf8_decode Repository Local files 0 st0 ltac:(done) Hm0)
      as (n & st1 & Hrun & _ & _ & _ & Hdst).
    unfold run. rewrite Hrun. simpl.
    specialize (Hdst f). unfold lookup_side in Hdst. simpl in Hdst.
    rewrite Hdst, bool_decide_eq_true_2.
    + rewrite Hremote.
      destruct (memory st) as [loc|]; simpl in *; [|done].
      rewrite Hlocal. simpl. rewrite bool_decide_eq_true_2; [done|].
      by intros ?.
    + apply getFilesToSync_elem. split; [done|]. by eexists.
  - intros Hlocal Hremote Hquiet Hadd Hdiffs Hcommit.
    destruct (memory st) as [loc|] eqn:Hloc; simpl in Hlocal; [|done].
    destruct (syncPush_effect utf8_decode git st loc Hloc)
      as (st2 & loc2 & -> & _ & _ & Hw & _).
    destruct (gitPush_settles git st2 Hquiet Hadd Hdiffs Hcommit) as (Hwt & _ & Hhd).
    rewrite Hwt, Hhd, Hw, Htracked, Hlocal, Hremote. simpl.
    by rewrite bool_decide_eq_true_2.
Qed.

End SyncConflicts.

Lemma differing_document_follows_the_direction_witness :
  memory (run (syncPull (fun b => b) quiet_remote) edited_on_both_sides)
    ≫= (fun d => d !! lit "MEMORY.md") = Some (lit "remote notes")
  /\ head (repo (run (syncPush (fun b => b) quiet_remote) edited_on_both_sides))
       !! lit "MEMORY.md" = Some (lit "local notes").
Proof.
  assert (forall r, pull_rebase quiet_remote r = None \/ pull_rebase quiet_remote r = Some r)
    as Hquiet by (intros r; simpl; case_bool_decide; auto).
  destruct (differing_document_follows_the_direction (fun b => b) quiet_remote
              edited_on_both_sides (lit "MEMORY.md") (lit "local notes")
              (lit "remote notes") eq_refl ltac:(evaluated)) as (Hpull & Hpush).
  split.
  - apply Hpull; evaluated.
  - apply Hpush; [evaluated|evaluated|exact Hquiet|reflexivity..].
Defined.

(** ** What the extractor emits *)










Section ExtractorEmits.

Variable JSON_parse : jsstring -> option Value.




End ExtractorEmits.

